(** * nodeFrameWork: storage layer, auth gate, validation gate, error classifier

    A shallow embedding of the TypeScript sources
      - src/db/connection.ts        (DatabaseConnection)
      - src/db/query.executor.ts    (QueryExecutor)
      - src/db/transaction.helper.ts(TransactionHelper)
      - src/errors/AppError.ts, src/errors/error.handler.ts
      - src/middleware/auth.middleware.ts, validation.middleware.ts
    Asynchronous code is modelled sequentially, one worker at a time: an
    [await] is a call that returns a value or throws.  The mysql2 driver,
    jsonwebtoken and Joi are external; the driver is replaced by a scripted
    environment (every driver call consumes the next scripted reply, so a
    theorem quantified over the script holds for every driver behaviour),
    jsonwebtoken by an arbitrary verification function, Joi by a list of
    rules. *)

From Stdlib Require Import String Ascii List ZArith Bool Lia DecimalString.
Import ListNotations.
Open Scope string_scope.
Open Scope list_scope.

Infix "^" := String.append (at level 30, right associativity) : string_scope.

(** ** JavaScript values *)

Inductive JsVal : Type :=
| JUndefined
| JNull
| JBool (b : bool)
| JNum (n : Z)
| JStr (s : string).

(** ToBoolean. *)
Definition truthy (v : JsVal) : bool :=
  match v with
  | JUndefined | JNull => false
  | JBool b => b
  | JNum n => negb (n =? 0)%Z
  | JStr s => negb (s =? "")%string
  end.

(** [a || b] *)
Definition js_or (a b : JsVal) : JsVal := if truthy a then a else b.

(** Strict equality [===] (also SameValueZero on these values). *)
Definition js_eqb (a b : JsVal) : bool :=
  match a, b with
  | JUndefined, JUndefined => true
  | JNull, JNull => true
  | JBool x, JBool y => Bool.eqb x y
  | JNum x, JNum y => (x =? y)%Z
  | JStr x, JStr y => (x =? y)%string
  | _, _ => false
  end.

(** A plain object, as the list of its entries in enumeration order
    ([Object.keys] / [Object.values] order). *)
Definition JsRecord : Type := list (string * JsVal).

Definition Object_keys (o : JsRecord) : list string := map fst o.
Definition Object_values (o : JsRecord) : list JsVal := map snd o.

(** Property read [o.k]: [undefined] when the key is absent. *)
Fixpoint prop (o : JsRecord) (k : string) : JsVal :=
  match o with
  | [] => JUndefined
  | (k', v) :: o' => if (k' =? k)%string then v else prop o' k
  end.

(** [Array.prototype.join] *)
Definition join (sep : string) (l : list string) : string := String.concat sep l.

(** [s.startsWith(p)] and [s.substring(n)] *)
Definition startsWith (s p : string) : bool := String.prefix p s.
Definition substring_from (n : nat) (s : string) : string :=
  String.substring n (String.length s - n) s.

(** ** src/errors/error.types.ts *)

Module ErrorType.
(** Modelled from the spec: error.types.ts is not among the sources; the
    members of [ErrorType] are the ones AppError.ts and error.handler.ts
    name. *)
Inductive t : Type :=
| VALIDATION_ERROR
| AUTHENTICATION_ERROR
| AUTHORIZATION_ERROR
| NOT_FOUND_ERROR
| DUPLICATE_ERROR
| DATABASE_ERROR
| BAD_REQUEST_ERROR
| INTERNAL_SERVER_ERROR.
End ErrorType.

Module HttpStatusCode.
(** Modelled from the spec: error.types.ts is not among the sources; the
    members of [HttpStatusCode] are the ones AppError.ts and
    error.handler.ts name. *)
Inductive t : Type :=
| BAD_REQUEST
| UNAUTHORIZED
| FORBIDDEN
| NOT_FOUND
| CONFLICT
| UNPROCESSABLE_ENTITY
| INTERNAL_SERVER_ERROR.

(** Modelled from the spec: the numeric values are those of the status
    table of the specification (section 6), with 400 for BAD_REQUEST. *)
Definition value (c : t) : Z :=
  match c with
  | BAD_REQUEST => 400
  | UNAUTHORIZED => 401
  | FORBIDDEN => 403
  | NOT_FOUND => 404
  | CONFLICT => 409
  | UNPROCESSABLE_ENTITY => 422
  | INTERNAL_SERVER_ERROR => 500
  end.
End HttpStatusCode.

(** ** src/errors/AppError.ts *)

(** The [context] argument ([any]): either a plain value or the object
    [{ errors: [...] }] that the validation gate attaches. *)
Inductive Context : Type :=
| CtxValue (v : JsVal)
| CtxErrors (errors : list string).

Definition context_truthy (c : option Context) : bool :=
  match c with
  | None => false
  | Some (CtxValue v) => truthy v
  | Some (CtxErrors _) => true
  end.

Module AppError.
Record t : Type := make {
  message : string;
  type : ErrorType.t;
  statusCode : HttpStatusCode.t;
  isOperational : bool;
  context : option Context
}.

Definition badRequest (m : string) (ctx : option Context) : t :=
  make m ErrorType.BAD_REQUEST_ERROR HttpStatusCode.BAD_REQUEST true ctx.
Definition unauthorized (m : string) (ctx : option Context) : t :=
  make m ErrorType.AUTHENTICATION_ERROR HttpStatusCode.UNAUTHORIZED true ctx.
Definition forbidden (m : string) (ctx : option Context) : t :=
  make m ErrorType.AUTHORIZATION_ERROR HttpStatusCode.FORBIDDEN true ctx.
Definition notFound (m : string) (ctx : option Context) : t :=
  make m ErrorType.NOT_FOUND_ERROR HttpStatusCode.NOT_FOUND true ctx.
Definition conflict (m : string) (ctx : option Context) : t :=
  make m ErrorType.DUPLICATE_ERROR HttpStatusCode.CONFLICT true ctx.
Definition validation (m : string) (ctx : option Context) : t :=
  make m ErrorType.VALIDATION_ERROR HttpStatusCode.UNPROCESSABLE_ENTITY true ctx.
Definition database (m : string) (ctx : option Context) : t :=
  make m ErrorType.DATABASE_ERROR HttpStatusCode.INTERNAL_SERVER_ERROR true ctx.
Definition internal (m : string) (ctx : option Context) : t :=
  make m ErrorType.INTERNAL_SERVER_ERROR HttpStatusCode.INTERNAL_SERVER_ERROR false ctx.
End AppError.

(** An [Error] object that is not an [AppError]: what the driver, the token
    library or any other code throws.  [code] is whatever value the
    property holds ([undefined] when absent). *)
Record JsError : Type := mkJsError {
  err_name : string;
  err_message : string;
  err_code : JsVal
}.

(** A thrown value.  The sources read every caught value as an [Error]
    ([(error as Error).message]); so does the model. *)
Inductive Thrown : Type :=
| Plain (e : JsError)
| App (a : AppError.t).

Definition message_of (e : Thrown) : string :=
  match e with
  | Plain e => err_message e
  | App a => AppError.message a
  end.

(** ** The world a worker runs in *)

(** One statement with its positional parameters. *)
Definition Stmt : Type := (string * list JsVal)%type.

Definition Row : Type := JsRecord.

(** The second component of the driver's result pair, read by the sources
    through [fields?.x]. *)
Record Fields : Type := mkFields {
  f_affectedRows : option Z;
  f_insertId : option Z;
  f_changedRows : option Z;
  f_fieldCount : option Z;
  f_warningCount : option Z
}.

(** The first component: an array of rows, or a result header. *)
Inductive Rows : Type :=
| RowArray (rows : list Row)
| ResultHeader (h : Fields).

(** What the driver answers to one call. *)
Inductive Reply : Type :=
| Fail (e : JsError)
| Done (rows : Rows) (fields : option Fields).

(** The calls made on the driver, in order. *)
Inductive DriverCall : Type :=
| CCreatePool
| CGetConnection
| CPing
| CBegin
| CExecute (q : string) (ps : list JsVal)
| CQuery (q : string)
| CCommit
| CRollback
| CRelease
| CEnd.

(** The pool as this layer sees it: its size, and the running counts of
    connections handed out and handed back. *)
Record Pool : Type := mkPool {
  connectionLimit : nat;
  checkedOut : nat;
  checkedIn : nat
}.

(** Connections available for checkout. *)
Definition idleCount (p : Pool) : Z :=
  Z.of_nat (connectionLimit p) - (Z.of_nat (checkedOut p) - Z.of_nat (checkedIn p)).

Inductive Level : Type := info | warn | error.

(** A value in a logger call's metadata object. *)
Inductive LogVal : Type :=
| LV (v : JsVal)
| LArr (vs : list JsVal).

(** A logger call: level, message and the fields of its metadata object
    that do not depend on the clock (timestamps and execution times are
    left out). *)
Record LogEntry : Type := mkLog {
  log_level : Level;
  log_msg : string;
  log_meta : list (string * LogVal)
}.

Record World : Type := mkWorld {
  pool : option Pool;               (* DatabaseConnection.pool *)
  committed : list Stmt;            (* effects durably visible in storage *)
  session : option (list Stmt);     (* open transaction of the held connection *)
  script : list Reply;              (* what the driver will answer *)
  logs : list LogEntry;
  calls : list DriverCall
}.

Definition set_pool (p : option Pool) (w : World) : World :=
  mkWorld p (committed w) (session w) (script w) (logs w) (calls w).
Definition set_committed (c : list Stmt) (w : World) : World :=
  mkWorld (pool w) c (session w) (script w) (logs w) (calls w).
Definition set_session (s : option (list Stmt)) (w : World) : World :=
  mkWorld (pool w) (committed w) s (script w) (logs w) (calls w).
Definition set_script (s : list Reply) (w : World) : World :=
  mkWorld (pool w) (committed w) (session w) s (logs w) (calls w).
Definition add_log (l : LogEntry) (w : World) : World :=
  mkWorld (pool w) (committed w) (session w) (script w) (logs w ++ [l]) (calls w).
Definition add_call (c : DriverCall) (w : World) : World :=
  mkWorld (pool w) (committed w) (session w) (script w) (logs w) (calls w ++ [c]).

(** ** Computations that may throw *)

Inductive Outcome (A : Type) : Type :=
| Ok (a : A)
| Throw (e : Thrown).
Arguments Ok {A} a.
Arguments Throw {A} e.

Definition M (A : Type) : Type := World -> Outcome A * World.

Definition ret {A} (a : A) : M A := fun w => (Ok a, w).
Definition throw {A} (e : Thrown) : M A := fun w => (Throw e, w).
Definition bind {A B} (m : M A) (k : A -> M B) : M B :=
  fun w =>
    match m w with
    | (Ok a, w1) => k a w1
    | (Throw e, w1) => (Throw e, w1)
    end.

Declare Scope m_scope.
Delimit Scope m_scope with m.
Notation "x <- c ;; k" := (bind c (fun x => k))
  (at level 100, c at next level, right associativity) : m_scope.
Notation "c ;; k" := (bind c (fun _ => k))
  (at level 100, right associativity) : m_scope.
Open Scope m_scope.

(** [try { body } catch (e) { handler e }] *)
Definition try_catch {A} (body : M A) (handler : Thrown -> M A) : M A :=
  fun w =>
    match body w with
    | (Ok a, w1) => (Ok a, w1)
    | (Throw e, w1) => handler e w1
    end.

(** [try { body } finally { fin }]: [fin] runs on both exits; the outcome
    of [body] stands unless [fin] throws. *)
Definition finally {A} (body : M A) (fin : M unit) : M A :=
  fun w =>
    let '(r, w1) := body w in
    match fin w1 with
    | (Ok _, w2) => (r, w2)
    | (Throw e, w2) => (Throw e, w2)
    end.

Definition when (b : bool) (m : M unit) : M unit := if b then m else ret tt.

Module logger.
Definition log (lv : Level) (msg : string) (meta : list (string * LogVal)) : M unit :=
  fun w => (Ok tt, add_log (mkLog lv msg meta) w).
Definition info := log info.
Definition warn := log warn.
Definition error := log error.
End logger.

(** ** The mysql2 driver, scripted *)

(** Take the next scripted reply; an exhausted script answers with an empty
    result set. *)
Definition next_reply (w : World) : Reply * World :=
  match script w with
  | [] => (Done (RowArray []) None, w)
  | r :: rest => (r, set_script rest w)
  end.

(** A checked-out connection; [serial] is the number of checkouts before
    it. *)
Inductive PoolConnection : Type := Connection (serial : nat).

Module mysql.

(** [pool.getConnection()] *)
Definition getConnection : M PoolConnection :=
  fun w =>
    let '(r, w1) := next_reply (add_call CGetConnection w) in
    match r with
    | Fail e => (Throw (Plain e), w1)
    | Done _ _ =>
        match pool w1 with
        | Some p =>
            (Ok (Connection (checkedOut p)),
             set_pool (Some (mkPool (connectionLimit p) (S (checkedOut p)) (checkedIn p))) w1)
        | None => (Ok (Connection 0), w1)
        end
    end.

(** [connection.release()]: synchronous, hands the connection back. *)
Definition release (c : PoolConnection) : M unit :=
  fun w =>
    let w1 := add_call CRelease w in
    match pool w1 with
    | Some p =>
        (Ok tt, set_pool (Some (mkPool (connectionLimit p) (checkedOut p) (S (checkedIn p)))) w1)
    | None => (Ok tt, w1)
    end.

(** [connection.ping()] *)
Definition ping (c : PoolConnection) : M unit :=
  fun w =>
    let '(r, w1) := next_reply (add_call CPing w) in
    match r with
    | Fail e => (Throw (Plain e), w1)
    | Done _ _ => (Ok tt, w1)
    end.

(** [connection.beginTransaction()] *)
Definition beginTransaction (c : PoolConnection) : M unit :=
  fun w =>
    let '(r, w1) := next_reply (add_call CBegin w) in
    match r with
    | Fail e => (Throw (Plain e), w1)
    | Done _ _ => (Ok tt, set_session (Some []) w1)
    end.

(** The effect of a statement the driver accepted: pending inside an open
    transaction, visible at once otherwise (autocommit). *)
Definition apply_stmt (s : Stmt) (w : World) : World :=
  match session w with
  | Some pending => set_session (Some (pending ++ [s])) w
  | None => set_committed (committed w ++ [s]) w
  end.

(** [connection.execute(query, params)] *)
Definition execute (c : PoolConnection) (q : string) (ps : list JsVal)
  : M (Rows * option Fields) :=
  fun w =>
    let '(r, w1) := next_reply (add_call (CExecute q ps) w) in
    match r with
    | Fail e => (Throw (Plain e), w1)
    | Done rows fields => (Ok (rows, fields), apply_stmt (q, ps) w1)
    end.

(** [connection.query(query)] *)
Definition query (c : PoolConnection) (q : string) : M (Rows * option Fields) :=
  fun w =>
    let '(r, w1) := next_reply (add_call (CQuery q) w) in
    match r with
    | Fail e => (Throw (Plain e), w1)
    | Done rows fields => (Ok (rows, fields), apply_stmt (q, []) w1)
    end.

(** [connection.commit()]: the pending effects become visible. *)
Definition commit (c : PoolConnection) : M unit :=
  fun w =>
    let '(r, w1) := next_reply (add_call CCommit w) in
    match r with
    | Fail e => (Throw (Plain e), w1)
    | Done _ _ =>
        match session w1 with
        | Some pending => (Ok tt, set_session None (set_committed (committed w1 ++ pending) w1))
        | None => (Ok tt, w1)
        end
    end.

(** [connection.rollback()]: the pending effects are discarded. *)
Definition rollback (c : PoolConnection) : M unit :=
  fun w =>
    let '(r, w1) := next_reply (add_call CRollback w) in
    match r with
    | Fail e => (Throw (Plain e), w1)
    | Done _ _ => (Ok tt, set_session None w1)
    end.

(** [pool.end()] *)
Definition end_ : M unit :=
  fun w =>
    let '(r, w1) := next_reply (add_call CEnd w) in
    match r with
    | Fail e => (Throw (Plain e), w1)
    | Done _ _ => (Ok tt, w1)
    end.

End mysql.

(** ** src/config *)

Record Config : Type := mkConfig {
  NODE_ENV : string;
  JWT_SECRET : string;
  DB_CONNECTION_LIMIT : nat
}.

Definition lstr (s : string) : LogVal := LV (JStr s).
Definition lnat (n : nat) : LogVal := LV (JNum (Z.of_nat n)).

(** ** src/db/connection.ts *)

Module DatabaseConnection.

(** [mysql.createPool({...dbConfig, waitForConnections: true, queueLimit: 0})] *)
Definition createPool (cfg : Config) : M unit :=
  fun w =>
    (Ok tt, set_pool (Some (mkPool (DB_CONNECTION_LIMIT cfg) 0 0)) (add_call CCreatePool w)).

Definition connect (cfg : Config) : M unit :=
  try_catch
    (createPool cfg ;;
     connection <- mysql.getConnection ;;
     mysql.ping connection ;;
     mysql.release connection ;;
     logger.info "Database connected successfully" [])
    (fun err =>
       logger.error "Database connection failed:" [("error", lstr (message_of err))] ;;
       throw (App (AppError.database "Failed to connect to database" None))).

Definition getPool : M unit :=
  fun w =>
    match pool w with
    | None => (Throw (App (AppError.database "Database pool not initialized" None)), w)
    | Some _ => (Ok tt, w)
    end.

Definition checkConnection : M bool :=
  try_catch
    (fun w =>
       match pool w with
       | None => (Ok false, w)
       | Some _ =>
           (connection <- mysql.getConnection ;;
            mysql.ping connection ;;
            mysql.release connection ;;
            ret true) w
       end)
    (fun err =>
       logger.error "Database connection check failed:" [("error", lstr (message_of err))] ;;
       ret false).

Definition close : M unit :=
  try_catch
    (fun w =>
       match pool w with
       | Some _ =>
           (mysql.end_ ;;
            (fun w' => (Ok tt, set_pool None w')) ;;
            logger.info "Database connection closed" []) w
       | None => (Ok tt, w)
       end)
    (fun err =>
       logger.error "Error closing database connection:" [("error", lstr (message_of err))] ;;
       throw (App (AppError.database "Failed to close database connection" None))).

End DatabaseConnection.

(** ** src/db/query.executor.ts *)

Record Meta : Type := mkMeta {
  affectedRows : option Z;
  insertId : option Z;
  changedRows : option Z;
  fieldCount : Z;
  warningCount : Z
}.

Record QueryResult : Type := mkResult {
  data : Rows;
  meta : Meta
}.

(** [fields?.x] and [fields?.x || 0] *)
Definition opt_field (fields : option Fields) (f : Fields -> option Z) : option Z :=
  match fields with
  | Some fs => f fs
  | None => None
  end.
Definition or_zero (x : option Z) : Z :=
  match x with
  | Some n => n
  | None => 0%Z
  end.

Definition make_result (rows : Rows) (fields : option Fields) : QueryResult :=
  mkResult rows
    (mkMeta (opt_field fields f_affectedRows)
            (opt_field fields f_insertId)
            (opt_field fields f_changedRows)
            (or_zero (opt_field fields f_fieldCount))
            (or_zero (opt_field fields f_warningCount))).

(** [Array.isArray(rows) ? rows.length : 0] *)
Definition rowCount (rows : Rows) : nat :=
  match rows with
  | RowArray l => length l
  | ResultHeader _ => 0
  end.

Module QueryExecutor.

(** The statements of the try block after [connection] is assigned. *)
Definition execute_run (connection : PoolConnection) (q : string) (params : list JsVal)
    (logQuery : bool) : M QueryResult :=
  when logQuery (logger.info "Executing query" [("query", lstr q); ("params", LArr params)]) ;;
  r <- mysql.execute connection q params ;;
  when logQuery (logger.info "Query executed successfully" [("rowCount", lnat (rowCount (fst r)))]) ;;
  ret (make_result (fst r) (snd r)).

Definition execute_catch (q : string) (params : list JsVal) (err : Thrown) : M QueryResult :=
  logger.error "Query execution failed"
    [("query", lstr q); ("params", LArr params); ("error", lstr (message_of err))] ;;
  throw (App (AppError.database ("Query execution failed: " ^ message_of err) None)).

(** [execute(query, params = [], logQuery = true)].  The local
    [connection] is [null] until [pool.getConnection()] has returned: when
    the try block throws before that, the catch block runs and the finally
    block has nothing to release; afterwards the finally block releases. *)
Definition execute (q : string) (params : list JsVal) (logQuery : bool) : M QueryResult :=
  fun w =>
    match (DatabaseConnection.getPool ;; mysql.getConnection) w with
    | (Throw err, w1) => execute_catch q params err w1
    | (Ok connection, w1) =>
        finally
          (try_catch (execute_run connection q params logQuery) (execute_catch q params))
          (mysql.release connection) w1
    end.

Definition executeOne (q : string) (params : list JsVal) (logQuery : bool) : M (option Row) :=
  result <- execute q params logQuery ;;
  ret (match data result with
       | RowArray (r :: _) => Some r
       | _ => None
       end).

End QueryExecutor.

(** ** src/db/transaction.helper.ts *)

(** One element of the [queries] array: [{ query, params? }]. *)
Record QueryItem : Type := mkQuery {
  q_query : string;
  q_params : option (list JsVal)
}.

(** [params = []] in the destructuring pattern. *)
Definition params_or_empty (p : option (list JsVal)) : list JsVal :=
  match p with
  | Some ps => ps
  | None => []
  end.

(** What a caller-supplied callback does with the active connection: it
    returns, raises, or runs a statement and goes on from what the driver
    answered (result or error, which it is free to catch). *)
Inductive Work (T : Type) : Type :=
| Return (t : T)
| Raise (e : Thrown)
| Run (q : string) (ps : list JsVal) (k : Outcome (Rows * option Fields) -> Work T).
Arguments Return {T} t.
Arguments Raise {T} e.
Arguments Run {T} q ps k.

Fixpoint perform {T} (connection : PoolConnection) (c : Work T) : M T :=
  match c with
  | Return t => ret t
  | Raise e => throw e
  | Run q ps k =>
      fun w =>
        let '(r, w1) := mysql.execute connection q ps w in
        perform connection (k r) w1
  end.

Inductive OpType : Type := insert | update | delete.

(** One element of the [operations] array of [simpleTransaction]. *)
Record Operation : Type := mkOperation {
  op_type : OpType;
  op_table : string;
  op_data : option JsRecord;
  op_conditions : option JsRecord
}.

Module TransactionHelper.

(** The [for ... of queries] loop; [results] is the array pushed to. *)
Fixpoint run_queries (connection : PoolConnection) (queries : list QueryItem)
    (logQueries : bool) (results : list QueryResult) : M (list QueryResult) :=
  match queries with
  | [] => ret results
  | item :: rest =>
      let q := q_query item in
      let params := params_or_empty (q_params item) in
      when logQueries
        (logger.info "Executing transaction query" [("query", lstr q); ("params", LArr params)]) ;;
      r <- mysql.execute connection q params ;;
      run_queries connection rest logQueries (results ++ [make_result (fst r) (snd r)])
  end.

(** The try block of [executeTransaction]. *)
Definition executeTransaction_try (connection : PoolConnection) (queries : list QueryItem)
    (logQueries : bool) : M (list QueryResult) :=
  mysql.beginTransaction connection ;;
  when logQueries (logger.info "Transaction started" [("queryCount", lnat (length queries))]) ;;
  results <- run_queries connection queries logQueries [] ;;
  mysql.commit connection ;;
  when logQueries
    (logger.info "Transaction committed successfully" [("queryCount", lnat (length queries))]) ;;
  ret results.

(** The catch block of [executeTransaction]. *)
Definition executeTransaction_catch {A} (connection : PoolConnection) (queries : list QueryItem)
    (logQueries : bool) (err : Thrown) : M A :=
  try_catch
    (mysql.rollback connection ;;
     when logQueries (logger.warn "Transaction rolled back due to error" []))
    (fun rollbackError =>
       logger.error "Failed to rollback transaction"
         [("originalError", lstr (message_of err));
          ("rollbackError", lstr (message_of rollbackError))]) ;;
  logger.error "Transaction failed"
    [("error", lstr (message_of err)); ("queryCount", lnat (length queries))] ;;
  throw (App (AppError.database ("Transaction failed: " ^ message_of err) None)).

Definition executeTransaction (queries : list QueryItem) (logQueries : bool)
  : M (list QueryResult) :=
  DatabaseConnection.getPool ;;
  connection <- mysql.getConnection ;;
  finally
    (try_catch (executeTransaction_try connection queries logQueries)
               (executeTransaction_catch connection queries logQueries))
    (mysql.release connection).

(** The try block of [withTransaction]. *)
Definition withTransaction_try {T} (connection : PoolConnection)
    (callback : PoolConnection -> Work T) (logTransaction : bool) : M T :=
  mysql.beginTransaction connection ;;
  when logTransaction (logger.info "Transaction started (callback mode)" []) ;;
  result <- perform connection (callback connection) ;;
  mysql.commit connection ;;
  when logTransaction (logger.info "Transaction committed successfully (callback mode)" []) ;;
  ret result.

(** The catch block of [withTransaction]. *)
Definition withTransaction_catch {A} (connection : PoolConnection) (logTransaction : bool)
    (err : Thrown) : M A :=
  try_catch
    (mysql.rollback connection ;;
     when logTransaction (logger.warn "Transaction rolled back due to error (callback mode)" []))
    (fun rollbackError =>
       logger.error "Failed to rollback transaction (callback mode)"
         [("originalError", lstr (message_of err));
          ("rollbackError", lstr (message_of rollbackError))]) ;;
  logger.error "Transaction failed (callback mode)" [("error", lstr (message_of err))] ;;
  throw (App (AppError.database ("Transaction failed: " ^ message_of err) None)).

Definition withTransaction {T} (callback : PoolConnection -> Work T) (logTransaction : bool)
  : M T :=
  DatabaseConnection.getPool ;;
  connection <- mysql.getConnection ;;
  finally
    (try_catch (withTransaction_try connection callback logTransaction)
               (withTransaction_catch connection logTransaction))
    (mysql.release connection).

(** The body of the [switch] of [simpleTransaction]: the statement built
    for one operation, or the [badRequest] thrown for it. *)
Definition build_query (operation : Operation) : Outcome QueryItem :=
  match op_type operation with
  | insert =>
      match op_data operation with
      | None => Throw (App (AppError.badRequest "Insert operation requires data" None))
      | Some data =>
          let insertFields := Object_keys data in
          let insertPlaceholders := join ", " (map (fun _ => "?") insertFields) in
          Ok (mkQuery
                ("INSERT INTO " ^ op_table operation ^ " (" ^ join ", " insertFields
                   ^ ") VALUES (" ^ insertPlaceholders ^ ")")
                (Some (Object_values data)))
      end
  | update =>
      match op_data operation, op_conditions operation with
      | Some data, Some conditions =>
          let updateFields := Object_keys data in
          let updateSet := join ", " (map (fun field => field ^ " = ?") updateFields) in
          let updateWhere :=
            join " AND " (map (fun field => field ^ " = ?") (Object_keys conditions)) in
          Ok (mkQuery
                ("UPDATE " ^ op_table operation ^ " SET " ^ updateSet ^ " WHERE " ^ updateWhere)
                (Some (Object_values data ++ Object_values conditions)))
      | _, _ =>
          Throw (App (AppError.badRequest "Update operation requires data and conditions" None))
      end
  | delete =>
      match op_conditions operation with
      | None => Throw (App (AppError.badRequest "Delete operation requires conditions" None))
      | Some conditions =>
          let deleteWhere :=
            join " AND " (map (fun field => field ^ " = ?") (Object_keys conditions)) in
          Ok (mkQuery
                ("DELETE FROM " ^ op_table operation ^ " WHERE " ^ deleteWhere)
                (Some (Object_values conditions)))
      end
  end.

(** The [for ... of operations] loop; [queries] is the array pushed to. *)
Fixpoint build_queries (operations : list Operation) (queries : list QueryItem)
  : Outcome (list QueryItem) :=
  match operations with
  | [] => Ok queries
  | operation :: rest =>
      match build_query operation with
      | Throw e => Throw e
      | Ok item => build_queries rest (queries ++ [item])
      end
  end.

Definition simpleTransaction (operations : list Operation) (logTransaction : bool)
  : M (list QueryResult) :=
  fun w =>
    match build_queries operations [] with
    | Throw e => (Throw e, w)
    | Ok queries => executeTransaction queries logTransaction w
    end.

End TransactionHelper.

(** ** Requests and middleware *)

(** [req.user] *)
Record User : Type := mkUser {
  u_id : JsVal;
  u_email : JsVal;
  u_role : JsVal
}.

Record Request : Type := mkRequest {
  authorization : option string;    (* req.headers.authorization *)
  body : JsRecord;
  params : JsRecord;
  query : JsRecord;
  originalUrl : string;
  method : string;
  user : option User
}.

Definition set_user (u : User) (req : Request) : Request :=
  mkRequest (authorization req) (body req) (params req) (query req)
            (originalUrl req) (method req) (Some u).

(** How a middleware hands the request on: [next()] or [next(err)]. *)
Inductive Passed : Type :=
| Next (req : Request)
| NextErr (e : Thrown).

(** [asyncHandler(fn)]: [Promise.resolve(fn(req, res, next)).catch(next)].
    The wrapped functions of this development call [next()] as their last
    statement, so [Ok req] stands for "returned after calling [next()]". *)
Definition asyncHandler (fn : Request -> Outcome Request) (req : Request) : Passed :=
  match fn req with
  | Ok req' => Next req'
  | Throw e => NextErr e
  end.

(** ** src/middleware/auth.middleware.ts *)

(** What [jwt.verify] throws, by class: [TokenExpiredError], any other
    [JsonWebTokenError] (bad signature, malformed token, not yet valid),
    or something else. *)
Inductive VerifyError : Type :=
| TokenExpiredError
| JsonWebTokenError
| OtherError.

Inductive Verified : Type :=
| Decoded (claims : JsRecord)
| Rejected (e : VerifyError).

Section AuthGate.

(** [jwt.verify(token, secret)] of the jsonwebtoken library. *)
Variable jwt_verify : string -> string -> Verified.
Variable config : Config.

(** The function wrapped by [authenticate].  [next()] is the last statement
    of its try block; what the handlers downstream do is not part of
    it. *)
Definition authenticate_fn (req : Request) : Outcome Request :=
  let authHeader := authorization req in
  match authHeader with
  | None => Throw (App (AppError.unauthorized "Access token is required" None))
  | Some h =>
      if negb (startsWith h "Bearer ")
      then Throw (App (AppError.unauthorized "Access token is required" None))
      else
        let token := substring_from 7 h in
        match jwt_verify token (JWT_SECRET config) with
        | Decoded decoded =>
            Ok (set_user
                  (mkUser (js_or (prop decoded "id") (prop decoded "userId"))
                          (prop decoded "email")
                          (prop decoded "role"))
                  req)
        | Rejected TokenExpiredError =>
            Throw (App (AppError.unauthorized "Token has expired" None))
        | Rejected JsonWebTokenError =>
            Throw (App (AppError.unauthorized "Invalid token" None))
        | Rejected OtherError =>
            Throw (App (AppError.unauthorized "Token verification failed" None))
        end
  end.

Definition authenticate : Request -> Passed := asyncHandler authenticate_fn.

Definition optionalAuth_fn (req : Request) : Outcome Request :=
  match authorization req with
  | Some h =>
      if startsWith h "Bearer "
      then
        match jwt_verify (substring_from 7 h) (JWT_SECRET config) with
        | Decoded decoded =>
            Ok (set_user
                  (mkUser (js_or (prop decoded "id") (prop decoded "userId"))
                          (prop decoded "email")
                          (prop decoded "role"))
                  req)
        | Rejected _ => Ok req
        end
      else Ok req
  | None => Ok req
  end.

Definition optionalAuth : Request -> Passed := asyncHandler optionalAuth_fn.

(** [verifyToken(token)] *)
Definition verifyToken (token : string) : Outcome JsRecord :=
  match jwt_verify token (JWT_SECRET config) with
  | Decoded decoded => Ok decoded
  | Rejected _ => Throw (App (AppError.unauthorized "Invalid token" None))
  end.

End AuthGate.

(** [roles.includes(v)] *)
Definition includes (roles : list string) (v : JsVal) : bool :=
  existsb (fun r => js_eqb (JStr r) v) roles.

Definition authorize_fn (roles : list string) (req : Request) : Outcome Request :=
  match user req with
  | None => Throw (App (AppError.unauthorized "Authentication required" None))
  | Some u =>
      if (0 <? length roles)%nat && negb (includes roles (js_or (u_role u) (JStr "")))
      then Throw (App (AppError.forbidden "Insufficient permissions" None))
      else Ok req
  end.

Definition authorize (roles : list string) : Request -> Passed :=
  asyncHandler (authorize_fn roles).

(** ** src/middleware/validation.middleware.ts *)

(** A Joi object schema, as the list of the rules it declares: a rule
    gives its violation message on an input, or nothing. *)
Definition Rule : Type := JsRecord -> option string.

Record ObjectSchema : Type := mkSchema { rules : list Rule }.

Fixpoint violations (rs : list Rule) (v : JsRecord) : list string :=
  match rs with
  | [] => []
  | r :: rs' =>
      match r v with
      | Some m => m :: violations rs' v
      | None => violations rs' v
      end
  end.

(** [schema.validate(value, { abortEarly })]: the [details] of the
    [error] it reports, all of them unless [abortEarly]; [None] when
    [error] is undefined. *)
Definition Joi_validate (s : ObjectSchema) (v : JsRecord) (abortEarly : bool)
  : option (list string) :=
  match violations (rules s) v with
  | [] => None
  | d :: ds => Some (if abortEarly then [d] else d :: ds)
  end.

(** The [schema] argument of [validate]. *)
Record SchemaSet : Type := mkSchemaSet {
  s_body : option ObjectSchema;
  s_params : option ObjectSchema;
  s_query : option ObjectSchema
}.

(** One of the three [if (schema.x) { ... }] blocks: the messages pushed
    to [validationErrors]. *)
Definition check_source (s : option ObjectSchema) (v : JsRecord)
    (validationErrors : list string) : list string :=
  match s with
  | Some sch =>
      match Joi_validate sch v false with
      | Some details => validationErrors ++ details
      | None => validationErrors
      end
  | None => validationErrors
  end.

Definition collect_errors (schema : SchemaSet) (req : Request) : list string :=
  let validationErrors := [] in
  let validationErrors := check_source (s_body schema) (body req) validationErrors in
  let validationErrors := check_source (s_params schema) (params req) validationErrors in
  let validationErrors := check_source (s_query schema) (query req) validationErrors in
  validationErrors.

Definition validate_fn (schema : SchemaSet) (req : Request) : Outcome Request :=
  let validationErrors := collect_errors schema req in
  if (0 <? length validationErrors)%nat
  then Throw (App (AppError.validation "Validation failed" (Some (CtxErrors validationErrors))))
  else Ok req.

Definition validate (schema : SchemaSet) : Request -> Passed :=
  asyncHandler (validate_fn schema).

(** ** src/errors/error.handler.ts *)

(** [error.stack], kept symbolic. *)
Inductive Stack : Type := StackOf (e : Thrown).

(** The [error] object of the response. *)
Record ErrorBody : Type := mkBody {
  e_type : ErrorType.t;
  e_message : string;
  e_statusCode : HttpStatusCode.t;
  e_timestamp : string;
  e_path : string;
  e_method : string;
  e_stack : option Stack;
  e_context : option Context
}.

(** What the handler does: [res.status(s).json({ success: false, error })],
    or a [TypeError] raised while classifying. *)
Inductive Handled : Type :=
| Responded (status : Z) (error : ErrorBody)
| TypeError (what : string).

(** The classification chain: status, type and message chosen for a thrown
    value, with its context; [None] when evaluating the chain raises a
    [TypeError] ([code.startsWith] on a truthy value that is not a
    string). *)
Definition classify (config : Config) (err : Thrown)
  : option (HttpStatusCode.t * ErrorType.t * string * option Context) :=
  match err with
  | App a =>
      Some (AppError.statusCode a, AppError.type a, AppError.message a, AppError.context a)
  | Plain e =>
      if (err_name e =? "ValidationError")%string then
        Some (HttpStatusCode.UNPROCESSABLE_ENTITY, ErrorType.VALIDATION_ERROR,
              (if (err_message e =? "")%string then "Validation failed" else err_message e),
              None)
      else if (err_name e =? "CastError")%string then
        Some (HttpStatusCode.BAD_REQUEST, ErrorType.BAD_REQUEST_ERROR,
              "Invalid resource ID", None)
      else if (err_name e =? "JsonWebTokenError")%string then
        Some (HttpStatusCode.UNAUTHORIZED, ErrorType.AUTHENTICATION_ERROR,
              "Invalid token", None)
      else if (err_name e =? "TokenExpiredError")%string then
        Some (HttpStatusCode.UNAUTHORIZED, ErrorType.AUTHENTICATION_ERROR,
              "Token expired", None)
      else if js_eqb (err_code e) (JStr "ER_DUP_ENTRY") then
        Some (HttpStatusCode.CONFLICT, ErrorType.DUPLICATE_ERROR,
              "Duplicate entry found", None)
      else if truthy (err_code e) then
        match err_code e with
        | JStr c =>
            if startsWith c "ER_" then
              Some (HttpStatusCode.INTERNAL_SERVER_ERROR, ErrorType.DATABASE_ERROR,
                    (if (NODE_ENV config =? "production")%string
                     then "Database error occurred" else err_message e),
                    None)
            else
              Some (HttpStatusCode.INTERNAL_SERVER_ERROR, ErrorType.INTERNAL_SERVER_ERROR,
                    "Something went wrong!", None)
        | _ => None
        end
      else
        Some (HttpStatusCode.INTERNAL_SERVER_ERROR, ErrorType.INTERNAL_SERVER_ERROR,
              "Something went wrong!", None)
  end.

(** [globalErrorHandler(error, req, res, next)]; [now] is
    [new Date().toISOString()].  The [logError] call at its head does not
    bear on the response and is left out. *)
Definition globalErrorHandler (config : Config) (now : string) (err : Thrown) (req : Request)
  : Handled :=
  match classify config err with
  | None => TypeError "error.code.startsWith is not a function"
  | Some (statusCode, type, message, context) =>
      Responded (HttpStatusCode.value statusCode)
        (mkBody type message statusCode now (originalUrl req) (method req)
           (if (NODE_ENV config =? "development")%string then Some (StackOf err) else None)
           (if context_truthy context then context else None))
  end.

(** * Vocabulary of the properties *)

(** [m] leaves the pool as it found it. *)
Definition keeps_pool {A} (m : M A) : Prop :=
  forall w, pool (snd (m w)) = pool w.

Definition take (p : Pool) : Pool := mkPool (connectionLimit p) (S (checkedOut p)) (checkedIn p).
Definition give (p : Pool) : Pool := mkPool (connectionLimit p) (checkedOut p) (S (checkedIn p)).

Definition handedOut (w : World) : nat :=
  match pool w with Some p => checkedOut p | None => 0 end.
Definition handedBack (w : World) : nat :=
  match pool w with Some p => checkedIn p | None => 0 end.

(** The pool's idle count, when there is a pool. *)
Definition idle (w : World) : option Z := option_map idleCount (pool w).

(** From [w] to [w'], as many connections were checked in as were checked
    out, and the idle count is back where it was. *)
Definition settled (w w' : World) : Prop :=
  (exists n, handedOut w' = handedOut w + n /\ handedBack w' = handedBack w + n)
  /\ idle w' = idle w.

(** A computation that leaks no connection, on any exit. *)
Definition leak_free {A} (m : M A) : Prop := forall w, settled w (snd (m w)).

(** The held connection has a transaction open. *)
Definition in_tx (w : World) : Prop := session w <> None.

(** Inside an open transaction, [m] changes nothing that is visible in
    storage, and leaves the transaction open. *)
Definition pending_only {A} (m : M A) : Prop :=
  forall w, in_tx w -> committed (snd (m w)) = committed w /\ in_tx (snd (m w)).

(** What a failed transaction leaves behind.  [w] is the world at the
    call, [w1] the world when the try block threw [err], [w'] the world
    when the call ends: a rollback was issued and then the connection
    released; nothing the transaction did is visible; when the rollback
    went through no transaction is left open; when the rollback itself
    threw (the driver's next reply at [w1] is a failure), that failure is
    logged in an entry of its own, before the entry for the original
    error. *)
Definition aftermath (lg : bool) (suffix : string) (extra : list (string * LogVal))
    (err : Thrown) (w w1 w' : World) : Prop :=
  calls w' = calls w1 ++ [CRollback; CRelease]
  /\ committed w' = committed w
  /\ match script w1 with
     | Fail e2 :: _ =>
         logs w' = logs w1 ++
           [mkLog error ("Failed to rollback transaction" ^ suffix)
              [("originalError", lstr (message_of err));
               ("rollbackError", lstr (err_message e2))];
            mkLog error ("Transaction failed" ^ suffix)
              (("error", lstr (message_of err)) :: extra)]
     | _ =>
         session w' = None
         /\ logs w' = logs w1 ++
              (if lg
               then [mkLog warn ("Transaction rolled back due to error" ^ suffix) []]
               else []) ++
              [mkLog error ("Transaction failed" ^ suffix)
                 (("error", lstr (message_of err)) :: extra)]
     end.

(** The statement a queued item stands for. *)
Definition stmt_of (item : QueryItem) : Stmt :=
  (q_query item, params_or_empty (q_params item)).

(** The error a failed transaction ends with: the original error's
    message, re-raised as a database [AppError]. *)
Definition TransactionFailed (err : Thrown) : Thrown :=
  App (AppError.database ("Transaction failed: " ^ message_of err) None).


(** A pool of ten connections, nothing stored, a driver that accepts
    everything. *)
Definition ready : World := mkWorld (Some (mkPool 10 0 0)) [] None [] [] [].

Definition delete_all_users : Operation := mkOperation delete "users" None (Some []).
Definition update_all_users : Operation :=
  mkOperation update "users" (Some [("role", JNum 1)]) (Some []).

(** The messages of the rules of one schema that the input violates; none
    when the schema is not declared. *)
Definition declared_violations (s : option ObjectSchema) (v : JsRecord) : list string :=
  match s with
  | Some sch => violations (rules sch) v
  | None => []
  end.

(** How many rules of one schema the input violates. *)
Definition violated (s : option ObjectSchema) (v : JsRecord) : nat :=
  match s with
  | Some sch =>
      length (filter (fun r : Rule => match r v with Some _ => true | None => false end)
                     (rules sch))
  | None => 0
  end.

(** A rule of the shape "the field must be present". *)
Definition required (field : string) : Rule :=
  fun v => if js_eqb (prop v field) JUndefined
           then Some (field ^ " is required") else None.

Definition signup_schema : SchemaSet :=
  mkSchemaSet (Some (mkSchema [required "email"; required "password"]))
              (Some (mkSchema [required "id"]))
              (Some (mkSchema [required "page"])).

(** A request that violates one rule of each source and meets the
    fourth. *)
Definition poor_request : Request :=
  mkRequest None [("email", JStr "a@x.com")] [] [("limit", JNum 10)]
            "/api/v1/users" "POST" None.

(** The specification's names for the failures of the auth gate. *)
Definition MissingCredential : Thrown :=
  App (AppError.unauthorized "Access token is required" None).
Definition ExpiredCredential : Thrown :=
  App (AppError.unauthorized "Token has expired" None).
Definition InvalidCredential (e : Thrown) : Prop :=
  e = App (AppError.unauthorized "Invalid token" None)
  \/ e = App (AppError.unauthorized "Token verification failed" None).
Definition InsufficientPermission : Thrown :=
  App (AppError.forbidden "Insufficient permissions" None).

(** The [Identity] read from decoded claims. *)
Definition identity_of (claims : JsRecord) : User :=
  mkUser (js_or (prop claims "id") (prop claims "userId"))
         (prop claims "email") (prop claims "role").

(** [v] is one of the role names [roles]. *)
Definition among (v : JsVal) (roles : list string) : Prop :=
  exists r, In r roles /\ v = JStr r.

(** The handler answers with status [status] and an envelope of type [ty]
    and message [msg] whose other mandatory fields are filled from the
    request and the clock. *)
Definition responds (config : Config) (now : string) (err : Thrown) (req : Request)
    (status : Z) (ty : ErrorType.t) (msg : string) : Prop :=
  exists envelope,
    globalErrorHandler config now err req = Responded status envelope
    /\ e_type envelope = ty
    /\ e_message envelope = msg
    /\ HttpStatusCode.value (e_statusCode envelope) = status
    /\ e_timestamp envelope = now
    /\ e_path envelope = originalUrl req
    /\ e_method envelope = method req.

(** No branch on [error.name] applies. *)
Definition unnamed (e : JsError) : Prop :=
  err_name e <> "ValidationError" /\ err_name e <> "CastError"
  /\ err_name e <> "JsonWebTokenError" /\ err_name e <> "TokenExpiredError".

Definition test_build : Config := mkConfig "test" "secret" 10.
Definition unknown_column : JsError :=
  mkJsError "Error" "Unknown column 'nickname' in 'field list'" (JStr "ER_BAD_FIELD_ERROR").
Definition some_request : Request :=
  mkRequest None [] [] [] "/api/v1/users" "POST" None.

(** One call on the storage layer, of any of the four kinds. *)
Inductive Call : Type :=
| CallExecute (q : string) (ps : list JsVal) (lg : bool)
| CallTransaction (queries : list QueryItem) (lg : bool)
| CallWith (callback : PoolConnection -> Work unit) (lg : bool)
| CallSimple (operations : list Operation) (lg : bool).

(** The world after a call, whether it returned or threw. *)
Definition after_call (c : Call) (w : World) : World :=
  match c with
  | CallExecute q ps lg => snd (QueryExecutor.execute q ps lg w)
  | CallTransaction queries lg => snd (TransactionHelper.executeTransaction queries lg w)
  | CallWith callback lg => snd (TransactionHelper.withTransaction callback lg w)
  | CallSimple operations lg => snd (TransactionHelper.simpleTransaction operations lg w)
  end.

Definition after_calls (cs : list Call) (w : World) : World :=
  fold_left (fun w c => after_call c w) cs w.

Definition boom : JsError := mkJsError "Error" "Column 'bio' cannot be null" (JStr "ER_BAD_NULL_ERROR").
Definition lost : JsError := mkJsError "Error" "Connection lost" (JStr "PROTOCOL_CONNECTION_LOST").

Definition two_queries : list QueryItem :=
  [mkQuery "INSERT INTO users (email, role) VALUES (?, ?)" (Some [JStr "a@x.com"; JNum 2]);
   mkQuery "UPDATE profiles SET bio = ? WHERE user_id = ?" (Some [JNull; JNum 1])].

(** The driver hands out a connection, begins, accepts the first
    statement, rejects the second, and then fails to roll back. *)
Definition failing_world : World :=
  mkWorld (Some (mkPool 10 0 0)) [("INSERT INTO roles (id) VALUES (?)", [JNum 2])] None
    [Done (RowArray []) None; Done (RowArray []) None; Done (RowArray []) None;
     Fail boom; Fail lost]
    [] [].





Definition closed_world : World := snd (DatabaseConnection.close ready).

(** The claims of a token, and a verifier that knows two tokens: a good
    one carrying these claims and an expired one. *)
Definition admin_claims : JsRecord :=
  [("id", JStr "42"); ("email", JStr "a@x.com"); ("role", JStr "admin");
   ("iat", JNum 1700000000); ("exp", JNum 1700000001)].

Definition sample_verify (token secret : string) : Verified :=
  if (secret =? "secret")%string then
    if (token =? "good")%string then Decoded admin_claims
    else if (token =? "old")%string then Rejected TokenExpiredError
    else Rejected JsonWebTokenError
  else Rejected JsonWebTokenError.

Definition bearer_request (token : string) : Request :=
  mkRequest (Some ("Bearer " ^ token)) [] [] [] "/api/v1/users/profile" "GET" None.

Definition user_request : Request :=
  mkRequest (Some "Bearer good") [] [] [] "/api/v1/users" "GET"
    (Some (mkUser (JStr "42") (JStr "a@x.com") (JStr "user"))).

(** The claims of a token whose [id] is the number 0 and that also
    carries a [userId], and a verifier that accepts every token with these
    claims. *)
Definition zero_id_claims : JsRecord :=
  [("id", JNum 0); ("userId", JStr "u7"); ("email", JStr "a@x.com"); ("role", JStr "user")].

Definition zero_id_verify (token secret : string) : Verified := Decoded zero_id_claims.

(** A request whose identity has no role, as [authenticate] leaves it for
    a token without [role] claim. *)
Definition roleless_request : Request :=
  mkRequest (Some "Bearer good") [] [] [] "/api/v1/users" "GET"
    (Some (mkUser (JStr "42") (JStr "a@x.com") JUndefined)).

(** * The rest of the storage layer *)

(** ** src/db/query.executor.ts, the other methods *)

Module QueryHelpers.

(** The [for ... of queries] loop of [executeMultiple]; [results] is the
    array pushed to. *)
Fixpoint executeMultiple_loop (queries : list QueryItem) (logQuery : bool)
    (results : list QueryResult) : M (list QueryResult) :=
  match queries with
  | [] => ret results
  | item :: rest =>
      result <- QueryExecutor.execute (q_query item) (params_or_empty (q_params item)) logQuery ;;
      executeMultiple_loop rest logQuery (results ++ [result])
  end.

(** [executeMultiple(queries, logQuery = true)]: in sequence, not in a
    transaction. *)
Definition executeMultiple (queries : list QueryItem) (logQuery : bool)
  : M (list QueryResult) :=
  executeMultiple_loop queries logQuery [].

(** The statements of the try block of [executeRaw] after [connection] is
    assigned. *)
Definition executeRaw_run (connection : PoolConnection) (q : string) (logQuery : bool)
  : M QueryResult :=
  when logQuery (logger.info "Executing raw query" [("query", lstr q)]) ;;
  r <- mysql.query connection q ;;
  when logQuery
    (logger.info "Raw query executed successfully" [("rowCount", lnat (rowCount (fst r)))]) ;;
  ret (make_result (fst r) (snd r)).

Definition executeRaw_catch (q : string) (err : Thrown) : M QueryResult :=
  logger.error "Raw query execution failed"
    [("query", lstr q); ("error", lstr (message_of err))] ;;
  throw (App (AppError.database ("Raw query execution failed: " ^ message_of err) None)).

(** [executeRaw(query, logQuery = true)], with the local [connection]
    handled as in [execute]. *)
Definition executeRaw (q : string) (logQuery : bool) : M QueryResult :=
  fun w =>
    match (DatabaseConnection.getPool ;; mysql.getConnection) w with
    | (Throw err, w1) => executeRaw_catch q err w1
    | (Ok connection, w1) =>
        finally
          (try_catch (executeRaw_run connection q logQuery) (executeRaw_catch q))
          (mysql.release connection) w1
    end.

(** [Object.keys(conditions).map(key => `${key} = ?`).join(' AND ')] *)
Definition whereClause (conditions : JsRecord) : string :=
  join " AND " (map (fun key => key ^ " = ?") (Object_keys conditions)).

(** [result.data.length > 0] *)
Definition has_rows (d : Rows) : bool :=
  match d with
  | RowArray l => (0 <? length l)%nat
  | ResultHeader _ => false
  end.

(** The statement and the parameters [exists] builds. *)
Definition exists_query (table : string) (conditions : JsRecord) : string * list JsVal :=
  ("SELECT 1 FROM " ^ table ^ " WHERE " ^ whereClause conditions ^ " LIMIT 1",
   Object_values conditions).

(** [exists(table, conditions)] *)
Definition exists_ (table : string) (conditions : JsRecord) : M bool :=
  let '(q, params) := exists_query table conditions in
  result <- QueryExecutor.execute q params false ;;
  ret (has_rows (data result)).

(** The statement and the parameters [count] builds. *)
Definition count_query (table : string) (conditions : JsRecord) : string * list JsVal :=
  let q := "SELECT COUNT(*) as count FROM " ^ table in
  if (0 <? length (Object_keys conditions))%nat
  then (q ^ " WHERE " ^ whereClause conditions, Object_values conditions)
  else (q, []).

(** [result.data[0]?.count || 0] *)
Definition first_count (d : Rows) : JsVal :=
  match d with
  | RowArray (r :: _) => js_or (prop r "count") (JNum 0)
  | _ => JNum 0
  end.

(** [count(table, conditions = {})] *)
Definition count (table : string) (conditions : JsRecord) : M JsVal :=
  let '(q, params) := count_query table conditions in
  result <- QueryExecutor.execute q params false ;;
  ret (first_count (data result)).

End QueryHelpers.

(** ** src/db/connection.ts, the health check *)

Inductive HealthStatus : Type := healthy | unhealthy.

Record Health : Type := mkHealth {
  h_status : HealthStatus;
  h_timestamp : string;
  h_responseTime : Z
}.

(** [healthCheck()].  [startTime] and [endTime] are the two readings of
    [Date.now()], [timestamp] is [new Date().toISOString()]. *)
Definition healthCheck (startTime endTime : Z) (timestamp : string) : M Health :=
  try_catch
    (isConnected <- DatabaseConnection.checkConnection ;;
     let responseTime := (endTime - startTime)%Z in
     ret (mkHealth (if isConnected then healthy else unhealthy) timestamp responseTime))
    (fun err =>
       let responseTime := (endTime - startTime)%Z in
       ret (mkHealth unhealthy timestamp responseTime)).

(** Number of [?] placeholders in a statement. *)
Fixpoint placeholders (s : string) : nat :=
  match s with
  | EmptyString => 0
  | String c s' => (if Ascii.eqb c "?"%char then 1 else 0) + placeholders s'
  end.

(** A pool is up and the driver's next two replies are: a connection, then
    the failure [d] of the statement. *)
Definition statement_fails (d : JsError) (w : World) : Prop :=
  pool w <> None
  /\ exists rows fields rest, script w = Done rows fields :: Fail d :: rest.

Definition duplicate_key : JsError :=
  mkJsError "Error" "Duplicate entry 'a@x.com' for key 'users.email'" (JStr "ER_DUP_ENTRY").

Definition duplicate_world : World :=
  mkWorld (Some (mkPool 10 0 0)) [] None [Done (RowArray []) None; Fail duplicate_key] [] [].

Definition production_build : Config := mkConfig "production" "secret" 10.

(** A driver whose connection cannot be pinged. *)
Definition unreachable : World :=
  mkWorld None [] None [Done (RowArray []) None; Fail lost] [] [].

(** A driver that refuses to end the pool. *)
Definition stuck_world : World :=
  mkWorld (Some (mkPool 10 0 0)) [] None [Fail lost] [] [].

(** The probe of [checkConnection] goes through: there is a pool, and the
    driver fails neither the checkout nor the ping. *)
Definition probe_ok (w : World) : Prop :=
  pool w <> None
  /\ match script w with
     | Fail _ :: _ => False
     | _ :: Fail _ :: _ => False
     | _ => True
     end.

(** The driver fails the second call from now (the first succeeds). *)
Definition second_call_fails (w : World) : Prop :=
  exists rows fields d rest, script w = Done rows fields :: Fail d :: rest.

(** What the driver answers to its [n]-th call from now, counting from 0;
    an exhausted script answers with an empty result set. *)
Definition reply_at (n : nat) (w : World) : Reply :=
  nth n (script w) (Done (RowArray []) None).

(** An operation [simpleTransaction] refuses to build a statement for. *)
Definition malformed (operation : Operation) : Prop :=
  match op_type operation with
  | insert => op_data operation = None
  | update => op_data operation = None \/ op_conditions operation = None
  | delete => op_conditions operation = None
  end.

(** No [?] in the text. *)
Definition clean (s : string) : Prop := placeholders s = 0.

Definition clean_keys (o : option JsRecord) : Prop :=
  match o with
  | Some r => Forall clean (Object_keys r)
  | None => True
  end.

Definition promote_user : Operation :=
  mkOperation update "users" (Some [("role", JStr "admin"); ("is_active", JBool true)])
              (Some [("id", JNum 7)]).

Definition numeric_code_error : JsError := mkJsError "MongoServerError" "E11000 duplicate key" (JNum 11000).

Definition named_validation_error : JsError :=
  mkJsError "ValidationError" "" (JNum 11000).

Definition development_build : Config := mkConfig "development" "secret" 10.

(** * src/utils/common.utils.ts *)

(** The own property [key] is given the value [value]: the value of an
    existing key is replaced in place, a new key is added at the end.  This
    is what the object literal [{ ...o, key: value }] does for every key,
    and what the assignment [o[key] = value] does once it has been settled
    that it reaches an own property (see [put]). *)
Fixpoint assign (o : JsRecord) (key : string) (value : JsVal) : JsRecord :=
  match o with
  | [] => [(key, value)]
  | (k, v) :: o' =>
      if (k =? key)%string then (k, value) :: o' else (k, v) :: assign o' key value
  end.

(** An object made by the code with [{}]: its prototype, which is
    [Object.prototype] until it is detached, and its own properties in the
    order [Object.entries] lists them.  (The functions below create the
    properties in the order of the entries of their argument and leave
    array-index keys as they are, so that this is the order of creation.)
    An argument object is given by its entries. *)
Inductive Prototype : Type :=
| ObjectPrototype
| NoPrototype.

Record JsObject : Type := mkObject {
  prototype : Prototype;
  own : JsRecord
}.

(** [{}] *)
Definition empty_object : JsObject := mkObject ObjectPrototype [].

Definition hasOwnProperty (o : JsObject) (key : string) : bool :=
  existsb (String.eqb key) (Object_keys (own o)).

(** [o[key] = value] for a value of [JsVal], that is a primitive or
    [null].  An own property is overwritten, and any key but [__proto__]
    that the object does not own becomes a new own property.  The key
    [__proto__] is an accessor of [Object.prototype]: as long as the object
    inherits it, the assignment calls its setter, which detaches the
    prototype for [null], does nothing for any other primitive, and in
    neither case creates an own property; once the prototype is detached,
    [__proto__] is a key like any other. *)
Definition put (o : JsObject) (key : string) (value : JsVal) : JsObject :=
  if (key =? "__proto__")%string && negb (hasOwnProperty o key) then
    match prototype o with
    | ObjectPrototype =>
        match value with
        | JNull => mkObject NoPrototype (own o)
        | _ => o
        end
    | NoPrototype => mkObject NoPrototype (assign (own o) key value)
    end
  else mkObject (prototype o) (assign (own o) key value).

(** [value !== undefined && value !== null] *)
Definition is_present (v : JsVal) : bool :=
  match v with
  | JUndefined | JNull => false
  | _ => true
  end.

(** [sanitizeObject(obj)], for the entries [Object.entries(obj)] of its
    argument. *)
Definition sanitizeObject (obj : JsRecord) : JsObject :=
  fold_left
    (fun sanitized entry =>
       if is_present (snd entry) then put sanitized (fst entry) (snd entry)
       else sanitized)
    obj empty_object.

(** The character classes [A-Z] and [a-z], and the case change of one
    such letter. *)
Definition is_upper (c : ascii) : bool :=
  (65 <=? nat_of_ascii c)%nat && (nat_of_ascii c <=? 90)%nat.
Definition is_lower (c : ascii) : bool :=
  (97 <=? nat_of_ascii c)%nat && (nat_of_ascii c <=? 122)%nat.
Definition toLowerCase (c : ascii) : ascii :=
  if is_upper c then ascii_of_nat (nat_of_ascii c + 32) else c.
Definition toUpperCase (c : ascii) : ascii :=
  if is_lower c then ascii_of_nat (nat_of_ascii c - 32) else c.

(** [str.replace(/[A-Z]/g, letter => `_${letter.toLowerCase()}`)] *)
Fixpoint camelToSnake (str : string) : string :=
  match str with
  | EmptyString => EmptyString
  | String c rest =>
      if is_upper c
      then String "_" (String (toLowerCase c) (camelToSnake rest))
      else String c (camelToSnake rest)
  end.

(** [str.replace(/_([a-z])/g, (match, letter) => letter.toUpperCase())]:
    the matches are taken from left to right and do not overlap. *)
Fixpoint snakeToCamel (str : string) : string :=
  match str with
  | EmptyString => EmptyString
  | String c rest =>
      match rest with
      | String d rest' =>
          if Ascii.eqb c "_" && is_lower d
          then String (toUpperCase d) (snakeToCamel rest')
          else String c (snakeToCamel rest)
      | EmptyString => String c EmptyString
      end
  end.

(** [objectKeysToSnake(obj)] and [objectKeysToCamel(obj)], for the entries
    of their argument. *)
Definition objectKeysToSnake (obj : JsRecord) : JsObject :=
  fold_left (fun converted entry => put converted (camelToSnake (fst entry)) (snd entry))
            obj empty_object.
Definition objectKeysToCamel (obj : JsRecord) : JsObject :=
  fold_left (fun converted entry => put converted (snakeToCamel (fst entry)) (snd entry))
            obj empty_object.

(** The key [__proto__]; an entry [sanitizeObject] keeps; an entry whose
    key is not [_Proto__], the camel-case key that [camelToSnake] turns
    into [__proto__]. *)
Definition is_proto (key : string) : bool := (key =? "__proto__")%string.
Definition is_kept (entry : string * JsVal) : bool :=
  is_present (snd entry) && negb (is_proto (fst entry)).
Definition not_Proto (entry : string * JsVal) : bool :=
  negb (fst entry =? "_Proto__")%string.

(** The text holds an underscore followed by a lower-case letter. *)
Fixpoint has_snake (s : string) : bool :=
  match s with
  | EmptyString => false
  | String c rest =>
      match rest with
      | String d _ => (Ascii.eqb c "_" && is_lower d) || has_snake rest
      | EmptyString => false
      end
  end.

(** The text holds an upper-case letter. *)
Fixpoint has_upper (s : string) : bool :=
  match s with
  | EmptyString => false
  | String c rest => is_upper c || has_upper rest
  end.

(** [Number.isSafeInteger(z)]: an integer of magnitude below 2^53.  On
    these, and as long as the result is one of them, the sums and products
    of doubles are the sums and products of integers. *)
Definition isSafeInteger (z : Z) : bool := (Z.abs z <? 2 ^ 53)%Z.

Definition in_safe_range (z : Z) : Prop := (Z.abs z < 2 ^ 53)%Z.

(** A JavaScript number that comes out of arithmetic on safe integers. *)
Inductive JsNumber : Type :=
| Finite (z : Z)
| NegativeZero
| PlusInfinity
| MinusInfinity
| NaN.

(** [x * y] for safe integers whose product is one: the product is zero
    with a minus sign when one factor is zero and the other negative. *)
Definition times (x y : Z) : JsNumber :=
  if ((x =? 0)%Z && (y <? 0)%Z) || ((x <? 0)%Z && (y =? 0)%Z)
  then NegativeZero
  else Finite (x * y)%Z.

(** [Math.ceil(a / b)] for safe integers [a] and [b].  The rounded
    quotient of two such integers never reaches or crosses an integer the
    exact quotient does not reach, so the ceiling is that of the exact
    quotient; it is zero with a minus sign when the quotient is negative
    and above -1, or is itself zero with a minus sign. *)
Definition ceil_div (a b : Z) : JsNumber :=
  if (b =? 0)%Z then
    if (a =? 0)%Z then NaN else if (0 <? a)%Z then PlusInfinity else MinusInfinity
  else
    let c := (- ((- a) / b))%Z in
    if (c =? 0)%Z && (((a <? 0)%Z && (0 <? b)%Z) || ((0 <=? a)%Z && (b <? 0)%Z))
    then NegativeZero
    else Finite c.

(** [n < t] *)
Definition lt_number (n : Z) (t : JsNumber) : bool :=
  match t with
  | Finite z => (n <? z)%Z
  | NegativeZero => (n <? 0)%Z
  | PlusInfinity => true
  | MinusInfinity | NaN => false
  end.

Record PaginationOptions : Type := mkOptions {
  o_page : option Z;
  o_limit : option Z;
  o_maxLimit : option Z
}.

Record PaginationResult : Type := mkPagination {
  p_page : Z;
  p_limit : Z;
  p_offset : JsNumber;
  p_totalPages : JsNumber;
  p_hasNext : bool;
  p_hasPrevious : bool
}.

Definition default (d : Z) (x : option Z) : Z :=
  match x with
  | Some v => v
  | None => d
  end.

(** [calculatePagination(totalCount, options = {})] on safe integers: the
    count, the options that are given, and the product computed for
    [offset] are safe integers.  [None] stands for a call outside this
    range, where the doubles of the source round and which this
    development does not describe. *)
Definition calculatePagination (totalCount : Z) (options : PaginationOptions)
  : option PaginationResult :=
  let page := default 1 (o_page options) in
  let limit := default 10 (o_limit options) in
  let maxLimit := default 100 (o_maxLimit options) in
  let normalizedPage := Z.max 1 page in
  let normalizedLimit := Z.min (Z.max 1 limit) maxLimit in
  if isSafeInteger totalCount && isSafeInteger page && isSafeInteger limit
     && isSafeInteger maxLimit
     && isSafeInteger ((normalizedPage - 1) * normalizedLimit)
  then
    let offset := times (normalizedPage - 1) normalizedLimit in
    let totalPages := ceil_div totalCount normalizedLimit in
    Some (mkPagination normalizedPage normalizedLimit offset totalPages
            (lt_number normalizedPage totalPages) (1 <? normalizedPage)%Z)
  else None.

(** The [while] loop of [retry].  [left] counts the iterations the loop
    still has, so the attempt number is [maxAttempts - left + 1]; the
    result comes with the arguments of the [sleep] calls made, in order. *)
Fixpoint retry_loop {T} (fn : M T) (maxAttempts : nat) (delay : Z) (left : nat)
    (slept : list Z) (w : World) : Outcome T * World * list Z :=
  match left with
  | O =>
      (Throw (Plain (mkJsError "Error" "Max retry attempts reached" JUndefined)), w, slept)
  | S left' =>
      let attempt := maxAttempts - left' in
      match fn w with
      | (Ok t, w1) => (Ok t, w1, slept)
      | (Throw e, w1) =>
          if (attempt =? maxAttempts)%nat then (Throw e, w1, slept)
          else retry_loop fn maxAttempts delay left' (slept ++ [(delay * Z.of_nat attempt)%Z]) w1
      end
  end.

(** [retry(fn, maxAttempts = 3, delay = 1000)] for a whole number of
    attempts and a whole delay, both safe integers, as is the longest
    pause [delay * maxAttempts]: there the counter [attempt++] and the
    products [delay * attempt] are exact.  [None] stands for a call outside
    this range, which this development does not describe. *)
Definition retry {T} (fn : M T) (maxAttempts : nat) (delay : Z) (w : World)
  : option (Outcome T * World * list Z) :=
  if isSafeInteger (Z.of_nat maxAttempts) && isSafeInteger delay
     && isSafeInteger (delay * Z.of_nat maxAttempts)
  then Some (retry_loop fn maxAttempts delay maxAttempts [] w)
  else None.

(** The world after [k] attempts in a row that all threw; [None] when one
    of them returned. *)
Fixpoint after_failures {T} (fn : M T) (k : nat) (w : World) : option World :=
  match k with
  | O => Some w
  | S k' =>
      match fn w with
      | (Throw _, w1) => after_failures fn k' w1
      | (Ok _, _) => None
      end
  end.

(** The pauses before attempts 2, ..., k + 1. *)
Definition backoff (delay : Z) (k : nat) : list Z :=
  map (fun i => (delay * Z.of_nat i)%Z) (seq 1 k).

(** What [getClientIP] reads of a request. *)
Record Peer : Type := mkPeer {
  x_forwarded_for : option string;        (* req.headers["x-forwarded-for"] *)
  x_real_ip : option string;              (* req.headers["x-real-ip"] *)
  connection_remoteAddress : option string;
  socket_remoteAddress : option string;
  connection_socket_remoteAddress : option string
}.

(** [s.split(",")[0]] *)
Fixpoint before_comma (s : string) : string :=
  match s with
  | EmptyString => EmptyString
  | String c rest => if Ascii.eqb c "," then EmptyString else String c (before_comma rest)
  end.

(** [a || b] on optional strings: the empty string is falsy. *)
Definition or_else (a : option string) (b : option string) : option string :=
  match a with
  | Some s => if (s =? "")%string then b else a
  | None => b
  end.

(** [getClientIP(req)] *)
Definition getClientIP (req : Peer) : string :=
  match or_else (option_map before_comma (x_forwarded_for req))
          (or_else (x_real_ip req)
             (or_else (connection_remoteAddress req)
                (or_else (socket_remoteAddress req)
                   (or_else (connection_socket_remoteAddress req) (Some "unknown"))))) with
  | Some s => s
  | None => "unknown"
  end.

Definition sparse_profile : JsRecord :=
  [("firstName", JStr "Ada"); ("lastName", JNull); ("bio", JUndefined); ("age", JNum 36)].

Definition camel_profile : JsRecord :=
  [("firstName", JStr "Ada"); ("isActive", JBool true); ("email", JStr "a@x.com")].

(** A computation that fails twice, with two different errors, and then
    succeeds: it reads and sets the pool to tell the attempts apart. *)
Definition stubborn : M nat :=
  fun w =>
    match pool w with
    | None => (Throw (Plain lost), set_pool (Some (mkPool 1 0 0)) w)
    | Some p =>
        if (connectionLimit p =? 1)%nat
        then (Throw (Plain boom), set_pool (Some (mkPool 2 0 0)) w)
        else (Ok 7, w)
    end.

(** An object with a key that [camelToSnake] turns into [__proto__], and
    one that owns the key [__proto__] (as [JSON.parse] makes them). *)
Definition proto_profile : JsRecord :=
  [("firstName", JStr "Ada"); ("_Proto__", JNum 1); ("email", JStr "a@x.com")].

Definition polluted_profile : JsRecord :=
  [("firstName", JStr "Ada"); ("__proto__", JStr "x"); ("lastName", JNull)].

(** Page 3 with a limit well above the maximum. *)
Definition greedy_page : PaginationOptions := mkOptions (Some 3%Z) (Some 500%Z) None.

Definition proxied_peer : Peer :=
  mkPeer (Some "203.0.113.7, 10.0.0.1") None (Some "10.0.0.1") (Some "10.0.0.1") None.

(** * src/modules/user *)

(** A line feed, and a template literal written over several lines. *)
Definition nl : string := String (ascii_of_nat 10) EmptyString.
Definition lines (l : list string) : string := join nl l.

(** ** src/modules/user/user.query.ts *)

Module UserQuery.

Definition create_query : string :=
  lines
    ["";
     "      INSERT INTO users ( email, password, first_name, last_name, role, is_active, created_at, updated_at)";
     "      VALUES  ( ?, ?, ?, ?, ?, TRUE, NOW(), NOW())";
     "    "].

Definition findById_query : string :=
  lines
    ["";
     "      SELECT ";
     "        id,";
     "        email,";
     "        password,";
     "        first_name as firstName,";
     "        last_name as lastName,";
     "        role,";
     "        is_active as isActive,";
     "        created_at as createdAt,";
     "        updated_at as updatedAt";
     "      FROM users ";
     "      WHERE id = ?";
     "    "].

Definition findByEmail_query : string :=
  lines
    ["";
     "      SELECT ";
     "        id,";
     "        email,";
     "        password,";
     "        first_name as firstName,";
     "        last_name as lastName,";
     "        role,";
     "        is_active as isActive";
     "      FROM users ";
     "      WHERE email = ?";
     "    "].

(** [userData.role || 2] and the other parameters of the insert. *)
Definition create_params (userData : JsRecord) : list JsVal :=
  [prop userData "email"; prop userData "password"; prop userData "firstName";
   prop userData "lastName"; js_or (prop userData "role") (JNum 2)].

(** [result.insertId], where [result] is the first row of an array
    response and the response itself otherwise; reading it off
    [undefined] raises a [TypeError]. *)
Definition insertId_of (d : Rows) : Outcome JsVal :=
  match d with
  | RowArray (r :: _) => Ok (prop r "insertId")
  | RowArray [] =>
      Throw (Plain (mkJsError "TypeError"
                      "Cannot read properties of undefined (reading 'insertId')" JUndefined))
  | ResultHeader h =>
      Ok (match f_insertId h with
          | Some n => JNum n
          | None => JUndefined
          end)
  end.

(** [create(userData)] *)
Definition create (userData : JsRecord) : M JsVal :=
  response <- QueryExecutor.execute create_query (create_params userData) true ;;
  (fun w => (insertId_of (data response), w)).

(** [findById(id)] and [findByEmail(email)] *)
Definition findById (id : JsVal) : M (option Row) :=
  QueryExecutor.executeOne findById_query [id] true.
Definition findByEmail (email : JsVal) : M (option Row) :=
  QueryExecutor.executeOne findByEmail_query [email] true.

(** One block [if (updateData.x !== undefined) { fields.push(...);
    params.push(...) }] of [update], on the pair of arrays. *)
Definition push_defined (updateData : JsRecord) (key column : string)
    (arrays : list string * list JsVal) : list string * list JsVal :=
  if negb (js_eqb (prop updateData key) JUndefined)
  then (fst arrays ++ [column ^ " = ?"], snd arrays ++ [prop updateData key])
  else arrays.

(** The [fields] and [params] arrays after the five blocks. *)
Definition update_arrays (updateData : JsRecord) : list string * list JsVal :=
  push_defined updateData "isActive" "is_active"
    (push_defined updateData "role" "role"
       (push_defined updateData "lastName" "last_name"
          (push_defined updateData "firstName" "first_name"
             (push_defined updateData "email" "email" ([], []))))).

(** [update(id, updateData)] *)
Definition update (id : JsVal) (updateData : JsRecord) : M (option Row) :=
  let '(fields, params) := update_arrays updateData in
  if (length fields =? 0)%nat then findById id
  else
    let fields := fields ++ ["updated_at = NOW()"] in
    let params := params ++ [id] in
    let q := "UPDATE users SET " ^ join ", " fields ^ " WHERE id = ?" in
    QueryExecutor.execute q params true ;;
    findById id.

(** [delete(id)] *)
Definition delete_ (id : JsVal) : M bool :=
  result <- QueryExecutor.execute "DELETE FROM users WHERE id = ?" [id] true ;;
  ret (0 <? or_zero (affectedRows (meta result)))%Z.

(** [exists(email)] *)
Definition exists_ (email : JsVal) : M bool :=
  result <- QueryExecutor.execute "SELECT 1 FROM users WHERE email = ? LIMIT 1" [email] true ;;
  ret (QueryHelpers.has_rows (data result)).

End UserQuery.

(** ** src/modules/user/user.service.ts *)

(** [const { password, ...userWithoutPassword } = user] for a row. *)
Definition without_password (user : Row) : JsRecord :=
  filter (fun entry => negb (fst entry =? "password")%string) user.

(** The characters of a text as the entries ["0"], ["1"], ... of an
    object. *)
Fixpoint indexed (i : nat) (s : string) : JsRecord :=
  match s with
  | EmptyString => []
  | String c rest =>
      (NilEmpty.string_of_uint (Nat.to_uint i), JStr (String c EmptyString))
        :: indexed (S i) rest
  end.

(** The same destructuring when [user] is not an object: it raises a
    [TypeError] for [undefined] and [null], and collects the own enumerable
    properties of the wrapped primitive otherwise. *)
Definition rest_of_primitive (user : JsVal) : Outcome JsRecord :=
  match user with
  | JUndefined | JNull =>
      Throw (Plain (mkJsError "TypeError"
                      "Cannot destructure property 'password' of 'user' as it is undefined."
                      JUndefined))
  | JBool _ | JNum _ => Ok []
  | JStr s => Ok (indexed 0 s)
  end.

(** [LoginResponse] *)
Record LoginResponse : Type := mkLogin {
  l_user : JsRecord;
  l_token : string
}.

Definition lift {A} (o : Outcome A) : M A := fun w => (o, w).

(** The payload [login] signs: [{ id: user.id, email: user.email, role:
    user.role }]. *)
Definition token_payload (user : Row) : JsRecord :=
  [("id", prop user "id"); ("email", prop user "email"); ("role", prop user "role")].

Section UserService.

(** [bcrypt.hash(password, saltRounds)], [bcrypt.compare(password, hash)],
    [crypto.randomUUID()] and [jwt.sign(payload, secret, { expiresIn })],
    all external. *)
Variable bcrypt_hash : JsVal -> nat -> Outcome string.
Variable bcrypt_compare : JsVal -> JsVal -> Outcome bool.
Variable randomUUID : string.
Variable jwt_sign : JsRecord -> string -> string -> string.
Variable config : Config.
Variable JWT_EXPIRES_IN : string.

(** [hashPassword(password)] and [comparePassword(password, hash)] of
    common.utils.ts *)
Definition hashPassword (password : JsVal) : M string :=
  let saltRounds := 12 in
  lift (bcrypt_hash password saltRounds).
Definition comparePassword (password hash : JsVal) : M bool :=
  lift (bcrypt_compare password hash).

(** [generateToken(payload, expiresIn?)] of auth.middleware.ts *)
Definition generateToken (payload : JsRecord) (expiresIn : option string) : string :=
  jwt_sign payload (JWT_SECRET config)
    (match expiresIn with
     | Some e => if (e =? "")%string then JWT_EXPIRES_IN else e
     | None => JWT_EXPIRES_IN
     end).

(** [createUser(userData)] *)
Definition createUser (userData : JsRecord) : M JsRecord :=
  existingUser <- UserQuery.exists_ (prop userData "email") ;;
  if (existingUser : bool)
  then throw (App (AppError.conflict "User with this email already exists" None))
  else
    hashedPassword <- hashPassword (prop userData "password") ;;
    user <- UserQuery.create
              (assign (assign userData "id" (JStr randomUUID))
                      "password" (JStr hashedPassword)) ;;
    lift (rest_of_primitive user).

(** [getUserById(id)] *)
Definition getUserById (id : JsVal) : M JsRecord :=
  user <- UserQuery.findById id ;;
  match user with
  | None => throw (App (AppError.notFound "User not found" None))
  | Some user => ret (without_password user)
  end.

(** [updateUser(id, updateData)] *)
Definition updateUser (id : JsVal) (updateData : JsRecord) : M JsRecord :=
  existingUser <- UserQuery.findById id ;;
  match existingUser with
  | None => throw (App (AppError.notFound "User not found" None))
  | Some existingUser =>
      (if truthy (prop updateData "email")
          && negb (js_eqb (prop updateData "email") (prop existingUser "email"))
       then
         emailExists <- UserQuery.exists_ (prop updateData "email") ;;
         if (emailExists : bool)
         then throw (App (AppError.conflict "User with this email already exists" None))
         else ret tt
       else ret tt) ;;
      updatedUser <- UserQuery.update id updateData ;;
      match updatedUser with
      | None => throw (App (AppError.notFound "User not found" None))
      | Some updatedUser => ret (without_password updatedUser)
      end
  end.

(** [deleteUser(id)] *)
Definition deleteUser (id : JsVal) : M unit :=
  user <- UserQuery.findById id ;;
  match user with
  | None => throw (App (AppError.notFound "User not found" None))
  | Some _ =>
      deleted <- UserQuery.delete_ id ;;
      if (deleted : bool) then ret tt
      else throw (App (AppError.internal "Failed to delete user" None))
  end.

(** [login(loginData)]; the two [console.log] calls are left out. *)
Definition login (loginData : JsRecord) : M LoginResponse :=
  user <- UserQuery.findByEmail (prop loginData "email") ;;
  match user with
  | None => throw (App (AppError.unauthorized "Invalid email or password" None))
  | Some user =>
      if negb (truthy (prop user "isActive"))
      then throw (App (AppError.unauthorized "Account is deactivated" None))
      else
        isPasswordValid <- comparePassword (prop loginData "password") (prop user "password") ;;
        if negb isPasswordValid
        then throw (App (AppError.unauthorized "Invalid email or password" None))
        else
          let token := generateToken (token_payload user) None in
          ret (mkLogin (without_password user) token)
  end.

(** [changePassword(id, currentPassword, newPassword)] *)
Definition changePassword (id currentPassword newPassword : JsVal) : M unit :=
  user <- UserQuery.findById id ;;
  match user with
  | None => throw (App (AppError.notFound "User not found" None))
  | Some user =>
      isCurrentPasswordValid <- comparePassword currentPassword (prop user "password") ;;
      if negb isCurrentPasswordValid
      then throw (App (AppError.unauthorized "Current password is incorrect" None))
      else
        hashedNewPassword <- hashPassword newPassword ;;
        UserQuery.update id [("password", JStr hashedNewPassword)] ;;
        ret tt
  end.

End UserService.

(** ** src/routes/index.ts, the health endpoint *)

(** [formatResponse(data, message, pagination)] of common.utils.ts, with
    [timestamp] for [new Date().toISOString()]. *)
Record ApiResponse (T : Type) : Type := mkResponse {
  success : bool;
  message : option string;
  data_ : option T;
  pagination : option PaginationResult;
  timestamp : string
}.
Arguments mkResponse {T}.
Arguments success {T}.
Arguments message {T}.
Arguments data_ {T}.

Definition formatResponse {T} (d : option T) (message : option string)
    (pagination : option PaginationResult) (timestamp : string) : ApiResponse T :=
  mkResponse true message d pagination timestamp.

Record HealthData : Type := mkHealthData {
  hd_status : HealthStatus;
  hd_timestamp : string;
  hd_version : string;
  hd_environment : string;
  hd_uptime : Z;
  hd_database : Health
}.

(** The handler of [GET /health], wrapped by [asyncHandler]: the status
    and the body it sends, or the error it forwards.  [version],
    [environment] and [uptime] are read from the process. *)
Definition health_route (startTime endTime : Z) (timestamp version environment : string)
    (uptime : Z) : World -> (Outcome (Z * ApiResponse HealthData)) * World :=
  dbHealth <- healthCheck startTime endTime timestamp ;;
  match h_status dbHealth with
  | unhealthy =>
      ret (503%Z,
           formatResponse
             (Some (mkHealthData unhealthy timestamp version environment uptime dbHealth))
             (Some "Service partially unavailable") None timestamp)
  | healthy =>
      ret (200%Z,
           formatResponse
             (Some (mkHealthData healthy timestamp version environment uptime dbHealth))
             (Some "Service is healthy") None timestamp)
  end.

(** The object carries no password. *)
Definition no_password (u : JsRecord) : Prop :=
  prop u "password" = JUndefined /\ ~ In "password" (Object_keys u).

(** The driver hands out a connection and answers the next statement with
    [rows]. *)
Definition answers_with (rows : Rows) (w : World) : Prop :=
  pool w <> None
  /\ exists r0 f0 f1 rest, script w = Done r0 f0 :: Done rows f1 :: rest.

(** A statement that reads: one of the two lookups of a user. *)
Definition is_lookup (c : DriverCall) : Prop :=
  match c with
  | CGetConnection | CRelease => True
  | CExecute q _ => q = UserQuery.findById_query \/ q = UserQuery.findByEmail_query
  | _ => False
  end.

(** From [w] on, [m] asks the driver for nothing but lookups. *)
Definition only_looks_up {A} (m : M A) : Prop :=
  forall w, exists extra, calls (snd (m w)) = calls w ++ extra /\ Forall is_lookup extra.

(** The driver hands out connections and answers the lookup of a user with
    a row, then the DELETE with a result header and no field list. *)
Definition deletes_without_fields (w : World) : Prop :=
  pool w <> None /\ session w = None
  /\ exists r0 f0 row rows f1 r2 f2 r3 rest,
       script w = Done r0 f0 :: Done (RowArray (row :: rows)) f1
                  :: Done r2 f2 :: Done r3 None :: rest.

Definition stored_user : Row :=
  [("id", JStr "42"); ("email", JStr "a@x.com"); ("password", JStr "$2a$12$hash");
   ("firstName", JStr "Ada"); ("lastName", JStr "L"); ("role", JStr "admin");
   ("isActive", JNum 1)].

Definition header_reply : Reply :=
  Done (ResultHeader (mkFields (Some 1%Z) (Some 0%Z) None None None)) None.

Definition delete_world : World :=
  mkWorld (Some (mkPool 10 0 0)) [] None
    [Done (RowArray []) None; Done (RowArray [stored_user]) None;
     Done (RowArray []) None; header_reply] [] [].

Definition login_world : World :=
  mkWorld (Some (mkPool 10 0 0)) [] None
    [Done (RowArray []) None; Done (RowArray [stored_user]) None] [] [].

Definition sample_compare (password hash : JsVal) : Outcome bool :=
  Ok (js_eqb password (JStr "correct horse")).
Definition sample_hash (password : JsVal) (rounds : nat) : Outcome string := Ok "$2a$12$new".
Definition sample_sign (payload : JsRecord) (secret expiresIn : string) : string := "good".







(** * Properties *)

(** ** How computations touch the pool *)

Lemma keeps_pool_ret {A} (a : A) : keeps_pool (ret a).
Proof. intro w; reflexivity. Qed.

Lemma keeps_pool_throw {A} (e : Thrown) : keeps_pool (@throw A e).
Proof. intro w; reflexivity. Qed.

Lemma keeps_pool_bind {A B} (m : M A) (k : A -> M B) :
  keeps_pool m -> (forall a, keeps_pool (k a)) -> keeps_pool (bind m k).
Proof.
  intros Hm Hk w. unfold bind.
  specialize (Hm w). destruct (m w) as [[a | e] w1]; simpl in *.
  - rewrite Hk. exact Hm.
  - exact Hm.
Qed.

Lemma keeps_pool_try_catch {A} (m : M A) (h : Thrown -> M A) :
  keeps_pool m -> (forall e, keeps_pool (h e)) -> keeps_pool (try_catch m h).
Proof.
  intros Hm Hh w. unfold try_catch.
  specialize (Hm w). destruct (m w) as [[a | e] w1]; simpl in *.
  - exact Hm.
  - rewrite Hh. exact Hm.
Qed.

Lemma keeps_pool_log lv msg meta : keeps_pool (logger.log lv msg meta).
Proof. intro w; reflexivity. Qed.

Lemma keeps_pool_info msg meta : keeps_pool (logger.info msg meta).
Proof. apply keeps_pool_log. Qed.
Lemma keeps_pool_warn msg meta : keeps_pool (logger.warn msg meta).
Proof. apply keeps_pool_log. Qed.
Lemma keeps_pool_error msg meta : keeps_pool (logger.error msg meta).
Proof. apply keeps_pool_log. Qed.

Lemma keeps_pool_when b (m : M unit) : keeps_pool m -> keeps_pool (when b m).
Proof. destruct b; simpl; auto using keeps_pool_ret. Qed.

Lemma pool_next_reply w : pool (snd (next_reply w)) = pool w.
Proof. unfold next_reply. destruct (script w); reflexivity. Qed.

(** Every driver call of the shape "take the reply, throw or update
    something other than the pool". *)
Ltac driver_keeps_pool :=
  let w := fresh "w" in
  intro w; cbv beta delta [mysql.ping mysql.beginTransaction mysql.execute mysql.query
                             mysql.commit mysql.rollback mysql.end_ mysql.apply_stmt];
  match goal with
  | |- context [next_reply ?x] =>
      pose proof (pool_next_reply x) as Hp;
      destruct (next_reply x) as [[e | rows fields] w1]; simpl in *;
      try destruct (session w1); simpl; exact Hp
  end.

Lemma keeps_pool_ping c : keeps_pool (mysql.ping c).
Proof. driver_keeps_pool. Qed.
Lemma keeps_pool_begin c : keeps_pool (mysql.beginTransaction c).
Proof. driver_keeps_pool. Qed.
Lemma keeps_pool_execute c q ps : keeps_pool (mysql.execute c q ps).
Proof. driver_keeps_pool. Qed.
Lemma keeps_pool_commit c : keeps_pool (mysql.commit c).
Proof. driver_keeps_pool. Qed.
Lemma keeps_pool_rollback c : keeps_pool (mysql.rollback c).
Proof. driver_keeps_pool. Qed.

Create HintDb frame.
#[export] Hint Resolve keeps_pool_ret keeps_pool_throw keeps_pool_log keeps_pool_when
  keeps_pool_info keeps_pool_warn keeps_pool_error
  keeps_pool_ping keeps_pool_begin keeps_pool_execute keeps_pool_commit
  keeps_pool_rollback : frame.

Ltac frame := repeat (first
  [ apply keeps_pool_bind; [ | intro ]
  | apply keeps_pool_try_catch; [ | intro ]
  | apply keeps_pool_when
  | solve [ auto with frame ] ]).

Lemma keeps_pool_run_queries c queries lg : forall results,
  keeps_pool (TransactionHelper.run_queries c queries lg results).
Proof.
  induction queries as [| item rest IH]; intro results; simpl.
  - apply keeps_pool_ret.
  - frame.
Qed.

Lemma keeps_pool_perform {T} c (work : Work T) : keeps_pool (perform c work).
Proof.
  induction work as [t | e | q ps k IH]; simpl.
  - apply keeps_pool_ret.
  - apply keeps_pool_throw.
  - intro w. pose proof (keeps_pool_execute c q ps w) as Hq.
    destruct (mysql.execute c q ps w) as [r w1]; simpl in *.
    rewrite IH. exact Hq.
Qed.

#[export] Hint Resolve keeps_pool_run_queries keeps_pool_perform : frame.

Lemma keeps_pool_tx_try c queries lg :
  keeps_pool (TransactionHelper.executeTransaction_try c queries lg).
Proof. unfold TransactionHelper.executeTransaction_try. frame. Qed.

Lemma keeps_pool_tx_catch {A} c queries lg e :
  keeps_pool (@TransactionHelper.executeTransaction_catch A c queries lg e).
Proof. unfold TransactionHelper.executeTransaction_catch. frame. Qed.

Lemma keeps_pool_with_try {T} c (callback : PoolConnection -> Work T) lg :
  keeps_pool (TransactionHelper.withTransaction_try c callback lg).
Proof. unfold TransactionHelper.withTransaction_try. frame. Qed.

Lemma keeps_pool_with_catch {A} c lg e :
  keeps_pool (@TransactionHelper.withTransaction_catch A c lg e).
Proof. unfold TransactionHelper.withTransaction_catch. frame. Qed.

Lemma keeps_pool_execute_run c q ps lg : keeps_pool (QueryExecutor.execute_run c q ps lg).
Proof. unfold QueryExecutor.execute_run. frame. Qed.

Lemma keeps_pool_execute_catch q ps e : keeps_pool (QueryExecutor.execute_catch q ps e).
Proof. unfold QueryExecutor.execute_catch. frame. Qed.

(** ** Checkouts and checkins *)

Lemma settled_same w w' : pool w' = pool w -> settled w w'.
Proof.
  intro H. unfold settled, handedOut, handedBack, idle. rewrite H. split.
  - exists 0. lia.
  - reflexivity.
Qed.

Lemma settled_take_give w w' :
  pool w' = option_map give (option_map take (pool w)) -> settled w w'.
Proof.
  intro H. unfold settled, handedOut, handedBack, idle. rewrite H.
  destruct (pool w) as [p |]; unfold give, take, idleCount;
    cbn [option_map connectionLimit checkedOut checkedIn].
  - split.
    + exists 1. lia.
    + apply f_equal. lia.
  - split; [exists 0; lia | reflexivity].
Qed.

Lemma settled_trans w1 w2 w3 : settled w1 w2 -> settled w2 w3 -> settled w1 w3.
Proof.
  intros [[n [Ho Hb]] Hi] [[m [Ho' Hb']] Hi']. split.
  - exists (n + m). lia.
  - congruence.
Qed.

(** A checkout either throws and leaves the pool alone, or counts one
    connection out. *)
Lemma getConnection_pool w :
  match mysql.getConnection w with
  | (Throw _, w1) => pool w1 = pool w
  | (Ok _, w1) => pool w1 = option_map take (pool w)
  end.
Proof.
  unfold mysql.getConnection.
  pose proof (pool_next_reply (add_call CGetConnection w)) as Hp.
  destruct (next_reply (add_call CGetConnection w)) as [[e | rows fields] w1]; simpl in *.
  - exact Hp.
  - rewrite <- Hp. destruct (pool w1) eqn:E; simpl; [reflexivity | exact E].
Qed.

Lemma release_pool c w :
  mysql.release c w = (Ok tt, snd (mysql.release c w))
  /\ pool (snd (mysql.release c w)) = option_map give (pool w).
Proof.
  unfold mysql.release. cbn [add_call pool].
  destruct (pool w) eqn:E; simpl; split; try reflexivity. exact E.
Qed.

(** [try { body } finally { connection.release() }] counts one connection
    in, however [body] ends. *)
Lemma finally_release_pool {A} (body : M A) c w :
  keeps_pool body ->
  pool (snd (finally body (mysql.release c) w)) = option_map give (pool w).
Proof.
  intro Hb. unfold finally. specialize (Hb w).
  destruct (body w) as [r w1]; simpl in *.
  destruct (release_pool c w1) as [Hr Hp]. rewrite Hr. simpl. rewrite Hp, Hb. reflexivity.
Qed.

Lemma getPool_same w : snd (DatabaseConnection.getPool w) = w.
Proof. unfold DatabaseConnection.getPool. destruct (pool w); reflexivity. Qed.

(** The shape shared by the transaction modes: get the pool, check a
    connection out, run a guarded body, release in the finally block. *)
Lemma checkout_scope_leak_free {A} (body : PoolConnection -> M A) :
  (forall c, keeps_pool (body c)) ->
  leak_free (DatabaseConnection.getPool ;;
             connection <- mysql.getConnection ;;
             finally (body connection) (mysql.release connection)).
Proof.
  intros Hb w. unfold bind.
  pose proof (getPool_same w) as Hg.
  destruct (DatabaseConnection.getPool w) as [[[] | e] w0]; simpl in Hg; subst w0.
  - pose proof (getConnection_pool w) as Hc.
    destruct (mysql.getConnection w) as [[c | e] w1].
    + apply settled_take_give. rewrite finally_release_pool by apply Hb.
      rewrite Hc. reflexivity.
    + apply settled_same. exact Hc.
  - apply settled_same. reflexivity.
Qed.

Lemma execute_leak_free q ps lg : leak_free (QueryExecutor.execute q ps lg).
Proof.
  intro w. unfold QueryExecutor.execute, bind.
  pose proof (getPool_same w) as Hg.
  destruct (DatabaseConnection.getPool w) as [[[] | e] w0]; simpl in Hg; subst w0.
  - pose proof (getConnection_pool w) as Hc.
    destruct (mysql.getConnection w) as [[c | e] w1].
    + apply settled_take_give. rewrite finally_release_pool.
      * rewrite Hc. reflexivity.
      * apply keeps_pool_try_catch;
          [apply keeps_pool_execute_run | intro; apply keeps_pool_execute_catch].
    + apply settled_same. rewrite keeps_pool_execute_catch. exact Hc.
  - apply settled_same. rewrite keeps_pool_execute_catch. reflexivity.
Qed.

Lemma executeTransaction_leak_free queries lg :
  leak_free (TransactionHelper.executeTransaction queries lg).
Proof.
  apply (checkout_scope_leak_free
           (fun c => try_catch (TransactionHelper.executeTransaction_try c queries lg)
                               (TransactionHelper.executeTransaction_catch c queries lg))).
  intro c. apply keeps_pool_try_catch;
    [apply keeps_pool_tx_try | intro; apply keeps_pool_tx_catch].
Qed.

Lemma withTransaction_leak_free {T} (callback : PoolConnection -> Work T) lg :
  leak_free (TransactionHelper.withTransaction callback lg).
Proof.
  apply (checkout_scope_leak_free
           (fun c => try_catch (TransactionHelper.withTransaction_try c callback lg)
                               (TransactionHelper.withTransaction_catch c lg))).
  intro c. apply keeps_pool_try_catch;
    [apply keeps_pool_with_try | intro; apply keeps_pool_with_catch].
Qed.

Lemma simpleTransaction_leak_free operations lg :
  leak_free (TransactionHelper.simpleTransaction operations lg).
Proof.
  intro w. unfold TransactionHelper.simpleTransaction.
  destruct (TransactionHelper.build_queries operations []) as [queries | e].
  - apply executeTransaction_leak_free.
  - apply settled_same. reflexivity.
Qed.

(** C2. Release guarantee: whatever the driver answers and however the
    call ends (result or error), [QueryExecutor.execute] and the three
    transaction modes check in every connection they checked out, and the
    pool's idle count is back at its baseline. *)
Theorem release_guarantee :
  forall (T : Type) (q : string) (ps : list JsVal) (queries : list QueryItem)
         (callback : PoolConnection -> Work T) (operations : list Operation)
         (lg : bool) (w : World),
    settled w (snd (QueryExecutor.execute q ps lg w))
    /\ settled w (snd (TransactionHelper.executeTransaction queries lg w))
    /\ settled w (snd (TransactionHelper.withTransaction callback lg w))
    /\ settled w (snd (TransactionHelper.simpleTransaction operations lg w)).
Proof.
  intros. split; [ | split; [ | split ] ].
  - apply execute_leak_free.
  - apply executeTransaction_leak_free.
  - apply withTransaction_leak_free.
  - apply simpleTransaction_leak_free.
Qed.

(** ** Effects inside a transaction *)

Lemma pending_only_ret {A} (a : A) : pending_only (ret a).
Proof. intros w H; split; [reflexivity | exact H]. Qed.

Lemma pending_only_throw {A} (e : Thrown) : pending_only (@throw A e).
Proof. intros w H; split; [reflexivity | exact H]. Qed.

Lemma pending_only_bind {A B} (m : M A) (k : A -> M B) :
  pending_only m -> (forall a, pending_only (k a)) -> pending_only (bind m k).
Proof.
  intros Hm Hk w Hw. unfold bind.
  destruct (Hm w Hw) as [Hc Ht]. destruct (m w) as [[a | e] w1]; simpl in *.
  - destruct (Hk a w1 Ht) as [Hc' Ht']. split; [congruence | exact Ht'].
  - split; assumption.
Qed.

Lemma pending_only_log lv msg meta : pending_only (logger.log lv msg meta).
Proof. intros w H; split; [reflexivity | exact H]. Qed.

Lemma pending_only_info msg meta : pending_only (logger.info msg meta).
Proof. apply pending_only_log. Qed.

Lemma pending_only_when b (m : M unit) : pending_only m -> pending_only (when b m).
Proof. destruct b; simpl; auto using pending_only_ret. Qed.

Lemma next_reply_frame w :
  let w1 := snd (next_reply w) in
  committed w1 = committed w /\ session w1 = session w
  /\ logs w1 = logs w /\ calls w1 = calls w.
Proof. unfold next_reply. destruct (script w); simpl; auto. Qed.

Lemma pending_only_execute c q ps : pending_only (mysql.execute c q ps).
Proof.
  intros w Hw. unfold mysql.execute.
  destruct (next_reply_frame (add_call (CExecute q ps) w)) as (Hc & Hs & _).
  destruct (next_reply (add_call (CExecute q ps) w)) as [[e | rows fields] w1];
    simpl in *; unfold in_tx in *.
  - rewrite Hs. auto.
  - unfold mysql.apply_stmt. destruct (session w1) eqn:E; simpl.
    + split; [exact Hc | discriminate].
    + congruence.
Qed.

#[export] Hint Resolve pending_only_ret pending_only_throw pending_only_log pending_only_info
  pending_only_when pending_only_execute : frame.

Lemma pending_only_run_queries c queries lg : forall results,
  pending_only (TransactionHelper.run_queries c queries lg results).
Proof.
  induction queries as [| item rest IH]; intro results; simpl.
  - apply pending_only_ret.
  - repeat (apply pending_only_bind; [ | intro ]); auto with frame.
Qed.

Lemma pending_only_perform {T} c (work : Work T) : pending_only (perform c work).
Proof.
  induction work as [t | e | q ps k IH]; simpl.
  - apply pending_only_ret.
  - apply pending_only_throw.
  - intros w Hw. destruct (pending_only_execute c q ps w Hw) as [Hc Ht].
    destruct (mysql.execute c q ps w) as [r w1]; simpl in *.
    destruct (IH r w1 Ht) as [Hc' Ht']. split; [congruence | exact Ht'].
Qed.

(** [beginTransaction] throws and changes nothing visible, or opens a
    transaction. *)
Lemma beginTransaction_cases c w :
  match mysql.beginTransaction c w with
  | (Throw _, w1) => committed w1 = committed w
  | (Ok _, w1) => committed w1 = committed w /\ in_tx w1
  end.
Proof.
  unfold mysql.beginTransaction.
  destruct (next_reply_frame (add_call CBegin w)) as (Hc & _).
  destruct (next_reply (add_call CBegin w)) as [[e | rows fields] w1]; simpl in *.
  - exact Hc.
  - split; [exact Hc | discriminate].
Qed.

(** A [commit] that throws has made nothing visible. *)
Lemma commit_throw c w e w1 :
  mysql.commit c w = (Throw e, w1) -> committed w1 = committed w.
Proof.
  unfold mysql.commit.
  destruct (next_reply_frame (add_call CCommit w)) as (Hc & _).
  destruct (next_reply (add_call CCommit w)) as [[e' | rows fields] w2]; simpl in *.
  - intro H; inversion H; subst; exact Hc.
  - destruct (session w2); discriminate.
Qed.

(** The shape shared by the two try blocks: begin, log, run a body that
    only adds pending effects, commit, log, return.  If it throws, nothing
    it did is visible. *)
Lemma try_block_throw {A} (body : M A) c lg msg1 meta1 msg2 meta2 w err w1 :
  pending_only body ->
  (mysql.beginTransaction c ;;
   when lg (logger.info msg1 meta1) ;;
   result <- body ;;
   mysql.commit c ;;
   when lg (logger.info msg2 meta2) ;;
   ret result) w = (Throw err, w1) ->
  committed w1 = committed w.
Proof.
  intros Hb H. unfold bind at 1 in H.
  pose proof (beginTransaction_cases c w) as Hbegin.
  destruct (mysql.beginTransaction c w) as [[[] | e] wb].
  2: { inversion H; subst; exact Hbegin. }
  destruct Hbegin as [Hc Ht].
  unfold bind at 1 in H.
  destruct (pending_only_when lg _ (pending_only_info msg1 meta1) wb Ht) as [Hc1 Ht1].
  destruct (when lg (logger.info msg1 meta1) wb) as [[[] | e] wl]; simpl in Hc1, Ht1.
  2: { inversion H; subst; congruence. }
  unfold bind at 1 in H.
  destruct (Hb wl Ht1) as [Hc2 Ht2].
  destruct (body wl) as [[a | e] w2]; simpl in Hc2, Ht2.
  2: { inversion H; subst; congruence. }
  unfold bind at 1 in H.
  destruct (mysql.commit c w2) as [[[] | e] w3] eqn:Ecommit.
  - exfalso. destruct lg; simpl in H; discriminate H.
  - inversion H; subst. apply commit_throw in Ecommit. congruence.
Qed.

Lemma executeTransaction_try_throw c queries lg w err w1 :
  TransactionHelper.executeTransaction_try c queries lg w = (Throw err, w1) ->
  committed w1 = committed w.
Proof.
  unfold TransactionHelper.executeTransaction_try.
  apply try_block_throw. apply pending_only_run_queries.
Qed.

Lemma withTransaction_try_throw {T} c (callback : PoolConnection -> Work T) lg w err w1 :
  TransactionHelper.withTransaction_try c callback lg w = (Throw err, w1) ->
  committed w1 = committed w.
Proof.
  unfold TransactionHelper.withTransaction_try.
  apply try_block_throw. apply pending_only_perform.
Qed.

(** ** Failure of a transaction *)

Lemma getConnection_committed w c w0 :
  mysql.getConnection w = (Ok c, w0) -> committed w0 = committed w.
Proof.
  unfold mysql.getConnection.
  destruct (next_reply_frame (add_call CGetConnection w)) as (Hc & _).
  destruct (next_reply (add_call CGetConnection w)) as [[e | rows fields] w1]; simpl in *.
  - discriminate.
  - destruct (pool w1); intro H; inversion H; subst; exact Hc.
Qed.


(** The catch block followed by the release of the finally block. *)
Lemma executeTransaction_catch_release c queries lg err w1 :
  exists w',
    finally (@TransactionHelper.executeTransaction_catch (list QueryResult) c queries lg err)
            (mysql.release c) w1 = (Throw (TransactionFailed err), w')
    /\ committed w' = committed w1
    /\ aftermath lg "" [("queryCount", lnat (length queries))] err w1 w1 w'.
Proof.
  destruct w1 as [p cm ss sc lgs cl].
  destruct sc as [| [e2 | rows fields] rest]; destruct lg; destruct p;
    (eexists; split; [reflexivity | split; [reflexivity | ] ]);
    unfold aftermath; simpl; rewrite <- ?app_assoc; auto.
Qed.

Lemma withTransaction_catch_release {T} c lg err w1 :
  exists w',
    finally (@TransactionHelper.withTransaction_catch T c lg err)
            (mysql.release c) w1 = (Throw (TransactionFailed err), w')
    /\ committed w' = committed w1
    /\ aftermath lg " (callback mode)" [] err w1 w1 w'.
Proof.
  destruct w1 as [p cm ss sc lgs cl].
  destruct sc as [| [e2 | rows fields] rest]; destruct lg; destruct p;
    (eexists; split; [reflexivity | split; [reflexivity | ] ]);
    unfold aftermath; simpl; rewrite <- ?app_assoc; auto.
Qed.



(** ** All or nothing *)

Lemma when_info_runs lg msg meta w :
  exists w', when lg (logger.info msg meta) w = (Ok tt, w')
             /\ session w' = session w /\ committed w' = committed w.
Proof. destruct lg; eexists; repeat split. Qed.

Lemma execute_ok c q ps w r w' pending :
  mysql.execute c q ps w = (Ok r, w') ->
  session w = Some pending ->
  session w' = Some (pending ++ [(q, ps)]) /\ committed w' = committed w.
Proof.
  unfold mysql.execute.
  destruct (next_reply_frame (add_call (CExecute q ps) w)) as (Hc & Hs & _).
  destruct (next_reply (add_call (CExecute q ps) w)) as [[e | rows fields] w1]; simpl in *.
  - discriminate.
  - intros H Hp. inversion H; subst. unfold mysql.apply_stmt.
    rewrite Hs, Hp. simpl. split; [reflexivity | exact Hc].
Qed.

Lemma run_queries_ok c lg queries : forall results w rs w' pending,
  TransactionHelper.run_queries c queries lg results w = (Ok rs, w') ->
  session w = Some pending ->
  session w' = Some (pending ++ map stmt_of queries)
  /\ committed w' = committed w
  /\ length rs = length results + length queries.
Proof.
  induction queries as [| item rest IH]; intros results w rs w' pending H Hp.
  - simpl in H. inversion H; subst. rewrite app_nil_r. simpl. auto.
  - simpl in H. unfold bind at 1 in H.
    destruct (when_info_runs lg "Executing transaction query"
                [("query", lstr (q_query item));
                 ("params", LArr (params_or_empty (q_params item)))] w)
      as (wl & Hl & Hsl & Hcl).
    rewrite Hl in H. unfold bind at 1 in H.
    destruct (mysql.execute c (q_query item) (params_or_empty (q_params item)) wl)
      as [[r | e] w1] eqn:He; [ | discriminate H ].
    destruct (execute_ok _ _ _ _ _ _ pending He) as [Hs1 Hc1]; [congruence | ].
    destruct (IH _ _ _ _ _ H Hs1) as (Hs2 & Hc2 & Hlen).
    split; [ | split ].
    + rewrite Hs2, <- app_assoc. reflexivity.
    + congruence.
    + rewrite Hlen, length_app. simpl. lia.
Qed.

Lemma executeTransaction_try_ok c queries lg w rs w' :
  TransactionHelper.executeTransaction_try c queries lg w = (Ok rs, w') ->
  committed w' = committed w ++ map stmt_of queries
  /\ session w' = None /\ length rs = length queries.
Proof.
  unfold TransactionHelper.executeTransaction_try. intro H.
  unfold bind at 1 in H. unfold mysql.beginTransaction in H.
  destruct (next_reply_frame (add_call CBegin w)) as (Hc & _).
  destruct (next_reply (add_call CBegin w)) as [[e | rows fields] wb]; [discriminate H | ].
  simpl in Hc. unfold bind at 1 in H.
  destruct (when_info_runs lg "Transaction started" [("queryCount", lnat (length queries))]
              (set_session (Some []) wb)) as (wl & Hl & Hsl & Hcl).
  rewrite Hl in H. unfold bind at 1 in H.
  destruct (TransactionHelper.run_queries c queries lg [] wl) as [[results | e] w2] eqn:Hrun;
    [ | discriminate H ].
  destruct (run_queries_ok _ _ _ _ _ _ _ [] Hrun Hsl) as (Hs2 & Hc2 & Hlen).
  unfold bind at 1 in H. unfold mysql.commit in H.
  destruct (next_reply_frame (add_call CCommit w2)) as (Hc3 & Hs3 & _).
  destruct (next_reply (add_call CCommit w2)) as [[e | rows' fields'] w3]; [discriminate H | ].
  simpl in Hc3, Hs3, Hcl. rewrite Hs3, Hs2 in H.
  assert (Hcw : committed w3 = committed w) by congruence.
  destruct lg; simpl in H; inversion H; subst; simpl; rewrite Hcw;
    (split; [reflexivity | split; [reflexivity | exact Hlen] ]).
Qed.

(** X29. Atomicity of the declarative mode: whatever the driver answers, a call
    of [executeTransaction] either returns one result per statement with
    the effects of all its statements visible, in order, or throws with
    none of them visible. *)
Lemma executeTransaction_all_or_nothing queries lg w :
  match TransactionHelper.executeTransaction queries lg w with
  | (Ok results, w') =>
      committed w' = committed w ++ map stmt_of queries
      /\ length results = length queries
  | (Throw _, w') => committed w' = committed w
  end.
Proof.
  unfold TransactionHelper.executeTransaction, bind.
  pose proof (getPool_same w) as Hg.
  destruct (DatabaseConnection.getPool w) as [[[] | e] w0]; simpl in Hg; subst w0;
    [ | reflexivity ].
  destruct (mysql.getConnection w) as [[c | e] w0] eqn:Hconn.
  - pose proof (getConnection_committed _ _ _ Hconn) as Hc0.
    unfold finally, try_catch.
    destruct (TransactionHelper.executeTransaction_try c queries lg w0)
      as [[results | err] w1] eqn:Htry.
    + destruct (executeTransaction_try_ok _ _ _ _ _ _ Htry) as (Hc1 & _ & Hlen).
      destruct (release_pool c w1) as [Hr _]. rewrite Hr.
      split; [ | exact Hlen ]. rewrite <- Hc0, <- Hc1.
      unfold mysql.release. simpl. destruct (pool w1); reflexivity.
    + destruct (executeTransaction_catch_release c queries lg err w1) as (w' & Hrun & Hc & _).
      unfold finally in Hrun. 
      destruct (TransactionHelper.executeTransaction_catch c queries lg err w1) as [r1 w2].
      destruct (mysql.release c w2) as [[[] | e2] w3]; inversion Hrun; subst.
      * rewrite Hc, (executeTransaction_try_throw _ _ _ _ _ _ Htry). exact Hc0.
      * rewrite Hc, (executeTransaction_try_throw _ _ _ _ _ _ Htry). exact Hc0.
  - unfold mysql.getConnection in Hconn.
    destruct (next_reply_frame (add_call CGetConnection w)) as (Hc & _).
    destruct (next_reply (add_call CGetConnection w)) as [[e' | rows fields] w1]; simpl in *.
    + inversion Hconn; subst. exact Hc.
    + destruct (pool w1); discriminate.
Qed.

(** ** Checkout after shutdown *)






(** ** Conditions of Update and Delete *)

(** An Update or a Delete whose [conditions] are absent is rejected while
    the statements are being built: nothing reaches the driver. *)
Lemma absent_conditions_rejected operation :
  op_type operation <> insert ->
  op_conditions operation = None ->
  exists m, TransactionHelper.build_query operation = Throw (App (AppError.badRequest m None))
            /\ forall lg w,
                 TransactionHelper.simpleTransaction [operation] lg w
                 = (Throw (App (AppError.badRequest m None)), w).
Proof.
  intros Hty Hc. unfold TransactionHelper.simpleTransaction. simpl.
  unfold TransactionHelper.build_query. rewrite Hc.
  destruct (op_type operation); [congruence | | ].
  - eexists; split; [ | intros lg w ]; destruct (op_data operation); reflexivity.
  - eexists; split; [ | intros lg w ]; reflexivity.
Qed.

(** C7. [simpleTransaction] does not reject an Update or a Delete whose
    [conditions] object is present but empty: it builds the statement with
    nothing after WHERE and sends it to the driver inside a transaction. *)
Theorem empty_conditions_reach_the_driver :
  TransactionHelper.build_queries [delete_all_users] []
    = Ok [mkQuery "DELETE FROM users WHERE " (Some [])]
  /\ TransactionHelper.build_queries [update_all_users] []
    = Ok [mkQuery "UPDATE users SET role = ? WHERE " (Some [JNum 1])]
  /\ calls (snd (TransactionHelper.simpleTransaction [delete_all_users] true ready))
    = [CGetConnection; CBegin; CExecute "DELETE FROM users WHERE " []; CCommit; CRelease]
  /\ calls (snd (TransactionHelper.simpleTransaction [update_all_users] true ready))
    = [CGetConnection; CBegin; CExecute "UPDATE users SET role = ? WHERE " [JNum 1];
       CCommit; CRelease].
Proof. repeat split. Qed.

(** ** Validation *)

Lemma violations_length rs v :
  length (violations rs v)
  = length (filter (fun r : Rule => match r v with Some _ => true | None => false end) rs).
Proof.
  induction rs as [| r rs IH]; simpl; [reflexivity | ].
  destruct (r v); simpl; rewrite IH; reflexivity.
Qed.

Lemma check_source_spec s v acc :
  check_source s v acc = acc ++ declared_violations s v.
Proof.
  unfold check_source, declared_violations, Joi_validate.
  destruct s as [sch |]; [ | symmetry; apply app_nil_r ].
  destruct (violations (rules sch) v); [symmetry; apply app_nil_r | reflexivity].
Qed.

Lemma collect_errors_spec schema req :
  collect_errors schema req
  = declared_violations (s_body schema) (body req)
    ++ declared_violations (s_params schema) (params req)
    ++ declared_violations (s_query schema) (query req).
Proof.
  unfold collect_errors. rewrite !check_source_spec. simpl. rewrite app_assoc. reflexivity.
Qed.

(** C4. [validate] checks the body, the params and the query against their
    schemas without stopping at a violation: its error list is the
    messages of all violated rules of the three sources, in that order, one
    per violated rule; when the list is empty the request is passed on,
    otherwise the request fails with one validation error (status 422,
    message "Validation failed") whose context is [{ errors }] with the
    whole list. *)
Theorem validate_reports_every_violation :
  forall schema req,
    let errors :=
      declared_violations (s_body schema) (body req)
      ++ declared_violations (s_params schema) (params req)
      ++ declared_violations (s_query schema) (query req) in
    length errors
      = violated (s_body schema) (body req)
        + violated (s_params schema) (params req)
        + violated (s_query schema) (query req)
    /\ match errors with
       | [] => validate schema req = Next req
       | _ :: _ =>
           exists a,
             validate schema req = NextErr (App a)
             /\ a = AppError.make "Validation failed" ErrorType.VALIDATION_ERROR
                                  HttpStatusCode.UNPROCESSABLE_ENTITY true
                                  (Some (CtxErrors errors))
             /\ AppError.context a = Some (CtxErrors errors)
             /\ HttpStatusCode.value (AppError.statusCode a) = 422%Z
       end.
Proof.
  intros schema req errors. split.
  - subst errors. rewrite !length_app. unfold declared_violations, violated.
    destruct (s_body schema), (s_params schema), (s_query schema);
      rewrite ?violations_length; simpl; lia.
  - unfold validate, asyncHandler, validate_fn. rewrite collect_errors_spec.
    fold errors. destruct errors as [| m ms]; [reflexivity | ].
    eexists. split; [reflexivity | ]. repeat split.
Qed.

Example three_violations_three_messages :
  validate signup_schema poor_request
  = NextErr (App (AppError.make "Validation failed" ErrorType.VALIDATION_ERROR
       HttpStatusCode.UNPROCESSABLE_ENTITY true
       (Some (CtxErrors ["password is required"; "id is required"; "page is required"])))).
Proof. reflexivity. Qed.

(** ** Authentication *)

Lemma substring_whole t : String.substring 0 (String.length t) t = t.
Proof. induction t as [| a t IH]; simpl; [reflexivity | rewrite IH; reflexivity]. Qed.

Lemma bearer_startsWith token : startsWith ("Bearer " ^ token) "Bearer " = true.
Proof. unfold startsWith. simpl. destruct token; reflexivity. Qed.

Lemma bearer_substring token : substring_from 7 ("Bearer " ^ token) = token.
Proof.
  unfold substring_from. simpl. rewrite Nat.sub_0_r. apply substring_whole.
Qed.

(** C5. [authenticate]: without an Authorization header, or with one that
    does not start with "Bearer ", it fails with the missing-credential
    error; with a bearer token that the verifier rejects as expired, with
    the expired-credential error; with a token rejected for any other
    reason, with an invalid-credential error; every one of these is a 401
    authentication error.  With a token the verifier accepts, it passes on
    the request it was given with [req.user] set to the identity read from
    the claims: [email] and [role] as they are, and as [id] the claim [id]
    when that is truthy, the claim [userId] otherwise. *)
Theorem authenticate_outcomes :
  forall (jwt_verify : string -> string -> Verified) (config : Config) (req : Request),
    (authorization req = None -> authenticate jwt_verify config req = NextErr MissingCredential)
    /\ (forall h, authorization req = Some h -> startsWith h "Bearer " = false ->
          authenticate jwt_verify config req = NextErr MissingCredential)
    /\ (forall token, authorization req = Some ("Bearer " ^ token) ->
          match jwt_verify token (JWT_SECRET config) with
          | Rejected TokenExpiredError =>
              authenticate jwt_verify config req = NextErr ExpiredCredential
          | Rejected _ =>
              exists e, authenticate jwt_verify config req = NextErr e /\ InvalidCredential e
          | Decoded claims =>
              exists r identity,
                authenticate jwt_verify config req = Next r
                /\ user r = Some identity
                /\ r = mkRequest (authorization req) (body req) (params req) (query req)
                                 (originalUrl req) (method req) (Some identity)
                /\ identity = identity_of claims
                /\ u_id identity
                   = (if truthy (prop claims "id") then prop claims "id"
                      else prop claims "userId")
                /\ u_email identity = prop claims "email"
                /\ u_role identity = prop claims "role"
          end)
    /\ (forall e, authenticate jwt_verify config req = NextErr e ->
          exists a,
            e = App a
            /\ AppError.type a = ErrorType.AUTHENTICATION_ERROR
            /\ HttpStatusCode.value (AppError.statusCode a) = 401%Z).
Proof.
  intros jwt_verify config req. unfold authenticate, asyncHandler, authenticate_fn.
  split; [ | split; [ | split ] ].
  - intro H. rewrite H. reflexivity.
  - intros h H Hs. rewrite H, Hs. reflexivity.
  - intros token H. rewrite H, bearer_startsWith, bearer_substring.
    cbn [negb].
    destruct (jwt_verify token (JWT_SECRET config)) as [claims | [ | | ]].
    + exists (set_user (identity_of claims) req), (identity_of claims).
      unfold set_user. rewrite ?H. repeat split.
    + reflexivity.
    + eexists; split; [reflexivity | left; reflexivity].
    + eexists; split; [reflexivity | right; reflexivity].
  - intros e. destruct (authorization req) as [h | ].
    + destruct (startsWith h "Bearer "); cbn [negb].
      * destruct (jwt_verify (substring_from 7 h) (JWT_SECRET config)) as [claims | [ | | ]];
          intro H; inversion H; subst; eexists; repeat split.
      * intro H; inversion H; subst; eexists; repeat split.
    + intro H; inversion H; subst; eexists; repeat split.
Qed.

(** A token whose [id] claim is falsy does not keep it: with the claims
    [{ id: 0, userId: "u7", ... }] the identity's id is "u7". *)
Lemma falsy_id_claim_not_carried :
  exists r identity,
    authenticate zero_id_verify test_build (bearer_request "any") = Next r
    /\ user r = Some identity
    /\ prop zero_id_claims "id" = JNum 0
    /\ u_id identity = JStr "u7"
    /\ u_id identity <> prop zero_id_claims "id".
Proof.
  exists (set_user (identity_of zero_id_claims) (bearer_request "any")),
         (identity_of zero_id_claims).
  repeat split. discriminate.
Qed.

(** C10. [verifyToken] answers every rejection of the verifier, expired or
    not, with one and the same unauthorized error "Invalid token", and
    returns the decoded claims of a token the verifier accepts;
    [authenticate], given the same token as a bearer credential, answers an
    expired token with a different error than a token rejected for its
    signature or form. *)
Theorem verifyToken_collapses_failures :
  forall (jwt_verify : string -> string -> Verified) (config : Config) (token : string),
    match jwt_verify token (JWT_SECRET config) with
    | Decoded claims => verifyToken jwt_verify config token = Ok claims
    | Rejected _ =>
        verifyToken jwt_verify config token
        = Throw (App (AppError.unauthorized "Invalid token" None))
    end
    /\ (forall req, authorization req = Some ("Bearer " ^ token) ->
          (jwt_verify token (JWT_SECRET config) = Rejected TokenExpiredError ->
             authenticate jwt_verify config req
             = NextErr (App (AppError.unauthorized "Token has expired" None)))
          /\ (jwt_verify token (JWT_SECRET config) = Rejected JsonWebTokenError ->
                authenticate jwt_verify config req
                = NextErr (App (AppError.unauthorized "Invalid token" None))))
    /\ App (AppError.unauthorized "Token has expired" None)
       <> App (AppError.unauthorized "Invalid token" None).
Proof.
  intros jwt_verify config token. split; [ | split ].
  - unfold verifyToken. destruct (jwt_verify token (JWT_SECRET config)); reflexivity.
  - intros req H. unfold authenticate, asyncHandler, authenticate_fn.
    rewrite H, bearer_startsWith, bearer_substring. cbn [negb].
    split; intro Hv; rewrite Hv; reflexivity.
  - discriminate.
Qed.

(** ** Authorization *)

Lemma includes_among roles v : includes roles v = true <-> among v roles.
Proof.
  unfold includes, among. rewrite existsb_exists. split.
  - intros (r & Hin & Heq). exists r. split; [exact Hin | ].
    destruct v; simpl in Heq; try discriminate.
    apply String.eqb_eq in Heq. congruence.
  - intros (r & Hin & ->). exists r. split; [exact Hin | apply String.eqb_refl].
Qed.

(** Reading an absent role as the empty string changes nothing unless the
    empty string is itself a required role. *)
Lemma role_default roles v :
  (~ In "" roles \/ exists s, v = JStr s) ->
  (among (js_or v (JStr "")) roles <-> among v roles).
Proof.
  intros H. unfold js_or. destruct (truthy v) eqn:Et; [tauto | ].
  destruct H as [Hno | [s ->]].
  - split.
    + intros (r & Hin & Heq). inversion Heq; subst. contradiction.
    + intros (r & Hin & ->). simpl in Et.
      destruct (String.eqb_spec r ""); [subst; contradiction | discriminate].
  - simpl in Et. destruct (String.eqb_spec s ""); [subst; tauto | discriminate].
Qed.

(** C8. For an authenticated request, [authorize] fails with the
    insufficient-permission error (403) exactly when the required roles
    are not empty and the identity's role, read as the empty string when it
    is absent or otherwise falsy, is not among them; every other
    authenticated request is passed on unchanged, in particular every one
    when no role is required.  Where the role is a string, or the empty
    string is not a required role, this is the identity's role itself. *)
Theorem authorize_exactly :
  forall (roles : list string) (req : Request) (u : User),
    user req = Some u ->
    (authorize roles req = NextErr InsufficientPermission
       <-> roles <> []
           /\ ~ among (if truthy (u_role u) then u_role u else JStr "") roles)
    /\ (authorize roles req <> NextErr InsufficientPermission -> authorize roles req = Next req)
    /\ (roles = [] -> authorize roles req = Next req)
    /\ ((~ In "" roles \/ exists s, u_role u = JStr s) ->
          (authorize roles req = NextErr InsufficientPermission
             <-> roles <> [] /\ ~ among (u_role u) roles))
    /\ InsufficientPermission
       = App (AppError.make "Insufficient permissions" ErrorType.AUTHORIZATION_ERROR
                            HttpStatusCode.FORBIDDEN true None)
    /\ HttpStatusCode.value HttpStatusCode.FORBIDDEN = 403%Z.
Proof.
  intros roles req u Hu.
  assert (Hmain :
    (authorize roles req = NextErr InsufficientPermission
       <-> roles <> [] /\ ~ among (js_or (u_role u) (JStr "")) roles)
    /\ (authorize roles req <> NextErr InsufficientPermission -> authorize roles req = Next req)
    /\ (roles = [] -> authorize roles req = Next req)).
  { unfold authorize, asyncHandler, authorize_fn. rewrite Hu.
    pose proof (includes_among roles (js_or (u_role u) (JStr ""))) as Hi.
    destruct roles as [| r roles'].
    - simpl. split; [ | split ]; try reflexivity.
      split; [discriminate | intros [H _]; congruence].
    - cbn [length Nat.ltb Nat.leb andb].
      destruct (includes (r :: roles') (js_or (u_role u) (JStr ""))) eqn:Ei; cbn [negb].
      + split; [ | split ]; try reflexivity; try discriminate.
        split; [discriminate | ]. intros [_ Hn]. exfalso. apply Hn, Hi. reflexivity.
      + split; [ | split ]; try discriminate.
        * split; [ | reflexivity ]. intros _. split; [discriminate | ].
          intro Ha. apply Hi in Ha. discriminate.
        * intro H. exfalso. apply H. reflexivity. }
  destruct Hmain as (Hiff & Hother & Hempty).
  split; [exact Hiff | ]. split; [exact Hother | ]. split; [exact Hempty | ].
  split; [ | split; reflexivity ].
  intro Hrole. pose proof (role_default roles (u_role u) Hrole) as Hd.
  rewrite Hiff. split; intros [Hne Hn]; (split; [exact Hne | ]); intro Ha; apply Hn, Hd, Ha.
Qed.

(** An identity without role is authorized when the empty string is a
    required role, although its role is not among the required ones. *)
Lemma empty_role_name_admits_roleless_identity :
  user roleless_request = Some (mkUser (JStr "42") (JStr "a@x.com") JUndefined)
  /\ [""] <> []
  /\ ~ among JUndefined [""]
  /\ authorize [""] roleless_request = Next roleless_request
  /\ authorize [""] roleless_request <> NextErr InsufficientPermission.
Proof.
  split; [reflexivity | ]. split; [discriminate | ].
  split; [intros (r & _ & H); discriminate H | ].
  split; [reflexivity | discriminate].
Qed.

(** ** Error classification *)

Lemma unnamed_tests e :
  unnamed e ->
  (err_name e =? "ValidationError")%string = false
  /\ (err_name e =? "CastError")%string = false
  /\ (err_name e =? "JsonWebTokenError")%string = false
  /\ (err_name e =? "TokenExpiredError")%string = false.
Proof.
  intros (H1 & H2 & H3 & H4). repeat split; apply String.eqb_neq; assumption.
Qed.

Lemma classified_responds config now err req s ty msg ctx :
  classify config err = Some (s, ty, msg, ctx) ->
  responds config now err req (HttpStatusCode.value s) ty msg.
Proof.
  intro H. unfold responds, globalErrorHandler. rewrite H.
  eexists. split; [reflexivity | ]. simpl. repeat split.
Qed.

(** C3, as stated, fails: in a build that is not a development build
    (NODE_ENV "test") a driver error other than the duplicate-key one is
    answered with the driver's own message. *)
Lemma driver_message_not_redacted_in_test_build :
  NODE_ENV test_build <> "development"
  /\ responds test_build "2026-01-01T00:00:00.000Z" (Plain unknown_column) some_request
       500 ErrorType.DATABASE_ERROR "Unknown column 'nickname' in 'field list'"
  /\ ~ (forall config now e req,
          NODE_ENV config <> "development" ->
          unnamed e -> (exists c, err_code e = JStr c /\ startsWith c "ER_" = true
                                  /\ c <> "ER_DUP_ENTRY") ->
          responds config now (Plain e) req 500 ErrorType.DATABASE_ERROR
                   "Database error occurred").
Proof.
  split; [discriminate | ]. split.
  - unfold responds. eexists. split; [reflexivity | ]. simpl. repeat split.
  - intro H.
    destruct (H test_build "" unknown_column some_request) as (envelope & Hr & _ & Hm & _).
    + discriminate.
    + unfold unnamed; simpl; repeat split; discriminate.
    + exists "ER_BAD_FIELD_ERROR". repeat split. discriminate.
    + inversion Hr; subst. discriminate Hm.
Qed.

(** C3, amended. The handler classifies by priority.  An application error
    keeps its own type, status and message.  Otherwise the error's name
    decides first: a token error (malformed or expired) is answered 401
    Authentication.  For an error with none of the names the handler
    knows, the code decides: the duplicate-key code is answered 409
    Conflict; another code beginning with ER_ is answered 500 as a storage
    error, with the generic message in a production build and the driver's
    own message in every other build; an error whose code is absent, falsy
    or a string not beginning with ER_ is answered 500 Internal with the
    generic message.  In all these cases, and whenever the code is absent
    or a string, the handler answers with an envelope and raises
    nothing. *)
Theorem classification_by_priority :
  forall (config : Config) (now : string) (req : Request),
    (forall a,
        responds config now (App a) req
          (HttpStatusCode.value (AppError.statusCode a)) (AppError.type a) (AppError.message a))
    /\ (forall e, err_name e = "JsonWebTokenError" ->
          responds config now (Plain e) req 401 ErrorType.AUTHENTICATION_ERROR "Invalid token")
    /\ (forall e, err_name e = "TokenExpiredError" ->
          responds config now (Plain e) req 401 ErrorType.AUTHENTICATION_ERROR "Token expired")
    /\ (forall e, unnamed e -> err_code e = JStr "ER_DUP_ENTRY" ->
          responds config now (Plain e) req 409 ErrorType.DUPLICATE_ERROR
                   "Duplicate entry found")
    /\ (forall e c, unnamed e -> err_code e = JStr c -> c <> "ER_DUP_ENTRY" ->
          startsWith c "ER_" = true ->
          responds config now (Plain e) req 500 ErrorType.DATABASE_ERROR
                   (if (NODE_ENV config =? "production")%string
                    then "Database error occurred" else err_message e))
    /\ (forall e, unnamed e ->
          (truthy (err_code e) = false
           \/ exists c, err_code e = JStr c /\ startsWith c "ER_" = false) ->
          responds config now (Plain e) req 500 ErrorType.INTERNAL_SERVER_ERROR
                   "Something went wrong!")
    /\ (forall e, (err_code e = JUndefined \/ exists c, err_code e = JStr c) ->
          exists status envelope,
            globalErrorHandler config now (Plain e) req = Responded status envelope
            /\ status = HttpStatusCode.value (e_statusCode envelope)).
Proof.
  intros config now req.
  split; [ | split; [ | split; [ | split; [ | split; [ | split ] ] ] ] ].
  - intro a. eapply classified_responds. reflexivity.
  - intros e Hn.
    change 401%Z with (HttpStatusCode.value HttpStatusCode.UNAUTHORIZED).
    eapply classified_responds. unfold classify. rewrite Hn. reflexivity.
  - intros e Hn.
    change 401%Z with (HttpStatusCode.value HttpStatusCode.UNAUTHORIZED).
    eapply classified_responds. unfold classify. rewrite Hn. reflexivity.
  - intros e Hu Hc. destruct (unnamed_tests e Hu) as (H1 & H2 & H3 & H4).
    change 409%Z with (HttpStatusCode.value HttpStatusCode.CONFLICT).
    eapply classified_responds. unfold classify. rewrite H1, H2, H3, H4, Hc. reflexivity.
  - intros e c Hu Hc Hnd Hs. destruct (unnamed_tests e Hu) as (H1 & H2 & H3 & H4).
    change 500%Z with (HttpStatusCode.value HttpStatusCode.INTERNAL_SERVER_ERROR).
    eapply classified_responds. unfold classify. rewrite H1, H2, H3, H4, Hc.
    cbn [js_eqb]. apply String.eqb_neq in Hnd. rewrite Hnd.
    assert (Ht : truthy (JStr c) = true).
    { destruct c; [discriminate Hs | reflexivity]. }
    rewrite Ht, Hs. reflexivity.
  - intros e Hu Hc. destruct (unnamed_tests e Hu) as (H1 & H2 & H3 & H4).
    change 500%Z with (HttpStatusCode.value HttpStatusCode.INTERNAL_SERVER_ERROR).
    eapply classified_responds. unfold classify. rewrite H1, H2, H3, H4.
    destruct Hc as [Hf | (c & Hc & Hs)].
    + assert (Hd : js_eqb (err_code e) (JStr "ER_DUP_ENTRY") = false).
      { destruct (err_code e); try reflexivity. simpl in Hf.
        destruct (String.eqb_spec s ""); [subst; reflexivity | discriminate]. }
      rewrite Hd, Hf. reflexivity.
    + rewrite Hc. cbn [js_eqb].
      assert (Hd : (c =? "ER_DUP_ENTRY")%string = false).
      { apply String.eqb_neq. intros ->. discriminate Hs. }
      rewrite Hd, Hs. destruct (truthy (JStr c)); reflexivity.
  - intros e Hc. unfold globalErrorHandler.
    assert (Hsome : exists r, classify config (Plain e) = Some r).
    { unfold classify.
      repeat match goal with
             | |- context [if ?b then _ else _] => destruct b; [eexists; reflexivity | ]
             end.
      destruct Hc as [Hc | (c & Hc)]; rewrite Hc; simpl.
      - eexists; reflexivity.
      - destruct (negb (c =? "")%string); [ | eexists; reflexivity ].
        destruct (startsWith c "ER_"); eexists; reflexivity. }
    destruct Hsome as ([[[s ty] msg] ctx] & Hr). rewrite Hr.
    eexists. eexists. split; reflexivity.
Qed.

(** ** Many calls in a row *)

(** X30. Any sequence of succeeding and failing calls leaves the idle count at
    its baseline. *)
Lemma interleaved_calls_settle cs : forall w, settled w (after_calls cs w).
Proof.
  induction cs as [| c cs IH]; intro w; simpl.
  - apply settled_same. reflexivity.
  - apply settled_trans with (w2 := after_call c w); [ | apply IH ].
    destruct c; simpl.
    + apply execute_leak_free.
    + apply executeTransaction_leak_free.
    + apply withTransaction_leak_free.
    + apply simpleTransaction_leak_free.
Qed.

(** ** Concrete runs *)



Lemma authenticate_outcomes_witness :
  authorization (bearer_request "good") = Some ("Bearer " ^ "good")
  /\ authorization (bearer_request "old") = Some ("Bearer " ^ "old")
  /\ authorization some_request = None
  /\ (exists r,
        authenticate sample_verify test_build (bearer_request "good") = Next r
        /\ user r = Some (mkUser (JStr "42") (JStr "a@x.com") (JStr "admin")))
  /\ authenticate sample_verify test_build (bearer_request "old") = NextErr ExpiredCredential
  /\ authenticate sample_verify test_build some_request = NextErr MissingCredential.
Proof.
  split; [reflexivity | ]. split; [reflexivity | ]. split; [reflexivity | ].
  pose proof (proj1 (proj2 (proj2 (authenticate_outcomes sample_verify test_build
                              (bearer_request "good")))) "good" eq_refl) as Hgood.
  pose proof (proj1 (proj2 (proj2 (authenticate_outcomes sample_verify test_build
                              (bearer_request "old")))) "old" eq_refl) as Hold.
  pose proof (proj1 (authenticate_outcomes sample_verify test_build some_request) eq_refl)
    as Hnone.
  simpl in Hgood, Hold.
  split; [ | split; [exact Hold | exact Hnone] ].
  destruct Hgood as (r & identity & Ha & Hu & _ & Hid & _).
  exists r. split; [exact Ha | ]. rewrite Hu, Hid. reflexivity.
Defined.

Lemma verifyToken_collapses_failures_witness :
  authorization (bearer_request "old") = Some ("Bearer " ^ "old")
  /\ sample_verify "old" (JWT_SECRET test_build) = Rejected TokenExpiredError
  /\ verifyToken sample_verify test_build "old"
     = Throw (App (AppError.unauthorized "Invalid token" None))
  /\ authenticate sample_verify test_build (bearer_request "old")
     = NextErr (App (AppError.unauthorized "Token has expired" None)).
Proof.
  split; [reflexivity | ]. split; [reflexivity | ].
  pose proof (verifyToken_collapses_failures sample_verify test_build "old") as H.
  simpl in H. destruct H as (Hv & Ha & _).
  split; [exact Hv | ].
  exact (proj1 (Ha (bearer_request "old") eq_refl) eq_refl).
Defined.

Lemma authorize_exactly_witness :
  user user_request = Some (mkUser (JStr "42") (JStr "a@x.com") (JStr "user"))
  /\ (authorize ["admin"] user_request = NextErr InsufficientPermission
      <-> ["admin"] <> [] /\ ~ among (JStr "user") ["admin"])
  /\ authorize ["admin"] user_request = NextErr InsufficientPermission.
Proof.
  split; [reflexivity | ].
  pose proof (authorize_exactly ["admin"] user_request
                (mkUser (JStr "42") (JStr "a@x.com") (JStr "user")) eq_refl) as H.
  split; [exact (proj1 H) | reflexivity].
Defined.

Lemma classification_by_priority_witness :
  unnamed unknown_column
  /\ err_code unknown_column = JStr "ER_BAD_FIELD_ERROR"
  /\ startsWith "ER_BAD_FIELD_ERROR" "ER_" = true
  /\ responds test_build "2026-01-01T00:00:00.000Z" (Plain unknown_column) some_request
       500 ErrorType.DATABASE_ERROR (err_message unknown_column)
  /\ responds (mkConfig "production" "secret" 10) "2026-01-01T00:00:00.000Z"
       (Plain unknown_column) some_request
       500 ErrorType.DATABASE_ERROR "Database error occurred".
Proof.
  assert (Hu : unnamed unknown_column).
  { unfold unnamed; simpl; repeat split; discriminate. }
  assert (Hn : "ER_BAD_FIELD_ERROR" <> "ER_DUP_ENTRY") by discriminate.
  split; [exact Hu | ]. split; [reflexivity | ]. split; [reflexivity | ].
  split.
  - exact (proj1 (proj2 (proj2 (proj2 (proj2
             (classification_by_priority test_build "2026-01-01T00:00:00.000Z"
                some_request)))))
             unknown_column "ER_BAD_FIELD_ERROR" Hu eq_refl Hn eq_refl).
  - exact (proj1 (proj2 (proj2 (proj2 (proj2
             (classification_by_priority (mkConfig "production" "secret" 10)
                "2026-01-01T00:00:00.000Z" some_request)))))
             unknown_column "ER_BAD_FIELD_ERROR" Hu eq_refl Hn eq_refl).
Defined.

(** ** The other methods of the query executor *)

Lemma leak_free_ret {A} (a : A) : leak_free (ret a).
Proof. intro w. apply settled_same. reflexivity. Qed.

Lemma leak_free_bind {A B} (m : M A) (k : A -> M B) :
  leak_free m -> (forall a, leak_free (k a)) -> leak_free (bind m k).
Proof.
  intros Hm Hk w. unfold bind. specialize (Hm w).
  destruct (m w) as [[a | e] w1]; simpl in *.
  - apply settled_trans with (w2 := w1); [exact Hm | apply Hk].
  - exact Hm.
Qed.

Lemma executeMultiple_loop_leak_free queries lg : forall results,
  leak_free (QueryHelpers.executeMultiple_loop queries lg results).
Proof.
  induction queries as [| item rest IH]; intro results; simpl.
  - apply leak_free_ret.
  - apply leak_free_bind; [apply execute_leak_free | intro; apply IH].
Qed.

Lemma keeps_pool_query c q : keeps_pool (mysql.query c q).
Proof. driver_keeps_pool. Qed.

Lemma executeRaw_leak_free q lg : leak_free (QueryHelpers.executeRaw q lg).
Proof.
  assert (Hcatch : forall e, keeps_pool (QueryHelpers.executeRaw_catch q e)).
  { intro e. unfold QueryHelpers.executeRaw_catch. frame. }
  intro w. unfold QueryHelpers.executeRaw, bind.
  pose proof (getPool_same w) as Hg.
  destruct (DatabaseConnection.getPool w) as [[[] | e] w0]; simpl in Hg; subst w0.
  - pose proof (getConnection_pool w) as Hc.
    destruct (mysql.getConnection w) as [[c | e] w1].
    + apply settled_take_give. rewrite finally_release_pool.
      * rewrite Hc. reflexivity.
      * apply keeps_pool_try_catch; [ | exact Hcatch ].
        unfold QueryHelpers.executeRaw_run.
        repeat (apply keeps_pool_bind; [ | intro ]);
          auto using keeps_pool_query with frame.
    + apply settled_same. rewrite Hcatch. exact Hc.
  - apply settled_same. rewrite Hcatch. reflexivity.
Qed.

(** X1. The derived methods of the query executor ([executeOne],
    [executeMultiple], [executeRaw], [exists], [count]) check in every
    connection they check out, whatever the driver answers and however
    they end. *)
Theorem query_helpers_leak_free :
  forall (q table : string) (ps : list JsVal) (queries : list QueryItem)
         (conditions : JsRecord) (lg : bool) (w : World),
    settled w (snd (QueryExecutor.executeOne q ps lg w))
    /\ settled w (snd (QueryHelpers.executeMultiple queries lg w))
    /\ settled w (snd (QueryHelpers.executeRaw q lg w))
    /\ settled w (snd (QueryHelpers.exists_ table conditions w))
    /\ settled w (snd (QueryHelpers.count table conditions w)).
Proof.
  intros. split; [ | split; [ | split; [ | split ] ] ].
  - apply (leak_free_bind (QueryExecutor.execute q ps lg)).
    + apply execute_leak_free.
    + intro; apply leak_free_ret.
  - apply executeMultiple_loop_leak_free.
  - apply executeRaw_leak_free.
  - unfold QueryHelpers.exists_, QueryHelpers.exists_query.
    apply leak_free_bind; [apply execute_leak_free | intro; apply leak_free_ret].
  - unfold QueryHelpers.count.
    destruct (QueryHelpers.count_query table conditions) as [q' ps'].
    apply leak_free_bind; [apply execute_leak_free | intro; apply leak_free_ret].
Qed.

Lemma release_frame c w :
  exists w', mysql.release c w = (Ok tt, w')
             /\ committed w' = committed w /\ session w' = session w.
Proof.
  unfold mysql.release. destruct (pool (add_call CRelease w));
    eexists; repeat split.
Qed.

Ltac step_release :=
  match goal with
  | |- context [mysql.release ?c ?x] =>
      let wr := fresh "wr" in
      let Hr := fresh "Hr" in
      let Hcr := fresh "Hcr" in
      let Hsr := fresh "Hsr" in
      destruct (release_frame c x) as (wr & Hr & Hcr & Hsr); rewrite Hr
  end.

(** What [execute] does to storage when no transaction is open on the
    connection: a statement the driver accepted is visible at once, a
    failed call changes nothing. *)
Lemma execute_autocommit q ps lg w :
  session w = None ->
  match QueryExecutor.execute q ps lg w with
  | (Ok _, w') => committed w' = committed w ++ [(q, ps)] /\ session w' = None
  | (Throw _, w') => committed w' = committed w /\ session w' = None
  end.
Proof.
  intro Hs. unfold QueryExecutor.execute, bind.
  pose proof (getPool_same w) as Hg.
  destruct (DatabaseConnection.getPool w) as [[[] | e] w0]; simpl in Hg; subst w0;
    [ | simpl; auto ].
  unfold mysql.getConnection.
  destruct (next_reply_frame (add_call CGetConnection w)) as (Hc & Hss & _).
  destruct (next_reply (add_call CGetConnection w)) as [[e | rows fields] w1];
    simpl in Hc, Hss.
  { simpl. split; congruence. }
  assert (Hgen : forall c w2, committed w2 = committed w -> session w2 = None ->
            match finally (try_catch (QueryExecutor.execute_run c q ps lg)
                                     (QueryExecutor.execute_catch q ps))
                          (mysql.release c) w2 with
            | (Ok _, w') => committed w' = committed w ++ [(q, ps)] /\ session w' = None
            | (Throw _, w') => committed w' = committed w /\ session w' = None
            end).
  { intros c w2 Hc2 Hs2. unfold finally, try_catch, QueryExecutor.execute_run.
    unfold bind at 1.
    destruct (when_info_runs lg "Executing query" [("query", lstr q); ("params", LArr ps)] w2)
      as (wl & Hl & Hsl & Hcl).
    rewrite Hl. unfold bind at 1. unfold mysql.execute.
    destruct (next_reply_frame (add_call (CExecute q ps) wl)) as (Hc3 & Hs3 & _).
    destruct (next_reply (add_call (CExecute q ps) wl)) as [[e | rows' fields'] w3];
      simpl in Hc3, Hs3.
    - simpl. step_release. simpl in Hcr, Hsr. split; congruence.
    - unfold mysql.apply_stmt.
      assert (Hn : session w3 = None) by congruence. rewrite Hn.
      destruct lg; simpl; step_release; simpl in Hcr, Hsr;
        rewrite Hcr, Hsr, Hc3, Hcl, Hc2; auto. }
  destruct (pool w1); apply Hgen; simpl; congruence.
Qed.

Lemma executeMultiple_loop_steps lg queries : forall results w,
  session w = None ->
  match QueryHelpers.executeMultiple_loop queries lg results w with
  | (Ok rs, w') =>
      committed w' = committed w ++ map stmt_of queries
      /\ length rs = length results + length queries
  | (Throw e, w') =>
      exists done failing rest rs w1,
        queries = done ++ failing :: rest
        /\ QueryHelpers.executeMultiple_loop done lg results w = (Ok rs, w1)
        /\ QueryExecutor.execute (q_query failing) (params_or_empty (q_params failing)) lg w1
           = (Throw e, w')
        /\ committed w1 = committed w ++ map stmt_of done
        /\ committed w' = committed w1
  end.
Proof.
  induction queries as [| item rest IH]; intros results w Hs; simpl.
  - rewrite app_nil_r. auto.
  - unfold bind.
    pose proof (execute_autocommit (q_query item) (params_or_empty (q_params item)) lg w Hs)
      as Hx.
    destruct (QueryExecutor.execute (q_query item) (params_or_empty (q_params item)) lg w)
      as [[r | e] w1] eqn:Hex.
    + destruct Hx as [Hc1 Hs1]. specialize (IH (results ++ [r]) w1 Hs1).
      destruct (QueryHelpers.executeMultiple_loop rest lg (results ++ [r]) w1)
        as [[rs | e] w2].
      * destruct IH as [Hc2 Hlen]. split.
        -- rewrite Hc2, Hc1, <- app_assoc. reflexivity.
        -- rewrite Hlen, length_app. simpl. lia.
      * destruct IH as (done & failing & rest' & rs & w3 & Hq & Hdone & Hfail & Hc2 & Hc3).
        exists (item :: done), failing, rest', rs, w3.
        split; [rewrite Hq; reflexivity | ].
        split; [simpl; unfold bind; rewrite Hex; exact Hdone | ].
        split; [exact Hfail | ].
        split; [rewrite Hc2, Hc1, <- app_assoc; reflexivity | exact Hc3].
    + destruct Hx as [Hc1 _]. exists [], item, rest, results, w.
      split; [reflexivity | ]. split; [reflexivity | ].
      split; [exact Hex | ]. split; [simpl; rewrite app_nil_r; reflexivity | exact Hc1].
Qed.

(** X2. [executeMultiple] is not atomic.  Started with no transaction
    open, it either returns one result per statement with all statements
    applied, or it throws what [execute] threw for the first statement that
    fails: the statements before that one have run as a successful
    [executeMultiple] of their own and stay applied, the failing one and
    those after it are not applied. *)
Theorem executeMultiple_keeps_prefix :
  forall queries lg w,
    session w = None ->
    match QueryHelpers.executeMultiple queries lg w with
    | (Ok rs, w') =>
        committed w' = committed w ++ map stmt_of queries
        /\ length rs = length queries
    | (Throw e, w') =>
        exists done failing rest rs w1,
          queries = done ++ failing :: rest
          /\ QueryHelpers.executeMultiple done lg w = (Ok rs, w1)
          /\ QueryExecutor.execute (q_query failing) (params_or_empty (q_params failing)) lg w1
             = (Throw e, w')
          /\ committed w1 = committed w ++ map stmt_of done
          /\ committed w' = committed w1
    end.
Proof.
  intros queries lg w Hs. unfold QueryHelpers.executeMultiple.
  exact (executeMultiple_loop_steps lg queries [] w Hs).
Qed.

(** X3. What [execute] does, by the state of the pool and the driver's
    next two answers.  Without pool, with a failed checkout and with a
    failed statement it throws a 500 database error whose message is
    "Query execution failed: " followed by the message of what went wrong
    (the missing pool's, the checkout's, the statement's), having called
    the driver for nothing, for the checkout only, or for checkout,
    statement and release; storage is as it was.  When the driver accepts
    the statement, the result is the driver's rows with the metadata read
    from its field list, the connection has been released, and outside a
    transaction the statement is applied. *)
Theorem execute_wraps_every_failure :
  forall q ps lg w,
    let failed m :=
      App (AppError.make ("Query execution failed: " ^ m) ErrorType.DATABASE_ERROR
                         HttpStatusCode.INTERNAL_SERVER_ERROR true None) in
    let outcome := fst (QueryExecutor.execute q ps lg w) in
    let w' := snd (QueryExecutor.execute q ps lg w) in
    match pool w with
    | None =>
        outcome = Throw (failed "Database pool not initialized")
        /\ calls w' = calls w
        /\ committed w' = committed w
    | Some _ =>
        match reply_at 0 w with
        | Fail e =>
            outcome = Throw (failed (err_message e))
            /\ calls w' = calls w ++ [CGetConnection]
            /\ committed w' = committed w
        | Done _ _ =>
            calls w' = calls w ++ [CGetConnection; CExecute q ps; CRelease]
            /\ match reply_at 1 w with
               | Fail e =>
                   outcome = Throw (failed (err_message e))
                   /\ committed w' = committed w
               | Done rows fields =>
                   outcome = Ok (make_result rows fields)
                   /\ data (make_result rows fields) = rows
                   /\ affectedRows (meta (make_result rows fields))
                      = match fields with
                        | Some fs => f_affectedRows fs
                        | None => None
                        end
                   /\ fieldCount (meta (make_result rows fields))
                      = match fields with
                        | Some (mkFields _ _ _ (Some n) _) => n
                        | _ => 0%Z
                        end
                   /\ (session w = None -> committed w' = committed w ++ [(q, ps)])
               end
        end
    end.
Proof.
  intros q ps lg w failed outcome w'. subst outcome w'.
  destruct w as [p cm ss sc lgs cl]. unfold reply_at. cbn [script pool nth].
  destruct p as [p | ]; [ | repeat split ].
  destruct sc as [| [e | r0 f0] [| [e' | rows fields] rest]]; cbn [nth];
    try (destruct fields as [[? ? ? [? | ] ?] | ]);
    destruct lg, ss; cbn; repeat split;
    try (intro H; discriminate H);
    try (rewrite <- !app_assoc; reflexivity).
Qed.

(** X4. A statement the driver rejects inside [execute] reaches the client
    as a 500 database error whose message carries the driver's own message,
    in every build, production included, and whatever the driver's error
    code: a duplicate-key error raised by the statement is answered 500,
    not 409. *)
Theorem driver_failure_reaches_client :
  forall d q ps lg w config now req,
    statement_fails d w ->
    exists w',
      QueryExecutor.execute q ps lg w
      = (Throw (App (AppError.database ("Query execution failed: " ^ err_message d) None)), w')
      /\ responds config now
           (App (AppError.database ("Query execution failed: " ^ err_message d) None)) req
           500 ErrorType.DATABASE_ERROR ("Query execution failed: " ^ err_message d).
Proof.
  intros d q ps lg w config now req [Hp (rows & fields & rest & Hsc)].
  destruct w as [p cm ss sc lgs cl]. simpl in Hp, Hsc. subst sc.
  destruct p as [p |]; [ | congruence ].
  destruct lg; (eexists; split; [reflexivity | ]);
    change 500%Z with (HttpStatusCode.value HttpStatusCode.INTERNAL_SERVER_ERROR);
    eapply classified_responds; reflexivity.
Qed.

Lemma driver_failure_reaches_client_witness :
  statement_fails duplicate_key duplicate_world
  /\ responds production_build "2026-01-01T00:00:00.000Z"
       (App (AppError.database ("Query execution failed: " ^ err_message duplicate_key) None))
       some_request 500 ErrorType.DATABASE_ERROR
       ("Query execution failed: " ^ err_message duplicate_key).
Proof.
  assert (H : statement_fails duplicate_key duplicate_world).
  { split; [discriminate | ]. eexists; eexists; eexists; reflexivity. }
  split; [exact H | ].
  destruct (driver_failure_reaches_client duplicate_key
              "INSERT INTO users (email) VALUES (?)" [JStr "a@x.com"] true duplicate_world
              production_build "2026-01-01T00:00:00.000Z" some_request H) as (w' & _ & Hr).
  exact Hr.
Defined.

(** X5. [connect] either returns with a pool whose probe connection has
    been checked back in, or throws "Failed to connect to database"
    whatever went wrong; when what went wrong is the ping, the probe
    connection is left checked out of the new pool. *)
Theorem connect_outcomes :
  forall config w,
    match DatabaseConnection.connect config w with
    | (Ok _, w') => pool w' = Some (mkPool (DB_CONNECTION_LIMIT config) 1 1)
    | (Throw e, w') =>
        e = App (AppError.database "Failed to connect to database" None)
        /\ exists out,
             pool w' = Some (mkPool (DB_CONNECTION_LIMIT config) out 0)
             /\ (out = 1 <-> second_call_fails w)
    end.
Proof.
  intros config w. destruct w as [p cm ss sc lgs cl].
  unfold second_call_fails.
  destruct sc as [| [e1 | rows1 fields1] [| [e2 | rows2 fields2] rest]]; simpl;
    try reflexivity;
    (split; [reflexivity | ]).
  - exists 0. split; [reflexivity | ]. split; [discriminate | ].
    intros (r & f & d & t & H). discriminate H.
  - exists 0. split; [reflexivity | ]. split; [discriminate | ].
    intros (r & f & d & t & H). discriminate H.
  - exists 0. split; [reflexivity | ]. split; [discriminate | ].
    intros (r & f & d & t & H). discriminate H.
  - exists 1. split; [reflexivity | ]. split; [ | reflexivity ].
    intros _. eexists; eexists; eexists; eexists; reflexivity.
Qed.

Lemma healthCheck_runs :
  forall startTime endTime timestamp w,
    exists h w',
      healthCheck startTime endTime timestamp w = (Ok h, w')
      /\ h_responseTime h = (endTime - startTime)%Z
      /\ h_timestamp h = timestamp
      /\ (h_status h = healthy <-> probe_ok w)
      /\ (pool w = None -> calls w' = calls w).
Proof.
  intros startTime endTime timestamp w. destruct w as [p cm ss sc lgs cl].
  unfold probe_ok. destruct p as [p |].
  - destruct sc as [| [e1 | rows1 fields1] [| [e2 | rows2 fields2] rest]];
      (eexists; eexists; split; [reflexivity | ]); simpl;
      (split; [reflexivity | split; [reflexivity | split; [ | discriminate ] ] ]);
      try (split; [intros _; split; [discriminate | exact I] | reflexivity]);
      (split; [discriminate | intros [_ []] ]).
  - eexists; eexists; split; [reflexivity | ]. simpl.
    split; [reflexivity | split; [reflexivity | split; [ | reflexivity ] ] ].
    split; [discriminate | intros [H _]; congruence ].
Qed.

(** X6. [healthCheck] never throws.  It reports healthy exactly when there
    is a pool and the driver fails neither the checkout nor the ping; with
    no pool it asks the driver for nothing.  The response time is the
    difference of its two clock readings. *)
Theorem healthCheck_never_throws :
  forall startTime endTime timestamp w,
    exists h w',
      healthCheck startTime endTime timestamp w = (Ok h, w')
      /\ h_responseTime h = (endTime - startTime)%Z
      /\ h_timestamp h = timestamp
      /\ (h_status h = healthy <-> probe_ok w)
      /\ (pool w = None -> calls w' = calls w).
Proof. exact healthCheck_runs. Qed.

(** X7. [close] either returns with the pool gone, or throws "Failed to
    close database connection" and keeps the pool it had; with no pool it
    returns at once, so closing twice is harmless. *)
Theorem close_outcomes :
  forall w,
    match DatabaseConnection.close w with
    | (Ok _, w') => pool w' = None
    | (Throw e, w') =>
        e = App (AppError.database "Failed to close database connection" None)
        /\ pool w' = pool w /\ pool w <> None
    end
    /\ (pool w = None -> DatabaseConnection.close w = (Ok tt, w)).
Proof.
  intro w. destruct w as [p cm ss sc lgs cl]. destruct p as [p |]; simpl.
  - split; [ | discriminate ].
    destruct sc as [| [e | rows fields] rest]; simpl; try reflexivity.
    split; [reflexivity | split; [reflexivity | discriminate] ].
  - split; [reflexivity | reflexivity].
Qed.

Lemma commit_session c w w' :
  mysql.commit c w = (Ok tt, w') -> session w' = None.
Proof.
  unfold mysql.commit.
  destruct (next_reply (add_call CCommit w)) as [[e | rows fields] w1]; [discriminate | ].
  destruct (session w1) eqn:Es; intro H; inversion H; subst; [reflexivity | exact Es].
Qed.

Lemma withTransaction_try_ok {T} c (callback : PoolConnection -> Work T) lg w t w' :
  TransactionHelper.withTransaction_try c callback lg w = (Ok t, w') -> session w' = None.
Proof.
  unfold TransactionHelper.withTransaction_try. intro H.
  unfold bind at 1 in H.
  destruct (mysql.beginTransaction c w) as [[[] | e] wb]; [ | discriminate H ].
  unfold bind at 1 in H.
  destruct (when_info_runs lg "Transaction started (callback mode)" [] wb)
    as (wl & Hl & _). rewrite Hl in H.
  unfold bind at 1 in H.
  destruct (perform c (callback c) wl) as [[r | e] w2]; [ | discriminate H ].
  unfold bind at 1 in H.
  destruct (mysql.commit c w2) as [[[] | e] w3] eqn:Hcommit; [ | discriminate H ].
  apply commit_session in Hcommit.
  destruct lg; simpl in H; inversion H; subst; exact Hcommit.
Qed.

(** X8. [withTransaction], whatever the callback does and the driver
    answers: when it throws, for whatever reason, nothing that was done is
    visible in storage; when it returns, no transaction is
    left open on the connection. *)
Theorem withTransaction_commits_or_leaves_nothing :
  forall (T : Type) (callback : PoolConnection -> Work T) lg w,
    match TransactionHelper.withTransaction callback lg w with
    | (Ok _, w') => session w' = None
    | (Throw _, w') => committed w' = committed w
    end.
Proof.
  intros T callback lg w.
  unfold TransactionHelper.withTransaction, bind.
  pose proof (getPool_same w) as Hg.
  destruct (DatabaseConnection.getPool w) as [[[] | e] w0]; simpl in Hg; subst w0;
    [ | reflexivity ].
  destruct (mysql.getConnection w) as [[c | e] w0] eqn:Hconn.
  - pose proof (getConnection_committed _ _ _ Hconn) as Hc0.
    unfold finally, try_catch.
    destruct (TransactionHelper.withTransaction_try c callback lg w0)
      as [[t | err] w1] eqn:Htry.
    + apply withTransaction_try_ok in Htry.
      step_release. congruence.
    + destruct (@withTransaction_catch_release T c lg err w1) as (w' & Hrun & Hc & _).
      unfold finally in Hrun.
      destruct (TransactionHelper.withTransaction_catch c lg err w1) as [r1 w2].
      destruct (mysql.release c w2) as [[[] | e2] w3]; inversion Hrun; subst;
        rewrite Hc, (withTransaction_try_throw _ _ _ _ _ _ Htry); exact Hc0.
  - unfold mysql.getConnection in Hconn.
    destruct (next_reply_frame (add_call CGetConnection w)) as (Hc & _).
    destruct (next_reply (add_call CGetConnection w)) as [[e' | rows fields] w1]; simpl in *.
    + inversion Hconn; subst. exact Hc.
    + destruct (pool w1); discriminate.
Qed.

(** ** Building the statements of [simpleTransaction] *)

Lemma build_query_malformed operation :
  match TransactionHelper.build_query operation with
  | Ok _ => ~ malformed operation
  | Throw e => malformed operation /\ exists m, e = App (AppError.badRequest m None)
  end.
Proof.
  unfold TransactionHelper.build_query, malformed.
  destruct (op_type operation); destruct (op_data operation);
    destruct (op_conditions operation); simpl;
    try (solve [intuition discriminate]);
    (split; [auto | eexists; reflexivity]).
Qed.

Lemma build_queries_spec operations : forall acc,
  match TransactionHelper.build_queries operations acc with
  | Ok qs => length qs = length acc + length operations /\ Forall (fun o => ~ malformed o) operations
  | Throw e => Exists malformed operations /\ exists m, e = App (AppError.badRequest m None)
  end.
Proof.
  induction operations as [| o rest IH]; intro acc; simpl.
  - split; [lia | constructor].
  - pose proof (build_query_malformed o) as Ho.
    destruct (TransactionHelper.build_query o) as [item | e].
    + specialize (IH (acc ++ [item])).
      destruct (TransactionHelper.build_queries rest (acc ++ [item])) as [qs | e].
      * destruct IH as [Hlen Hall]. split.
        -- rewrite Hlen, length_app. simpl. lia.
        -- constructor; assumption.
      * destruct IH as [Hex Hm]. split; [apply Exists_cons_tl; exact Hex | exact Hm].
    + destruct Ho as [Hmal Hm]. split; [apply Exists_cons_hd; exact Hmal | exact Hm].
Qed.

(** X9. [simpleTransaction] builds all its statements before it touches
    the driver: when any operation of the batch is malformed (an Insert
    without data, an Update without data or conditions, a Delete without
    conditions) the call throws a bad-request error and leaves the world as
    it was, however many well-formed operations precede the malformed one;
    a batch without malformed operation gives one statement per
    operation. *)
Theorem simpleTransaction_validates_first :
  forall operations lg w,
    (Exists malformed operations ->
       exists m, TransactionHelper.simpleTransaction operations lg w
                 = (Throw (App (AppError.badRequest m None)), w))
    /\ (Forall (fun o => ~ malformed o) operations ->
          exists queries,
            TransactionHelper.build_queries operations [] = Ok queries
            /\ length queries = length operations
            /\ TransactionHelper.simpleTransaction operations lg w
               = TransactionHelper.executeTransaction queries lg w).
Proof.
  intros operations lg w. unfold TransactionHelper.simpleTransaction.
  pose proof (build_queries_spec operations []) as H.
  destruct (TransactionHelper.build_queries operations []) as [qs | e].
  - destruct H as [Hlen Hall]. split.
    + intro Hex. exfalso. apply Exists_exists in Hex. destruct Hex as (o & Hin & Hmal).
      rewrite Forall_forall in Hall. exact (Hall o Hin Hmal).
    + intros _. exists qs. split; [reflexivity | split; [exact Hlen | reflexivity] ].
  - destruct H as [Hex (m & ->)]. split.
    + intros _. exists m. reflexivity.
    + intro Hall. exfalso. apply Exists_exists in Hex. destruct Hex as (o & Hin & Hmal).
      rewrite Forall_forall in Hall. exact (Hall o Hin Hmal).
Qed.

Lemma simpleTransaction_validates_first_witness :
  Exists malformed [promote_user; mkOperation delete "users" None None]
  /\ exists m, TransactionHelper.simpleTransaction
                 [promote_user; mkOperation delete "users" None None] true ready
               = (Throw (App (AppError.badRequest m None)), ready).
Proof.
  assert (H : Exists malformed [promote_user; mkOperation delete "users" None None]).
  { apply Exists_cons_tl, Exists_cons_hd. reflexivity. }
  split; [exact H | ].
  exact (proj1 (simpleTransaction_validates_first
                  [promote_user; mkOperation delete "users" None None] true ready) H).
Defined.

Lemma placeholders_app a b : placeholders (a ^ b) = placeholders a + placeholders b.
Proof. induction a as [| c a IH]; simpl; [reflexivity | rewrite IH; lia]. Qed.

Lemma placeholders_join sep l :
  clean sep -> placeholders (join sep l) = list_sum (map placeholders l).
Proof.
  intro Hs. unfold join. induction l as [| x l IH]; simpl; [reflexivity | ].
  destruct l as [| y l'].
  - simpl. lia.
  - rewrite !placeholders_app, Hs, IH. simpl. lia.
Qed.

Lemma placeholders_assignments keys :
  Forall clean keys ->
  list_sum (map placeholders (map (fun field => field ^ " = ?") keys)) = length keys.
Proof.
  induction 1 as [| k keys Hk _ IH]; simpl; [reflexivity | ].
  rewrite placeholders_app, Hk, IH. reflexivity.
Qed.

Lemma placeholders_marks {A} (keys : list A) :
  list_sum (map placeholders (map (fun _ => "?") keys)) = length keys.
Proof. induction keys as [| k keys IH]; simpl; [reflexivity | rewrite IH; reflexivity]. Qed.

Lemma placeholders_keys keys :
  Forall clean keys -> list_sum (map placeholders keys) = 0.
Proof. induction 1 as [| k keys Hk _ IH]; simpl; [reflexivity | rewrite Hk, IH; reflexivity]. Qed.

Lemma placeholders_whereClause conditions :
  Forall clean (Object_keys conditions) ->
  placeholders (QueryHelpers.whereClause conditions) = length (Object_values conditions).
Proof.
  intro H. unfold QueryHelpers.whereClause.
  rewrite placeholders_join by reflexivity.
  rewrite placeholders_assignments by exact H.
  unfold Object_keys, Object_values. rewrite !length_map. reflexivity.
Qed.

Lemma placeholders_cons c s :
  placeholders (String c s) = (if Ascii.eqb c "?"%char then 1 else 0) + placeholders s.
Proof. reflexivity. Qed.

Ltac count_placeholders :=
  repeat (rewrite placeholders_cons
          || rewrite placeholders_app
          || (rewrite placeholders_join by reflexivity)).

(** X10. Placeholders and parameters agree.  When neither the table name
    nor a field name contains a question mark, every statement built by
    [simpleTransaction] for an operation, and the statements built by
    [exists] and [count], have exactly as many [?] placeholders as
    parameters are passed with them. *)
Theorem placeholders_match_parameters :
  forall operation table conditions,
    clean (op_table operation) ->
    clean_keys (op_data operation) ->
    clean_keys (op_conditions operation) ->
    clean table ->
    Forall clean (Object_keys conditions) ->
    (forall item, TransactionHelper.build_query operation = Ok item ->
       placeholders (q_query item) = length (params_or_empty (q_params item)))
    /\ placeholders (fst (QueryHelpers.exists_query table conditions))
       = length (snd (QueryHelpers.exists_query table conditions))
    /\ placeholders (fst (QueryHelpers.count_query table conditions))
       = length (snd (QueryHelpers.count_query table conditions)).
Proof.
  intros operation table conditions Ht Hd Hc Htable Hconds.
  unfold clean in Ht, Htable.
  split; [ | split ].
  - intros item. unfold TransactionHelper.build_query.
    destruct (op_type operation).
    + destruct (op_data operation) as [dt |]; [ | discriminate ].
      intro H; injection H as <-.
      cbn [q_query q_params params_or_empty clean_keys] in Hd |- *.
      count_placeholders.
      rewrite Ht, placeholders_marks, (placeholders_keys _ Hd).
      unfold Object_keys, Object_values. rewrite !length_map. simpl. lia.
    + destruct (op_data operation) as [dt |]; [ | discriminate ].
      destruct (op_conditions operation) as [cs |]; [ | discriminate ].
      intro H; injection H as <-.
      cbn [q_query q_params params_or_empty clean_keys] in Hd, Hc |- *.
      count_placeholders.
      rewrite Ht, !placeholders_assignments by assumption.
      rewrite length_app. unfold Object_keys, Object_values. rewrite !length_map.
      simpl. lia.
    + destruct (op_conditions operation) as [cs |]; [ | discriminate ].
      intro H; injection H as <-.
      cbn [q_query q_params params_or_empty clean_keys] in Hc |- *.
      count_placeholders.
      rewrite Ht, !placeholders_assignments by assumption.
      unfold Object_keys, Object_values. rewrite !length_map. simpl. lia.
  - unfold QueryHelpers.exists_query. cbn [fst snd].
    rewrite !placeholders_app, Htable, placeholders_whereClause by exact Hconds.
    simpl. lia.
  - unfold QueryHelpers.count_query.
    destruct (0 <? length (Object_keys conditions))%nat eqn:E; cbn [fst snd].
    + rewrite !placeholders_app, Htable, placeholders_whereClause by exact Hconds.
      simpl. lia.
    + rewrite !placeholders_app, Htable. reflexivity.
Qed.

Lemma placeholders_match_parameters_witness :
  clean (op_table promote_user)
  /\ clean_keys (op_data promote_user)
  /\ clean_keys (op_conditions promote_user)
  /\ (forall item, TransactionHelper.build_query promote_user = Ok item ->
        placeholders (q_query item) = length (params_or_empty (q_params item))).
Proof.
  assert (H1 : clean (op_table promote_user)) by reflexivity.
  assert (H2 : clean_keys (op_data promote_user)).
  { simpl. repeat constructor. }
  assert (H3 : clean_keys (op_conditions promote_user)).
  { simpl. repeat constructor. }
  assert (H4 : clean "users") by reflexivity.
  assert (H5 : Forall clean (Object_keys [("id", JNum 7)])).
  { simpl. repeat constructor. }
  split; [exact H1 | ]. split; [exact H2 | ]. split; [exact H3 | ].
  exact (proj1 (placeholders_match_parameters promote_user "users" [("id", JNum 7)]
                  H1 H2 H3 H4 H5)).
Defined.

Lemma executeMultiple_keeps_prefix_witness :
  session failing_world = None
  /\ exists e w',
       QueryHelpers.executeMultiple two_queries true failing_world = (Throw e, w')
       /\ committed w'
          = committed failing_world
            ++ [("INSERT INTO users (email, role) VALUES (?, ?)", [JStr "a@x.com"; JNum 2])]
       /\ exists done failing rest rs w1,
            two_queries = done ++ failing :: rest
            /\ QueryHelpers.executeMultiple done true failing_world = (Ok rs, w1)
            /\ committed w' = committed failing_world ++ map stmt_of done.
Proof.
  split; [reflexivity | ].
  pose proof (executeMultiple_keeps_prefix two_queries true failing_world eq_refl) as H.
  destruct (QueryHelpers.executeMultiple two_queries true failing_world) as [[rs | e] w'] eqn:Hrun.
  - vm_compute in Hrun. discriminate Hrun.
  - exists e, w'. split; [reflexivity | ].
    split; [vm_compute in Hrun; inversion Hrun; reflexivity | ].
    destruct H as (done & failing & rest & rs & w1 & Hq & Hd & _ & Hc1 & Hc2).
    exists done, failing, rest, rs, w1.
    split; [exact Hq | ]. split; [exact Hd | ]. rewrite Hc2. exact Hc1.
Defined.

(** ** The auth gate, further *)

(** X11. [optionalAuth] never fails a request: where [authenticate] passes
    the request on with an identity, [optionalAuth] passes on the same
    request with the same identity, and where [authenticate] fails,
    [optionalAuth] passes the request on untouched. *)
Theorem optionalAuth_never_fails :
  forall (jwt_verify : string -> string -> Verified) (config : Config) (req : Request),
    (forall r, authenticate jwt_verify config req = Next r ->
               optionalAuth jwt_verify config req = Next r)
    /\ (forall e, authenticate jwt_verify config req = NextErr e ->
                  optionalAuth jwt_verify config req = Next req).
Proof.
  intros jwt_verify config req.
  unfold authenticate, optionalAuth, asyncHandler, authenticate_fn, optionalAuth_fn.
  destruct (authorization req) as [h |].
  - destruct (startsWith h "Bearer "); cbn [negb].
    + destruct (jwt_verify (substring_from 7 h) (JWT_SECRET config)) as [claims | [ | | ]];
        split; intros; try discriminate; try reflexivity; assumption.
    + split; intros; [discriminate | reflexivity].
  - split; intros; [discriminate | reflexivity].
Qed.

Lemma optionalAuth_never_fails_witness :
  authenticate sample_verify test_build (bearer_request "old") = NextErr ExpiredCredential
  /\ optionalAuth sample_verify test_build (bearer_request "old") = Next (bearer_request "old")
  /\ optionalAuth sample_verify test_build (bearer_request "good")
     = Next (set_user (identity_of admin_claims) (bearer_request "good")).
Proof.
  split; [reflexivity | ]. split.
  - exact (proj2 (optionalAuth_never_fails sample_verify test_build (bearer_request "old"))
             ExpiredCredential eq_refl).
  - exact (proj1 (optionalAuth_never_fails sample_verify test_build (bearer_request "good"))
             (set_user (identity_of admin_claims) (bearer_request "good")) eq_refl).
Defined.

(** X12. [authorize] needs an identity, whatever the roles: a request
    without [req.user] is answered 401 "Authentication required" even when
    no role is required.  A request that [authenticate] has passed on
    always has one, so behind [authenticate] the only failure of
    [authorize] is the 403 "Insufficient permissions". *)
Theorem authorize_needs_identity :
  forall (jwt_verify : string -> string -> Verified) (config : Config)
         (roles : list string) (req : Request),
    (user req = None ->
       authorize roles req
       = NextErr (App (AppError.unauthorized "Authentication required" None)))
    /\ (forall r, authenticate jwt_verify config req = Next r ->
          authorize roles r = Next r \/ authorize roles r = NextErr InsufficientPermission).
Proof.
  intros jwt_verify config roles req. split.
  - intro H. unfold authorize, asyncHandler, authorize_fn. rewrite H. reflexivity.
  - intros r Hr.
    assert (Hu : exists u, user r = Some u).
    { unfold authenticate, asyncHandler, authenticate_fn in Hr.
      destruct (authorization req) as [h |]; [ | discriminate ].
      destruct (negb (startsWith h "Bearer ")); [discriminate | ].
      destruct (jwt_verify (substring_from 7 h) (JWT_SECRET config)) as [claims | [ | | ]];
        try discriminate.
      inversion Hr; subst. eexists; reflexivity. }
    destruct Hu as [u Hu]. unfold authorize, asyncHandler, authorize_fn. rewrite Hu.
    destruct ((0 <? length roles)%nat && negb (includes roles (js_or (u_role u) (JStr ""))));
      [right | left]; reflexivity.
Qed.

Lemma authorize_needs_identity_witness :
  user (bearer_request "good") = None
  /\ authorize [] (bearer_request "good")
     = NextErr (App (AppError.unauthorized "Authentication required" None))
  /\ (authorize ["user"] (set_user (identity_of admin_claims) (bearer_request "good"))
      = Next (set_user (identity_of admin_claims) (bearer_request "good"))
      \/ authorize ["user"] (set_user (identity_of admin_claims) (bearer_request "good"))
         = NextErr InsufficientPermission).
Proof.
  split; [reflexivity | ]. split.
  - exact (proj1 (authorize_needs_identity sample_verify test_build []
                    (bearer_request "good")) eq_refl).
  - exact (proj2 (authorize_needs_identity sample_verify test_build ["user"]
                    (bearer_request "good"))
             (set_user (identity_of admin_claims) (bearer_request "good")) eq_refl).
Defined.

(** ** The error handler, further *)

(** X13. For an error that is not an [AppError], has none of the names the
    handler knows, and whose [code] is truthy but not a string (a non-zero
    number, [true]), the handler sends no response: evaluating
    [code.startsWith] raises a [TypeError] inside it. *)
Theorem handler_raises_on_non_string_code :
  forall config now req e,
    unnamed e ->
    truthy (err_code e) = true ->
    (forall c, err_code e <> JStr c) ->
    globalErrorHandler config now (Plain e) req
    = TypeError "error.code.startsWith is not a function".
Proof.
  intros config now req e Hu Ht Hc.
  destruct (unnamed_tests e Hu) as (H1 & H2 & H3 & H4).
  unfold globalErrorHandler, classify. rewrite H1, H2, H3, H4, Ht.
  destruct (err_code e) as [ | | b | n | c]; try discriminate Ht; try reflexivity.
  exfalso. exact (Hc c eq_refl).
Qed.

Lemma handler_raises_on_non_string_code_witness :
  unnamed numeric_code_error
  /\ truthy (err_code numeric_code_error) = true
  /\ globalErrorHandler production_build "2026-01-01T00:00:00.000Z"
       (Plain numeric_code_error) some_request
     = TypeError "error.code.startsWith is not a function".
Proof.
  assert (Hu : unnamed numeric_code_error).
  { unfold unnamed; simpl; repeat split; discriminate. }
  assert (Hc : forall c, err_code numeric_code_error <> JStr c) by (intro c; discriminate).
  split; [exact Hu | ]. split; [reflexivity | ].
  exact (handler_raises_on_non_string_code production_build "2026-01-01T00:00:00.000Z"
           some_request numeric_code_error Hu eq_refl Hc).
Defined.

(** X14. Whenever the handler answers, the envelope carries the error's
    stack exactly in a development build, its status is the envelope's
    status code, and it carries a context only for an [AppError] whose
    context is truthy. *)
Theorem envelope_stack_and_context :
  forall config now err req status envelope,
    globalErrorHandler config now err req = Responded status envelope ->
    (e_stack envelope = Some (StackOf err) <-> NODE_ENV config = "development")
    /\ (e_stack envelope = None <-> NODE_ENV config <> "development")
    /\ status = HttpStatusCode.value (e_statusCode envelope)
    /\ e_context envelope
       = match err with
         | App a => if context_truthy (AppError.context a) then AppError.context a else None
         | Plain _ => None
         end.
Proof.
  intros config now err req status envelope H.
  unfold globalErrorHandler in H.
  destruct (classify config err) as [[[[s ty] msg] ctx] |] eqn:Hc; [ | discriminate H ].
  inversion H; subst; clear H. cbn [e_stack e_statusCode e_context].
  split; [ | split; [ | split; [reflexivity | ] ] ].
  - destruct (String.eqb_spec (NODE_ENV config) "development"); split; intro;
      try reflexivity; try assumption; try discriminate; contradiction.
  - destruct (String.eqb_spec (NODE_ENV config) "development"); split; intro;
      try reflexivity; try assumption; try discriminate; contradiction.
  - destruct err as [e | a].
    + assert (ctx = None); [ | subst; reflexivity ].
      unfold classify in Hc.
      repeat match type of Hc with
             | (if ?b then _ else _) = _ =>
                 destruct b; [inversion Hc; reflexivity | ]
             end.
      destruct (truthy (err_code e)); [ | inversion Hc; reflexivity ].
      destruct (err_code e) as [ | | b | n | c]; try discriminate Hc.
      destruct (startsWith c "ER_"); inversion Hc; reflexivity.
    + simpl in Hc. inversion Hc; subst. reflexivity.
Qed.

Lemma envelope_stack_and_context_witness :
  exists status envelope,
    globalErrorHandler development_build "2026-01-01T00:00:00.000Z"
      (Plain unknown_column) some_request = Responded status envelope
    /\ e_stack envelope = Some (StackOf (Plain unknown_column))
    /\ e_context envelope = None.
Proof.
  eexists. eexists. split; [reflexivity | ].
  pose proof (envelope_stack_and_context development_build "2026-01-01T00:00:00.000Z"
                (Plain unknown_column) some_request _ _ eq_refl) as H.
  split; [exact (proj2 (proj1 H) eq_refl) | exact (proj2 (proj2 (proj2 H)))].
Defined.

(** X15. The error's name is looked at before its code.  An error named
    ValidationError is answered 422 with its own message, or "Validation
    failed" when the message is empty; an error named CastError is answered
    400 "Invalid resource ID"; both whatever the error's code is, a
    non-string code included. *)
Theorem named_errors_first :
  forall config now req e,
    (err_name e = "ValidationError" ->
       responds config now (Plain e) req 422 ErrorType.VALIDATION_ERROR
         (if (err_message e =? "")%string then "Validation failed" else err_message e))
    /\ (err_name e = "CastError" ->
          responds config now (Plain e) req 400 ErrorType.BAD_REQUEST_ERROR
            "Invalid resource ID").
Proof.
  intros config now req e. split; intro Hn.
  - change 422%Z with (HttpStatusCode.value HttpStatusCode.UNPROCESSABLE_ENTITY).
    eapply classified_responds. unfold classify. rewrite Hn. reflexivity.
  - change 400%Z with (HttpStatusCode.value HttpStatusCode.BAD_REQUEST).
    eapply classified_responds. unfold classify. rewrite Hn. reflexivity.
Qed.

Lemma named_errors_first_witness :
  err_name named_validation_error = "ValidationError"
  /\ responds production_build "2026-01-01T00:00:00.000Z"
       (Plain named_validation_error) some_request
       422 ErrorType.VALIDATION_ERROR "Validation failed".
Proof.
  split; [reflexivity | ].
  exact (proj1 (named_errors_first production_build "2026-01-01T00:00:00.000Z"
                  some_request named_validation_error) eq_refl).
Defined.

(** ** The utilities *)

Lemma assign_fresh o key value :
  ~ In key (Object_keys o) -> assign o key value = o ++ [(key, value)].
Proof.
  induction o as [| [k v] o IH]; simpl; intro H; [reflexivity | ].
  destruct (String.eqb_spec k key) as [-> | Hne].
  - exfalso. apply H. left. reflexivity.
  - rewrite IH; [reflexivity | ]. intro Hin. apply H. right. exact Hin.
Qed.

Lemma filter_keys_NoDup (p : string * JsVal -> bool) obj :
  NoDup (Object_keys obj) -> NoDup (Object_keys (filter p obj)).
Proof.
  induction obj as [| [k v] obj IH]; simpl; intro Hnd; [constructor | ].
  inversion Hnd as [| ? ? Hnotin Hnd']; subst.
  destruct (p (k, v)); simpl; [ | apply IH; exact Hnd' ].
  constructor; [ | apply IH; exact Hnd' ].
  intro Hin. apply Hnotin. unfold Object_keys in *.
  apply in_map_iff in Hin. destruct Hin as ([k' v'] & Hk & Hin). simpl in Hk. subst k'.
  apply filter_In in Hin. apply in_map_iff. exists (k, v'). split; [reflexivity | tauto].
Qed.

Lemma hasOwnProperty_In o key :
  hasOwnProperty o key = true <-> In key (Object_keys (own o)).
Proof.
  unfold hasOwnProperty. rewrite existsb_exists. split.
  - intros (k & Hin & Heq). apply String.eqb_eq in Heq. subst. exact Hin.
  - intro Hin. exists key. split; [exact Hin | apply String.eqb_refl].
Qed.

(** One assignment on an object that owns neither the key nor
    [__proto__]. *)
Lemma put_fresh o key value :
  ~ In key (Object_keys (own o)) ->
  own (put o key value)
  = (if is_proto key
     then match prototype o with
          | ObjectPrototype => own o
          | NoPrototype => own o ++ [(key, value)]
          end
     else own o ++ [(key, value)]).
Proof.
  intro Hfresh. unfold put, is_proto.
  assert (Hh : hasOwnProperty o key = false).
  { destruct (hasOwnProperty o key) eqn:Hh; [ | reflexivity ].
    apply hasOwnProperty_In in Hh. contradiction. }
  rewrite Hh. cbn [negb]. rewrite andb_true_r.
  destruct (key =? "__proto__")%string.
  - destruct (prototype o); [destruct value; reflexivity | ].
    cbn [own]. apply assign_fresh. exact Hfresh.
  - cbn [own]. apply assign_fresh. exact Hfresh.
Qed.

Lemma put_prototype o key value :
  prototype (put o key value) = NoPrototype ->
  prototype o = NoPrototype \/ (is_proto key = true /\ value = JNull).
Proof.
  unfold put, is_proto. destruct (key =? "__proto__")%string; cbn [andb].
  - destruct (negb (hasOwnProperty o key)).
    + destruct (prototype o) eqn:Hp; [ | left; reflexivity ].
      destruct value; cbn; intro H; try congruence. right. split; reflexivity.
    + cbn. intro H. left. exact H.
  - cbn. intro H. left. exact H.
Qed.

(** A loop of assignments under converted keys, when no two converted keys
    coincide: the entries whose converted key is [__proto__] leave no own
    property. *)
Lemma fold_put (f : string -> string) (keep : JsVal -> bool) obj : forall acc,
  NoDup (Object_keys (own acc) ++ map f (Object_keys obj)) ->
  prototype acc = ObjectPrototype ->
  own (fold_left
         (fun converted entry =>
            if keep (snd entry) then put converted (f (fst entry)) (snd entry)
            else converted)
         obj acc)
  = own acc ++ map (fun entry => (f (fst entry), snd entry))
                   (filter (fun entry => keep (snd entry) && negb (is_proto (f (fst entry))))
                           obj).
Proof.
  assert (Hgen : forall acc,
    NoDup (Object_keys (own acc) ++ map f (Object_keys obj)) ->
    (prototype acc = NoPrototype -> ~ In "__proto__" (map f (Object_keys obj))) ->
    own (fold_left
           (fun converted entry =>
              if keep (snd entry) then put converted (f (fst entry)) (snd entry)
              else converted)
           obj acc)
    = own acc ++ map (fun entry => (f (fst entry), snd entry))
                     (filter (fun entry => keep (snd entry) && negb (is_proto (f (fst entry))))
                             obj)).
  { induction obj as [| [k v] obj IH]; intros acc Hnd Hproto; simpl.
    - symmetry. apply app_nil_r.
    - simpl in Hnd.
      assert (Hfresh : ~ In (f k) (Object_keys (own acc))).
      { intro Hin. apply NoDup_remove_2 in Hnd. apply Hnd.
        apply in_or_app. left. exact Hin. }
      assert (Hrest : ~ In (f k) (map f (Object_keys obj))).
      { intro Hin. apply NoDup_remove_2 in Hnd. apply Hnd.
        apply in_or_app. right. exact Hin. }
      destruct (keep v) eqn:Hk; cbn [andb].
      + pose proof (put_fresh acc (f k) v Hfresh) as Hput.
        destruct (is_proto (f k)) eqn:Hp; cbn [negb].
        * assert (Hfk : f k = "__proto__") by (apply String.eqb_eq; exact Hp).
          destruct (prototype acc) eqn:Hpa.
          -- rewrite IH.
             ++ rewrite Hput. reflexivity.
             ++ rewrite Hput. apply NoDup_remove_1 in Hnd. exact Hnd.
             ++ intros _. rewrite <- Hfk. exact Hrest.
          -- exfalso. apply (Hproto eq_refl). simpl. left. exact Hfk.
        * rewrite IH.
          -- rewrite Hput. simpl. rewrite <- app_assoc. reflexivity.
          -- rewrite Hput. unfold Object_keys in *. rewrite map_app. simpl.
             rewrite <- app_assoc. exact Hnd.
          -- intro Hn. apply put_prototype in Hn.
             destruct Hn as [Hn | [Hn _]]; [ | congruence ].
             intro Hin. apply (Hproto Hn). simpl. right. exact Hin.
      + apply IH.
        * apply NoDup_remove_1 in Hnd. exact Hnd.
        * intros Hn Hin. apply (Hproto Hn). simpl. right. exact Hin. }
  intros acc Hnd Hp. apply Hgen; [exact Hnd | ]. intro Hn. congruence.
Qed.

(** A loop that never assigns [null] leaves the prototype alone. *)
Lemma fold_put_prototype (f : string -> string) (keep : JsVal -> bool) obj :
  (forall v, keep v = true -> v <> JNull) ->
  forall acc,
  prototype acc = ObjectPrototype ->
  prototype (fold_left
               (fun converted entry =>
                  if keep (snd entry) then put converted (f (fst entry)) (snd entry)
                  else converted)
               obj acc)
  = ObjectPrototype.
Proof.
  intro Hkeep. induction obj as [| [k v] obj IH]; intros acc Hp; simpl; [exact Hp | ].
  apply IH. destruct (keep v) eqn:Hk; [ | exact Hp ].
  destruct (prototype (put acc (f k) v)) eqn:Hn; [reflexivity | ].
  apply put_prototype in Hn. destruct Hn as [Hn | [_ Hn]]; [congruence | ].
  exfalso. exact (Hkeep v Hk Hn).
Qed.

Lemma sanitizeObject_own obj :
  NoDup (Object_keys obj) ->
  own (sanitizeObject obj) = filter is_kept obj.
Proof.
  intro Hnd. unfold sanitizeObject.
  rewrite (fold_put (fun k => k) is_present obj empty_object).
  - simpl. unfold is_kept.
    induction (filter (fun entry => is_present (snd entry) && negb (is_proto (fst entry))) obj)
      as [| [k v] l IH]; simpl; [reflexivity | rewrite IH; reflexivity].
  - simpl. rewrite map_id. exact Hnd.
  - reflexivity.
Qed.

Lemma sanitizeObject_prototype obj : prototype (sanitizeObject obj) = ObjectPrototype.
Proof.
  unfold sanitizeObject.
  apply (fold_put_prototype (fun k => k) is_present obj); [ | reflexivity ].
  intros v Hv ->. discriminate Hv.
Qed.

Lemma prop_filter_absent (p : string * JsVal -> bool) obj key :
  ~ In key (Object_keys obj) -> prop (filter p obj) key = JUndefined.
Proof.
  induction obj as [| [k v] obj IH]; simpl; intro Hn; [reflexivity | ].
  destruct (p (k, v)); simpl.
  - destruct (String.eqb_spec k key) as [-> | _]; [tauto | ]. apply IH. tauto.
  - apply IH. tauto.
Qed.

Lemma prop_filter_kept obj key :
  NoDup (Object_keys obj) ->
  prop (filter is_kept obj) key
  = if is_proto key then JUndefined
    else if is_present (prop obj key) then prop obj key else JUndefined.
Proof.
  induction obj as [| [k v] obj IH]; simpl; intro Hnd.
  - destruct (is_proto key); reflexivity.
  - inversion Hnd as [| ? ? Hnotin Hnd']; subst.
    destruct (String.eqb_spec k key) as [-> | Hne].
    + unfold is_kept at 1. cbn [fst snd].
      destruct (is_proto key) eqn:Hp; cbn [negb]; rewrite ?andb_false_r, ?andb_true_r.
      * apply prop_filter_absent. exact Hnotin.
      * destruct (is_present v) eqn:Hv.
        -- simpl. rewrite String.eqb_refl. reflexivity.
        -- apply prop_filter_absent. exact Hnotin.
    + destruct (is_kept (k, v)); simpl.
      * destruct (String.eqb_spec k key); [contradiction | ]. apply IH. exact Hnd'.
      * apply IH. exact Hnd'.
Qed.

Lemma filter_idem {A} (p : A -> bool) (l : list A) : filter p (filter p l) = filter p l.
Proof.
  induction l as [| x l IH]; simpl; [reflexivity | ].
  destruct (p x) eqn:Hp; simpl; [rewrite Hp, IH | rewrite IH]; reflexivity.
Qed.

Lemma JsObject_eq (a b : JsObject) :
  prototype a = prototype b -> own a = own b -> a = b.
Proof. destruct a, b; simpl; intros -> ->; reflexivity. Qed.

(** X16. [sanitizeObject], on an object whose values are primitives or
    [null]: the own properties of the result are the entries whose value
    is neither [undefined] nor [null], in their order, except an entry
    under the key [__proto__], which is lost whatever its value; the
    prototype is untouched; reading any other key of the result gives the
    value the object had, except that [null] reads as [undefined]; and
    sanitizing again changes nothing. *)
Theorem sanitizeObject_removes_nullish :
  forall obj,
    NoDup (Object_keys obj) ->
    own (sanitizeObject obj)
    = filter (fun entry => is_present (snd entry) && negb (fst entry =? "__proto__")%string) obj
    /\ (forall key value,
          In (key, value) (own (sanitizeObject obj))
          <-> In (key, value) obj
              /\ value <> JUndefined /\ value <> JNull /\ key <> "__proto__")
    /\ prototype (sanitizeObject obj) = ObjectPrototype
    /\ (forall key, key <> "__proto__" ->
          prop (own (sanitizeObject obj)) key
          = if is_present (prop obj key) then prop obj key else JUndefined)
    /\ prop (own (sanitizeObject obj)) "__proto__" = JUndefined
    /\ Forall (fun entry => is_present (snd entry) = true) (own (sanitizeObject obj))
    /\ sanitizeObject (own (sanitizeObject obj)) = sanitizeObject obj.
Proof.
  intros obj Hnd. pose proof (sanitizeObject_own obj Hnd) as Hown.
  split; [exact Hown | ].
  split.
  { intros key value. rewrite Hown, filter_In. unfold is_kept, is_proto. cbn [fst snd].
    rewrite andb_true_iff, negb_true_iff.
    destruct (String.eqb_spec key "__proto__") as [-> | Hk];
      destruct value; cbn [is_present]; intuition congruence. }
  split; [apply sanitizeObject_prototype | ].
  rewrite Hown. split; [ | split; [ | split ] ].
  - intros key Hkey. rewrite prop_filter_kept by exact Hnd.
    unfold is_proto. destruct (String.eqb_spec key "__proto__"); [contradiction | reflexivity].
  - rewrite prop_filter_kept by exact Hnd. reflexivity.
  - apply Forall_forall. intros entry Hin. apply filter_In in Hin.
    destruct Hin as [_ Hk]. unfold is_kept in Hk. apply andb_true_iff in Hk. tauto.
  - apply JsObject_eq.
    + rewrite !sanitizeObject_prototype. reflexivity.
    + rewrite sanitizeObject_own by (apply filter_keys_NoDup; exact Hnd).
      rewrite Hown. apply filter_idem.
Qed.

Lemma sanitizeObject_removes_nullish_witness :
  NoDup (Object_keys sparse_profile)
  /\ NoDup (Object_keys polluted_profile)
  /\ own (sanitizeObject sparse_profile) = [("firstName", JStr "Ada"); ("age", JNum 36)]
  /\ prop (own (sanitizeObject sparse_profile)) "lastName" = JUndefined
  /\ own (sanitizeObject polluted_profile) = [("firstName", JStr "Ada")].
Proof.
  assert (Hnd : NoDup (Object_keys sparse_profile)).
  { simpl. repeat constructor; simpl; intuition discriminate. }
  assert (Hnd' : NoDup (Object_keys polluted_profile)).
  { simpl. repeat constructor; simpl; intuition discriminate. }
  split; [exact Hnd | ]. split; [exact Hnd' | ].
  destruct (sanitizeObject_removes_nullish sparse_profile Hnd) as (Hf & _ & _ & Hp & _).
  destruct (sanitizeObject_removes_nullish polluted_profile Hnd') as (Hf' & _).
  split; [exact Hf | ]. split; [apply Hp; discriminate | exact Hf'].
Defined.

Lemma letter_case c :
  is_upper c = true ->
  is_lower (toLowerCase c) = true /\ toUpperCase (toLowerCase c) = c.
Proof.
  destruct c as [b0 b1 b2 b3 b4 b5 b6 b7].
  destruct b0, b1, b2, b3, b4, b5, b6, b7; intro H; try discriminate H; split; reflexivity.
Qed.

Lemma letter_case_back c :
  is_lower c = true ->
  is_upper (toUpperCase c) = true /\ toLowerCase (toUpperCase c) = c.
Proof.
  destruct c as [b0 b1 b2 b3 b4 b5 b6 b7].
  destruct b0, b1, b2, b3, b4, b5, b6, b7; intro H; try discriminate H; split; reflexivity.
Qed.

Lemma lower_not_upper c : is_lower c = true -> is_upper c = false.
Proof.
  destruct c as [b0 b1 b2 b3 b4 b5 b6 b7].
  destruct b0, b1, b2, b3, b4, b5, b6, b7; intro H; try discriminate H; reflexivity.
Qed.

(** The first character of [camelToSnake s] is a lower-case letter only if
    the first character of [s] is. *)
Lemma camelToSnake_head c s d rest :
  camelToSnake (String c s) = String d rest -> is_lower d = true -> d = c.
Proof.
  simpl. destruct (is_upper c).
  - intro H; inversion H; subst. discriminate.
  - intro H; inversion H; subst. reflexivity.
Qed.

Lemma snake_round_trip s : has_snake s = false -> snakeToCamel (camelToSnake s) = s.
Proof.
  induction s as [| c s IH]; [reflexivity | ].
  intro Hs.
  assert (Hs' : has_snake s = false).
  { simpl in Hs. destruct s; [reflexivity | ]. apply orb_false_iff in Hs. tauto. }
  specialize (IH Hs').
  cbn [camelToSnake]. destruct (is_upper c) eqn:Hu.
  - destruct (letter_case c Hu) as [Hl Hb].
    cbn [snakeToCamel]. rewrite Hl. cbn [Ascii.eqb Bool.eqb andb].
    change (Ascii.eqb "_" "_") with true. cbn [andb]. rewrite Hb, IH. reflexivity.
  - destruct (camelToSnake s) as [| d rest] eqn:Hcs.
    + destruct s as [| c' s'].
      * reflexivity.
      * simpl in Hcs. destruct (is_upper c'); discriminate Hcs.
    + cbn [snakeToCamel].
      destruct (Ascii.eqb c "_" && is_lower d) eqn:Hm.
      * exfalso. apply andb_true_iff in Hm. destruct Hm as [Hc Hd].
        destruct s as [| c' s']; [discriminate Hcs | ].
        pose proof (camelToSnake_head c' s' d rest Hcs Hd) as ->.
        simpl in Hs. rewrite Hc, Hd in Hs. discriminate Hs.
      * cbn [snakeToCamel] in IH. rewrite IH. reflexivity.
Qed.

Lemma snakeToCamel_step c d rest :
  snakeToCamel (String c (String d rest))
  = if Ascii.eqb c "_" && is_lower d
    then String (toUpperCase d) (snakeToCamel rest)
    else String c (snakeToCamel (String d rest)).
Proof. reflexivity. Qed.

Lemma camel_round_trip_bounded n : forall s,
  String.length s <= n -> has_upper s = false -> camelToSnake (snakeToCamel s) = s.
Proof.
  induction n as [| n IH]; intros s Hlen Hup.
  - destruct s; [reflexivity | simpl in Hlen; lia].
  - destruct s as [| c s]; [reflexivity | ].
    simpl in Hup. apply orb_false_iff in Hup. destruct Hup as [Hc Hup].
    destruct s as [| d s'].
    + simpl. rewrite Hc. reflexivity.
    + rewrite snakeToCamel_step.
      destruct (Ascii.eqb c "_" && is_lower d) eqn:Hm.
      * apply andb_true_iff in Hm. destruct Hm as [Hcu Hd].
        apply Ascii.eqb_eq in Hcu. subst c.
        destruct (letter_case_back d Hd) as [Hud Hb].
        cbn [camelToSnake]. rewrite Hud, Hb.
        rewrite IH; [reflexivity | simpl in Hlen |- *; lia | ].
        simpl in Hup. apply orb_false_iff in Hup. tauto.
      * cbn [camelToSnake]. rewrite Hc.
        rewrite IH; [reflexivity | simpl in Hlen |- *; lia | exact Hup].
Qed.

(** X17. The two case conversions undo each other where they can:
    [snakeToCamel (camelToSnake s)] is [s] for every text without an
    underscore followed by a lower-case letter, and
    [camelToSnake (snakeToCamel s)] is [s] for every text without an
    upper-case letter. *)
Theorem case_conversions_round_trip :
  forall s,
    (has_snake s = false -> snakeToCamel (camelToSnake s) = s)
    /\ (has_upper s = false -> camelToSnake (snakeToCamel s) = s).
Proof.
  intro s. split.
  - apply snake_round_trip.
  - apply (camel_round_trip_bounded (String.length s)). apply Nat.le_refl.
Qed.

Lemma case_conversions_round_trip_witness :
  has_snake "firstName" = false
  /\ camelToSnake "firstName" = "first_name"
  /\ snakeToCamel (camelToSnake "firstName") = "firstName"
  /\ has_upper "is_active" = false
  /\ camelToSnake (snakeToCamel "is_active") = "is_active".
Proof.
  split; [reflexivity | ]. split; [reflexivity | ].
  split; [exact (proj1 (case_conversions_round_trip "firstName") eq_refl) | ].
  split; [reflexivity | ].
  exact (proj2 (case_conversions_round_trip "is_active") eq_refl).
Defined.

Lemma keys_round_trip keys :
  Forall (fun key => has_snake key = false) keys ->
  map snakeToCamel (map camelToSnake keys) = keys.
Proof.
  induction 1 as [| k ks Hk _ IH]; simpl; [reflexivity | ].
  rewrite snake_round_trip by exact Hk. rewrite IH. reflexivity.
Qed.

Lemma snakeToCamel_no_snake_bounded n : forall s,
  String.length s <= n -> has_snake (snakeToCamel s) = false.
Proof.
  induction n as [| n IH]; intros s Hlen.
  - destruct s; [reflexivity | simpl in Hlen; lia].
  - destruct s as [| c s]; [reflexivity | ].
    destruct s as [| d s'].
    + reflexivity.
    + rewrite snakeToCamel_step.
      destruct (Ascii.eqb c "_" && is_lower d) eqn:Hm.
      * apply andb_true_iff in Hm. destruct Hm as [_ Hd].
        destruct (letter_case_back d Hd) as [Hud _].
        assert (IH' : has_snake (snakeToCamel s') = false)
          by (apply IH; simpl in Hlen |- *; lia).
        cbn [has_snake]. destruct (snakeToCamel s') as [| e t] eqn:Hst; [reflexivity | ].
        rewrite IH'. rewrite orb_false_r.
        destruct (Ascii.eqb_spec (toUpperCase d) "_") as [Heq | _]; [ | reflexivity ].
        rewrite Heq in Hud. discriminate Hud.
      * assert (IH' : has_snake (snakeToCamel (String d s')) = false)
          by (apply IH; simpl in Hlen |- *; lia).
        cbn [has_snake].
        destruct (snakeToCamel (String d s')) as [| e t] eqn:Hst; [reflexivity | ].
        rewrite IH', orb_false_r.
        destruct s' as [| d' s''].
        -- simpl in Hst. inversion Hst; subst. exact Hm.
        -- rewrite snakeToCamel_step in Hst.
           destruct (Ascii.eqb d "_" && is_lower d') eqn:Hm'.
           ++ inversion Hst; subst.
              apply andb_true_iff in Hm'. destruct Hm' as [_ Hd'].
              destruct (letter_case_back d' Hd') as [Hud _].
              rewrite (proj2 (andb_false_iff _ _)); [reflexivity | ].
              right. destruct (is_lower (toUpperCase d')) eqn:Hl; [ | reflexivity ].
              apply lower_not_upper in Hl. congruence.
           ++ inversion Hst; subst. exact Hm.
Qed.

Lemma snakeToCamel_no_snake s : has_snake (snakeToCamel s) = false.
Proof. apply (snakeToCamel_no_snake_bounded (String.length s)). apply Nat.le_refl. Qed.

Lemma snakeToCamel_not_proto s : is_proto (snakeToCamel s) = false.
Proof.
  unfold is_proto. destruct (String.eqb_spec (snakeToCamel s) "__proto__") as [Heq | _];
    [ | reflexivity ].
  pose proof (snakeToCamel_no_snake s) as H. rewrite Heq in H. discriminate H.
Qed.

Lemma camelToSnake_proto key :
  has_snake key = false ->
  is_proto (camelToSnake key) = (key =? "_Proto__")%string.
Proof.
  intro Hs. unfold is_proto.
  destruct (String.eqb_spec (camelToSnake key) "__proto__") as [Heq | Hne].
  - pose proof (snake_round_trip key Hs) as Hrt. rewrite Heq in Hrt.
    rewrite <- Hrt. reflexivity.
  - destruct (String.eqb_spec key "_Proto__") as [-> | _]; [ | reflexivity ].
    exfalso. apply Hne. reflexivity.
Qed.

Lemma filter_true {A} (p : A -> bool) (l : list A) :
  Forall (fun x => p x = true) l -> filter p l = l.
Proof.
  induction 1 as [| x l Hx _ IH]; simpl; [reflexivity | rewrite Hx, IH; reflexivity].
Qed.

Lemma objectKeysToSnake_own obj :
  NoDup (Object_keys obj) ->
  Forall (fun key => has_snake key = false) (Object_keys obj) ->
  own (objectKeysToSnake obj)
  = map (fun entry => (camelToSnake (fst entry), snd entry)) (filter not_Proto obj).
Proof.
  intros Hnd Hsf.
  assert (Hback : map snakeToCamel (map camelToSnake (Object_keys obj)) = Object_keys obj).
  { apply keys_round_trip. exact Hsf. }
  assert (Hnd1 : NoDup (map camelToSnake (Object_keys obj))).
  { apply (NoDup_map_inv snakeToCamel). rewrite Hback. exact Hnd. }
  unfold objectKeysToSnake.
  etransitivity;
    [exact (fold_put camelToSnake (fun _ => true) obj empty_object Hnd1 eq_refl) | ].
  cbn [own empty_object app]. f_equal.
  apply filter_ext_in. intros [k v] Hin. unfold not_Proto. cbn [fst snd andb].
  rewrite camelToSnake_proto; [reflexivity | ].
  rewrite Forall_forall in Hsf. apply Hsf. unfold Object_keys.
  apply in_map_iff. exists (k, v). split; [reflexivity | exact Hin].
Qed.

Lemma objectKeysToCamel_own obj :
  NoDup (map snakeToCamel (Object_keys obj)) ->
  own (objectKeysToCamel obj) = map (fun entry => (snakeToCamel (fst entry), snd entry)) obj.
Proof.
  intro Hnd. unfold objectKeysToCamel.
  etransitivity;
    [exact (fold_put snakeToCamel (fun _ => true) obj empty_object Hnd eq_refl) | ].
  cbn [own empty_object app]. f_equal.
  apply filter_true. apply Forall_forall. intros [k v] _. cbn [fst andb].
  rewrite snakeToCamel_not_proto. reflexivity.
Qed.

Lemma filter_keys_sub (p : string * JsVal -> bool) obj (P : string -> Prop) :
  Forall P (Object_keys obj) -> Forall P (Object_keys (filter p obj)).
Proof.
  induction obj as [| [k v] obj IH]; simpl; intro H; [constructor | ].
  inversion H; subst. destruct (p (k, v)); simpl; [constructor | ]; auto.
Qed.

(** X18. The key conversions of objects, for an object none of whose
    keys holds an underscore followed by a lower-case letter:
    [objectKeysToSnake] renames each key and keeps the values in their
    order, except the entry under the key [_Proto__], which would become
    [__proto__] and is lost; [objectKeysToCamel] of the result gives the
    remaining entries back.  So the two undo each other exactly on the
    objects without the key [_Proto__]. *)
Theorem objectKeys_round_trip :
  forall obj,
    NoDup (Object_keys obj) ->
    Forall (fun key => has_snake key = false) (Object_keys obj) ->
    let others := filter (fun entry => negb (fst entry =? "_Proto__")%string) obj in
    own (objectKeysToSnake obj)
    = map (fun entry => (camelToSnake (fst entry), snd entry)) others
    /\ own (objectKeysToCamel (own (objectKeysToSnake obj))) = others
    /\ (~ In "_Proto__" (Object_keys obj) ->
          others = obj
          /\ Object_values (own (objectKeysToSnake obj)) = Object_values obj
          /\ own (objectKeysToCamel (own (objectKeysToSnake obj))) = obj).
Proof.
  intros obj Hnd Hsf others.
  assert (Hs : own (objectKeysToSnake obj)
               = map (fun entry => (camelToSnake (fst entry), snd entry)) others).
  { apply objectKeysToSnake_own; assumption. }
  assert (Hsf' : Forall (fun key => has_snake key = false) (Object_keys others)).
  { apply filter_keys_sub. exact Hsf. }
  assert (Hnd' : NoDup (Object_keys others)).
  { apply filter_keys_NoDup. exact Hnd. }
  assert (Hb : own (objectKeysToCamel (own (objectKeysToSnake obj))) = others).
  { rewrite Hs. rewrite objectKeysToCamel_own.
    - rewrite map_map. cbn [fst snd]. clear - Hsf'.
      induction others as [| [k v] l IH]; simpl; [reflexivity | ].
      simpl in Hsf'. inversion Hsf'; subst.
      rewrite snake_round_trip by assumption. rewrite IH by assumption. reflexivity.
    - unfold Object_keys. rewrite !map_map. cbn [fst].
      replace (map (fun x : string * JsVal => snakeToCamel (camelToSnake (fst x))) others)
        with (Object_keys others); [exact Hnd' | ].
      clear - Hsf'. induction others as [| [k v] l IH]; simpl; [reflexivity | ].
      simpl in Hsf'. inversion Hsf'; subst.
      rewrite snake_round_trip by assumption. rewrite <- IH by assumption. reflexivity. }
  split; [exact Hs | ]. split; [exact Hb | ].
  intro Hno.
  assert (Hk : others = obj).
  { apply filter_true. apply Forall_forall. intros [k v] Hin. cbn [fst].
    destruct (String.eqb_spec k "_Proto__") as [-> | _]; [ | reflexivity ].
    exfalso. apply Hno. unfold Object_keys. apply in_map_iff. exists ("_Proto__", v).
    split; [reflexivity | exact Hin]. }
  split; [exact Hk | ]. rewrite Hb, Hs, Hk. split; [ | reflexivity ].
  unfold Object_values. rewrite map_map. reflexivity.
Qed.

Lemma objectKeys_round_trip_witness :
  NoDup (Object_keys camel_profile)
  /\ Forall (fun key => has_snake key = false) (Object_keys camel_profile)
  /\ ~ In "_Proto__" (Object_keys camel_profile)
  /\ own (objectKeysToSnake camel_profile)
     = [("first_name", JStr "Ada"); ("is_active", JBool true); ("email", JStr "a@x.com")]
  /\ own (objectKeysToCamel (own (objectKeysToSnake camel_profile))) = camel_profile
  /\ NoDup (Object_keys proto_profile)
  /\ Forall (fun key => has_snake key = false) (Object_keys proto_profile)
  /\ own (objectKeysToSnake proto_profile)
     = [("first_name", JStr "Ada"); ("email", JStr "a@x.com")].
Proof.
  assert (Hnd : NoDup (Object_keys camel_profile)).
  { simpl. repeat constructor; simpl; intuition discriminate. }
  assert (Hsf : Forall (fun key => has_snake key = false) (Object_keys camel_profile)).
  { simpl. repeat constructor. }
  assert (Hno : ~ In "_Proto__" (Object_keys camel_profile)).
  { simpl. intuition discriminate. }
  assert (Hnd' : NoDup (Object_keys proto_profile)).
  { simpl. repeat constructor; simpl; intuition discriminate. }
  assert (Hsf' : Forall (fun key => has_snake key = false) (Object_keys proto_profile)).
  { simpl. repeat constructor. }
  split; [exact Hnd | ]. split; [exact Hsf | ]. split; [exact Hno | ].
  destruct (objectKeys_round_trip camel_profile Hnd Hsf) as (Hs & _ & Hb).
  destruct (objectKeys_round_trip proto_profile Hnd' Hsf') as (Hs' & _).
  split; [exact Hs | ]. split; [exact (proj2 (proj2 (Hb Hno))) | ].
  split; [exact Hnd' | ]. split; [exact Hsf' | exact Hs'].
Defined.

Lemma isSafeInteger_spec z : isSafeInteger z = true <-> in_safe_range z.
Proof. unfold isSafeInteger, in_safe_range. apply Z.ltb_lt. Qed.

(** X19. [calculatePagination] on safe integers, for a maximum limit of
    at least one (the default is 100), a total count that is not negative,
    and a page small enough for [(page - 1) * maxLimit] to be a safe
    integer: the page is the requested one or 1, the limit is between 1 and
    the maximum, the offset is [(page - 1) * limit], the number of pages is
    the least [n] with [n * limit >= totalCount], [hasNext] says exactly
    that rows are left after this page, and [hasPrevious] that the offset
    is not zero. *)
Theorem pagination_is_sound :
  forall totalCount options,
    in_safe_range totalCount ->
    in_safe_range (default 1 (o_page options)) ->
    in_safe_range (default 10 (o_limit options)) ->
    in_safe_range (default 100 (o_maxLimit options)) ->
    in_safe_range ((Z.max 1 (default 1 (o_page options)) - 1)
                   * default 100 (o_maxLimit options)) ->
    (1 <= default 100 (o_maxLimit options))%Z ->
    (0 <= totalCount)%Z ->
    exists r n,
      calculatePagination totalCount options = Some r
      /\ p_page r = Z.max 1 (default 1 (o_page options))
      /\ p_limit r
         = Z.min (Z.max 1 (default 10 (o_limit options))) (default 100 (o_maxLimit options))
      /\ (1 <= p_limit r <= default 100 (o_maxLimit options))%Z
      /\ p_offset r = Finite ((p_page r - 1) * p_limit r)
      /\ (0 <= (p_page r - 1) * p_limit r)%Z
      /\ p_totalPages r = Finite n
      /\ ((n - 1) * p_limit r < totalCount <= n * p_limit r)%Z
      /\ (p_hasNext r = true <-> ((p_page r - 1) * p_limit r + p_limit r < totalCount)%Z)
      /\ (p_hasPrevious r = true <-> (0 < (p_page r - 1) * p_limit r)%Z).
Proof.
  intros totalCount options Ht Hpg Hlm Hmx Hprod Hmax Htotal.
  unfold calculatePagination.
  set (page := Z.max 1 (default 1 (o_page options))) in *.
  set (L := Z.min (Z.max 1 (default 10 (o_limit options))) (default 100 (o_maxLimit options))).
  assert (Hp : (1 <= page)%Z) by (unfold page; lia).
  assert (HL : (1 <= L <= default 100 (o_maxLimit options))%Z) by (unfold L; lia).
  assert (Hsafe : in_safe_range ((page - 1) * L)).
  { unfold in_safe_range in *. rewrite Z.abs_eq in * by nia. nia. }
  rewrite (proj2 (isSafeInteger_spec totalCount) Ht).
  rewrite (proj2 (isSafeInteger_spec _) Hpg).
  rewrite (proj2 (isSafeInteger_spec _) Hlm).
  rewrite (proj2 (isSafeInteger_spec _) Hmx).
  rewrite (proj2 (isSafeInteger_spec _) Hsafe).
  cbn [andb].
  pose proof (Z.div_mod (- totalCount) L ltac:(lia)) as Hdm.
  pose proof (Z.mod_pos_bound (- totalCount) L ltac:(lia)) as Hmod.
  set (q := (- totalCount / L)%Z) in *.
  set (m := (- totalCount mod L)%Z) in *.
  assert (Htimes : times (page - 1) L = Finite ((page - 1) * L)).
  { unfold times. destruct (Z.ltb_spec L 0); [lia | ].
    destruct (Z.ltb_spec (page - 1) 0); [lia | ].
    rewrite andb_false_r. reflexivity. }
  assert (Hceil : ceil_div totalCount L = Finite (- q)).
  { unfold ceil_div. destruct (Z.eqb_spec L 0) as [H0 | _]; [lia | ].
    fold q. cbv zeta.
    destruct (Z.ltb_spec totalCount 0); [lia | ].
    destruct (Z.ltb_spec L 0); [lia | ].
    cbn [andb orb]. rewrite andb_false_r, andb_false_r. reflexivity. }
  eexists. exists (- q)%Z. split; [reflexivity | ].
  cbn [p_page p_limit p_offset p_totalPages p_hasNext p_hasPrevious].
  split; [reflexivity | ]. split; [reflexivity | ]. split; [exact HL | ].
  split; [exact Htimes | ].
  split; [nia | ]. split; [exact Hceil | ]. split; [nia | ]. split.
  - rewrite Hceil. cbn [lt_number]. rewrite Z.ltb_lt. split; intro H; nia.
  - rewrite Z.ltb_lt. split; intro H; nia.
Qed.

Lemma pagination_is_sound_witness :
  in_safe_range 1234
  /\ (1 <= default 100 (o_maxLimit greedy_page))%Z
  /\ calculatePagination 1234 greedy_page
     = Some (mkPagination 3%Z 100%Z (Finite 200%Z) (Finite 13%Z) true true)
  /\ exists r n,
       calculatePagination 1234 greedy_page = Some r
       /\ p_totalPages r = Finite n
       /\ ((n - 1) * p_limit r < 1234 <= n * p_limit r)%Z.
Proof.
  assert (H0 : in_safe_range 1234) by (unfold in_safe_range; simpl; lia).
  assert (H1 : in_safe_range (default 1 (o_page greedy_page)))
    by (unfold in_safe_range; simpl; lia).
  assert (H2 : in_safe_range (default 10 (o_limit greedy_page)))
    by (unfold in_safe_range; simpl; lia).
  assert (H3 : in_safe_range (default 100 (o_maxLimit greedy_page)))
    by (unfold in_safe_range; simpl; lia).
  assert (H4 : in_safe_range ((Z.max 1 (default 1 (o_page greedy_page)) - 1)
                              * default 100 (o_maxLimit greedy_page)))
    by (unfold in_safe_range; simpl; lia).
  assert (H5 : (1 <= default 100 (o_maxLimit greedy_page))%Z) by (simpl; lia).
  assert (H6 : (0 <= 1234)%Z) by lia.
  split; [exact H0 | ]. split; [exact H5 | ]. split; [reflexivity | ].
  destruct (pagination_is_sound 1234 greedy_page H0 H1 H2 H3 H4 H5 H6)
    as (r & n & Hr & _ & _ & _ & _ & _ & Hn & Hb & _).
  exists r, n. split; [exact Hr | ]. split; [exact Hn | exact Hb].
Defined.

Lemma backoff_snoc delay j :
  backoff delay j ++ [(delay * Z.of_nat (S j))%Z] = backoff delay (S j).
Proof.
  unfold backoff. rewrite seq_S, map_app. reflexivity.
Qed.

Lemma retry_loop_trace {T} (fn : M T) n delay : forall left j slept w wj,
  1 <= left -> j + left = n -> slept = backoff delay j ->
  after_failures fn j w = Some wj ->
  exists k w0 outcome w',
    retry_loop fn n delay left slept wj = (outcome, w', backoff delay k)
    /\ k < n
    /\ after_failures fn k w = Some w0
    /\ fn w0 = (outcome, w')
    /\ (forall e, outcome = Throw e -> k = n - 1).
Proof.
  induction left as [| left' IH]; intros j slept w wj Hl Hn Hs Haf; [lia | ].
  cbn [retry_loop]. destruct (fn wj) as [[t | e] w1] eqn:Hfn.
  - exists j, wj, (Ok t), w1. rewrite Hs.
    repeat split; [lia | exact Haf | exact Hfn | discriminate].
  - destruct (Nat.eqb_spec (n - left') n) as [He | Hne].
    + exists j, wj, (Throw e), w1. rewrite Hs.
      repeat split; [lia | exact Haf | exact Hfn | intros; lia].
    + assert (Hj : n - left' = S j) by lia.
      apply (IH (S j) (slept ++ [(delay * Z.of_nat (n - left'))%Z]) w w1).
      * lia.
      * lia.
      * rewrite Hs, Hj. apply backoff_snoc.
      * clear - Haf Hfn. revert w Haf. induction j as [| j IHj]; intros w Haf.
        -- simpl in Haf. inversion Haf; subst. simpl. rewrite Hfn. reflexivity.
        -- simpl in Haf |- *. destruct (fn w) as [[t' | e'] w2]; [discriminate Haf | ].
           apply IHj. exact Haf.
Qed.

(** X20. [retry], for attempts and delay in the safe range: with no
    attempt allowed it throws "Max retry attempts reached" without running
    the function; with [n >= 1] attempts it runs the function until it
    returns for the first time or has thrown [n] times: the [k] attempts
    before the last one made all threw, the outcome is that of the last
    one made, which is the [n]-th whenever it is an error, and before
    attempts [2, 3, ...] it slept [delay], [2 * delay], ..., with nothing
    after the last. *)
Theorem retry_last_attempt_decides :
  forall (T : Type) (fn : M T) (n : nat) (delay : Z) (w : World),
    in_safe_range (Z.of_nat n) ->
    in_safe_range delay ->
    in_safe_range (delay * Z.of_nat n) ->
    (n = 0 ->
       retry fn n delay w
       = Some (Throw (Plain (mkJsError "Error" "Max retry attempts reached" JUndefined)),
               w, []))
    /\ (1 <= n ->
          exists k w0 outcome w',
            retry fn n delay w = Some (outcome, w', backoff delay k)
            /\ k < n
            /\ after_failures fn k w = Some w0
            /\ fn w0 = (outcome, w')
            /\ (forall e, outcome = Throw e -> k = n - 1)).
Proof.
  intros T fn n delay w Hn Hd Hp. unfold retry.
  rewrite (proj2 (isSafeInteger_spec _) Hn), (proj2 (isSafeInteger_spec _) Hd),
          (proj2 (isSafeInteger_spec _) Hp).
  cbn [andb]. split.
  - intros ->. reflexivity.
  - intro H1.
    destruct (retry_loop_trace fn n delay n 0 [] w w H1 ltac:(lia) eq_refl eq_refl)
      as (k & w0 & outcome & w' & Hr & Hk & Haf & Hfn & Hlast).
    exists k, w0, outcome, w'. rewrite Hr. repeat split; assumption.
Qed.

Lemma retry_last_attempt_decides_witness :
  in_safe_range (Z.of_nat 3)
  /\ in_safe_range 1000
  /\ in_safe_range (1000 * Z.of_nat 3)
  /\ 1 <= 3
  /\ retry stubborn 3 1000%Z unreachable
     = Some (Ok 7, set_pool (Some (mkPool 2 0 0)) unreachable, [1000%Z; 2000%Z])
  /\ retry stubborn 2 1000%Z unreachable
     = Some (Throw (Plain boom), set_pool (Some (mkPool 2 0 0)) unreachable, [1000%Z])
  /\ exists k w0 outcome w',
       retry stubborn 3 1000%Z unreachable = Some (outcome, w', backoff 1000%Z k)
       /\ after_failures stubborn k unreachable = Some w0
       /\ stubborn w0 = (outcome, w').
Proof.
  assert (H1 : in_safe_range (Z.of_nat 3)) by (unfold in_safe_range; simpl; lia).
  assert (H2 : in_safe_range 1000) by (unfold in_safe_range; simpl; lia).
  assert (H3 : in_safe_range (1000 * Z.of_nat 3)) by (unfold in_safe_range; simpl; lia).
  assert (H : 1 <= 3) by lia.
  split; [exact H1 | ]. split; [exact H2 | ]. split; [exact H3 | ]. split; [exact H | ].
  split; [reflexivity | ]. split; [reflexivity | ].
  destruct (proj2 (retry_last_attempt_decides nat stubborn 3 1000%Z unreachable H1 H2 H3) H)
    as (k & w0 & outcome & w' & Hr & _ & Haf & Hfn & _).
  exists k, w0, outcome, w'. split; [exact Hr | ]. split; [exact Haf | exact Hfn].
Defined.

Lemma or_else_filled a b s :
  b = Some s -> s <> "" -> exists t, or_else a b = Some t /\ t <> "".
Proof.
  intros Hb Hs. unfold or_else. destruct a as [x |].
  - destruct (String.eqb_spec x "") as [-> | Hx].
    + exists s. split; assumption.
    + exists x. split; [reflexivity | exact Hx].
  - exists s. split; assumption.
Qed.

(** X21. [getClientIP] never returns the empty text.  When the
    X-Forwarded-For header has something before its first comma, that is
    the answer, whatever the socket's address; when nothing is known the
    answer is "unknown". *)
Theorem getClientIP_answers :
  forall req,
    getClientIP req <> ""
    /\ (forall h, x_forwarded_for req = Some h -> before_comma h <> "" ->
          getClientIP req = before_comma h)
    /\ (x_forwarded_for req = None -> x_real_ip req = None ->
        connection_remoteAddress req = None -> socket_remoteAddress req = None ->
        connection_socket_remoteAddress req = None ->
        getClientIP req = "unknown").
Proof.
  intro req. unfold getClientIP. split; [ | split ].
  - destruct (or_else_filled (connection_socket_remoteAddress req) (Some "unknown")
                "unknown" eq_refl ltac:(discriminate)) as (t1 & H1 & N1).
    rewrite H1.
    destruct (or_else_filled (socket_remoteAddress req) (Some t1) t1 eq_refl N1)
      as (t2 & H2 & N2).
    rewrite H2.
    destruct (or_else_filled (connection_remoteAddress req) (Some t2) t2 eq_refl N2)
      as (t3 & H3 & N3).
    rewrite H3.
    destruct (or_else_filled (x_real_ip req) (Some t3) t3 eq_refl N3) as (t4 & H4 & N4).
    rewrite H4.
    destruct (or_else_filled (option_map before_comma (x_forwarded_for req)) (Some t4) t4
                eq_refl N4) as (t5 & H5 & N5).
    rewrite H5. exact N5.
  - intros h Hh Hne. rewrite Hh. simpl.
    destruct (String.eqb_spec (before_comma h) ""); [contradiction | reflexivity].
  - intros -> -> -> -> ->. reflexivity.
Qed.

Lemma getClientIP_answers_witness :
  x_forwarded_for proxied_peer = Some "203.0.113.7, 10.0.0.1"
  /\ before_comma "203.0.113.7, 10.0.0.1" <> ""
  /\ getClientIP proxied_peer = "203.0.113.7".
Proof.
  assert (H : before_comma "203.0.113.7, 10.0.0.1" <> "") by discriminate.
  split; [reflexivity | ]. split; [exact H | ].
  exact (proj1 (proj2 (getClientIP_answers proxied_peer)) _ eq_refl H).
Defined.

(** ** The user module *)

Lemma execute_calls q ps lg w :
  exists extra,
    calls (snd (QueryExecutor.execute q ps lg w)) = calls w ++ extra
    /\ (extra = [] \/ extra = [CGetConnection]
        \/ extra = [CGetConnection; CExecute q ps; CRelease]).
Proof.
  destruct w as [p cm ss sc lgs cl]. destruct p as [p |].
  - destruct sc as [| [e1 | rows1 fields1] [| [e2 | rows2 fields2] rest]]; destruct lg;
      destruct ss;
      first
        [ exists [CGetConnection]; split; [reflexivity | tauto]
        | exists [CGetConnection; CExecute q ps; CRelease]; split; [ | tauto ];
          transitivity (((cl ++ [CGetConnection]) ++ [CExecute q ps]) ++ [CRelease]);
          [reflexivity | rewrite <- !app_assoc; reflexivity] ].
  - exists []. split; [ | tauto ]. rewrite app_nil_r. reflexivity.
Qed.

Lemma only_looks_up_ret {A} (a : A) : only_looks_up (ret a).
Proof. intro w. exists []. simpl. rewrite app_nil_r. split; [reflexivity | constructor]. Qed.

Lemma only_looks_up_throw {A} (e : Thrown) : only_looks_up (@throw A e).
Proof. intro w. exists []. simpl. rewrite app_nil_r. split; [reflexivity | constructor]. Qed.

Lemma only_looks_up_lift {A} (o : Outcome A) : only_looks_up (lift o).
Proof. intro w. exists []. simpl. rewrite app_nil_r. split; [reflexivity | constructor]. Qed.

Lemma only_looks_up_bind {A B} (m : M A) (k : A -> M B) :
  only_looks_up m -> (forall a, only_looks_up (k a)) -> only_looks_up (bind m k).
Proof.
  intros Hm Hk w. unfold bind. destruct (Hm w) as (x1 & H1 & F1).
  destruct (m w) as [[a | e] w1]; simpl in *.
  - destruct (Hk a w1) as (x2 & H2 & F2). exists (x1 ++ x2). split.
    + rewrite H2, H1, app_assoc. reflexivity.
    + apply Forall_app. split; assumption.
  - exists x1. split; assumption.
Qed.

Lemma only_looks_up_findById id : only_looks_up (UserQuery.findById id).
Proof.
  unfold UserQuery.findById, QueryExecutor.executeOne.
  apply only_looks_up_bind; [ | intro; apply only_looks_up_ret ].
  intro w. destruct (execute_calls UserQuery.findById_query [id] true w) as (x & Hx & Hc).
  exists x. split; [exact Hx | ].
  destruct Hc as [-> | [-> | ->]]; repeat constructor.
Qed.

Lemma update_without_fields id updateData :
  prop updateData "email" = JUndefined ->
  prop updateData "firstName" = JUndefined ->
  prop updateData "lastName" = JUndefined ->
  prop updateData "role" = JUndefined ->
  prop updateData "isActive" = JUndefined ->
  UserQuery.update id updateData = UserQuery.findById id.
Proof.
  intros H1 H2 H3 H4 H5. unfold UserQuery.update, UserQuery.update_arrays,
    UserQuery.push_defined. rewrite H1, H2, H3, H4, H5. reflexivity.
Qed.

(** X22. [userQuery.update] writes only when the update carries one of
    [email], [firstName], [lastName], [role], [isActive]; with none of them
    it is just the lookup by id.  So [changePassword], which passes only
    [password], never writes: whatever the driver and bcrypt answer, the only
    statements it sends are lookups, and the new hash is not stored. *)
Theorem changePassword_never_writes :
  forall (bcrypt_hash : JsVal -> nat -> Outcome string)
         (bcrypt_compare : JsVal -> JsVal -> Outcome bool)
         (id currentPassword newPassword : JsVal),
    (forall hashed,
        UserQuery.update id [("password", JStr hashed)] = UserQuery.findById id)
    /\ only_looks_up (changePassword bcrypt_hash bcrypt_compare id currentPassword newPassword).
Proof.
  intros bcrypt_hash bcrypt_compare id currentPassword newPassword. split.
  - intro hashed. apply update_without_fields; reflexivity.
  - unfold changePassword.
    apply only_looks_up_bind; [apply only_looks_up_findById | ].
    intros [user |]; [ | apply only_looks_up_throw ].
    apply only_looks_up_bind; [apply only_looks_up_lift | ].
    intros valid. destruct valid; cbn [negb]; [ | apply only_looks_up_throw ].
    apply only_looks_up_bind; [apply only_looks_up_lift | ].
    intro hashed. rewrite update_without_fields by reflexivity.
    apply only_looks_up_bind; [apply only_looks_up_findById | ].
    intro. apply only_looks_up_ret.
Qed.

(** X23. [deleteUser] looks at the field list of the driver's reply for
    the number of affected rows.  When the driver answers the DELETE with a
    result header and no field list, [deleteUser] throws "Failed to delete
    user" although the DELETE has been applied. *)
Theorem deleteUser_reports_failure_after_delete :
  forall id w,
    deletes_without_fields w ->
    exists w',
      deleteUser id w = (Throw (App (AppError.internal "Failed to delete user" None)), w')
      /\ committed w'
         = committed w ++ [(UserQuery.findById_query, [id]);
                           ("DELETE FROM users WHERE id = ?", [id])].
Proof.
  intros id w (Hp & Hs & r0 & f0 & row & rows & f1 & r2 & f2 & r3 & rest & Hsc).
  destruct w as [p cm ss sc lgs cl]. simpl in Hp, Hs, Hsc. subst ss sc.
  destruct p as [p |]; [ | congruence ].
  match goal with
  | |- exists w', deleteUser id ?w0 = _ /\ _ => exists (snd (deleteUser id w0))
  end.
  split.
  - vm_compute. reflexivity.
  - transitivity ((cm ++ [(UserQuery.findById_query, [id])])
                  ++ [("DELETE FROM users WHERE id = ?", [id])]).
    + vm_compute. reflexivity.
    + rewrite <- app_assoc. reflexivity.
Qed.

Lemma deleteUser_reports_failure_after_delete_witness :
  deletes_without_fields delete_world
  /\ exists w',
       deleteUser (JStr "42") delete_world
       = (Throw (App (AppError.internal "Failed to delete user" None)), w')
       /\ committed w'
          = committed delete_world ++ [(UserQuery.findById_query, [JStr "42"]);
                                       ("DELETE FROM users WHERE id = ?", [JStr "42"])].
Proof.
  assert (H : deletes_without_fields delete_world).
  { split; [discriminate | ]. split; [reflexivity | ].
    do 9 eexists. reflexivity. }
  split; [exact H | ].
  exact (deleteUser_reports_failure_after_delete (JStr "42") delete_world H).
Defined.

Lemma without_password_clean user : no_password (without_password user).
Proof.
  unfold no_password, without_password. split.
  - induction user as [| [k v] user IH]; simpl; [reflexivity | ].
    destruct (String.eqb_spec k "password") as [-> | Hne]; simpl; [exact IH | ].
    destruct (String.eqb_spec k "password"); [contradiction | exact IH].
  - intro Hin. unfold Object_keys in Hin. apply in_map_iff in Hin.
    destruct Hin as ([k v] & Hk & Hin). simpl in Hk. subst k.
    apply filter_In in Hin. destruct Hin as [_ Hf]. simpl in Hf. discriminate Hf.
Qed.

Lemma without_password_keeps user key :
  key <> "password" -> prop (without_password user) key = prop user key.
Proof.
  intro Hk. unfold without_password.
  induction user as [| [k v] user IH]; [reflexivity | ].
  cbn [filter fst prop].
  destruct (String.eqb_spec k "password") as [-> | Hne]; cbn [negb prop].
  - destruct (String.eqb_spec "password" key); [congruence | exact IH].
  - destruct (String.eqb_spec k key); [reflexivity | exact IH].
Qed.

(** X24. What the user service returns of a user never carries the
    password: the results of [getUserById], [updateUser] and [login] have
    no [password] key. *)
Theorem service_never_returns_password :
  forall (bcrypt_compare : JsVal -> JsVal -> Outcome bool)
         (jwt_sign : JsRecord -> string -> string -> string)
         (config : Config) (JWT_EXPIRES_IN : string)
         (id : JsVal) (data : JsRecord) (w : World),
    match getUserById id w with
    | (Ok u, _) => no_password u
    | (Throw _, _) => True
    end
    /\ match updateUser id data w with
       | (Ok u, _) => no_password u
       | (Throw _, _) => True
       end
    /\ match login bcrypt_compare jwt_sign config JWT_EXPIRES_IN data w with
       | (Ok r, _) => no_password (l_user r)
       | (Throw _, _) => True
       end.
Proof.
  intros bcrypt_compare jwt_sign config JWT_EXPIRES_IN id data w.
  split; [ | split ].
  - unfold getUserById, bind.
    destruct (UserQuery.findById id w) as [[[user |] | e] w1]; simpl; auto.
    apply without_password_clean.
  - unfold updateUser. unfold bind at 1.
    destruct (UserQuery.findById id w) as [[[existing |] | e] w1]; simpl; auto.
    unfold bind at 1.
    match goal with
    | |- context [(if ?c then ?a else ?b) w1] =>
        destruct ((if c then a else b) w1) as [[[] | e] w2]; simpl; auto
    end.
    unfold bind.
    destruct (UserQuery.update id data w2) as [[[updated |] | e] w3]; simpl; auto.
    apply without_password_clean.
  - unfold login. unfold bind at 1.
    destruct (UserQuery.findByEmail (prop data "email") w) as [[[user |] | e] w1]; simpl; auto.
    destruct (negb (truthy (prop user "isActive"))); simpl; auto.
    unfold bind, comparePassword, lift.
    destruct (bcrypt_compare (prop data "password") (prop user "password")) as [[|] | e];
      simpl; auto.
    apply without_password_clean.
Qed.

Lemma executeOne_answers q ps lg rows w :
  answers_with rows w ->
  exists w',
    QueryExecutor.executeOne q ps lg w
    = (Ok (match rows with RowArray (r :: _) => Some r | _ => None end), w')
    /\ calls w' = calls w ++ [CGetConnection; CExecute q ps; CRelease].
Proof.
  intros (Hp & r0 & f0 & f1 & rest & Hsc).
  destruct w as [p cm ss sc lgs cl]. simpl in Hp, Hsc. subst sc.
  destruct p as [p |]; [ | congruence ].
  match goal with
  | |- exists w', QueryExecutor.executeOne q ps lg ?w0 = _ /\ _ =>
      exists (snd (QueryExecutor.executeOne q ps lg w0))
  end.
  split.
  - destruct lg, ss; reflexivity.
  - transitivity (((cl ++ [CGetConnection]) ++ [CExecute q ps]) ++ [CRelease]).
    + destruct lg, ss; reflexivity.
    + rewrite <- !app_assoc. reflexivity.
Qed.

Lemma exists_answers email rows w :
  answers_with rows w ->
  exists w',
    UserQuery.exists_ email w = (Ok (QueryHelpers.has_rows rows), w')
    /\ calls w' = calls w ++ [CGetConnection;
                              CExecute "SELECT 1 FROM users WHERE email = ? LIMIT 1" [email];
                              CRelease].
Proof.
  intros (Hp & r0 & f0 & f1 & rest & Hsc).
  destruct w as [p cm ss sc lgs cl]. simpl in Hp, Hsc. subst sc.
  destruct p as [p |]; [ | congruence ].
  match goal with
  | |- exists w', UserQuery.exists_ email ?w0 = _ /\ _ =>
      exists (snd (UserQuery.exists_ email w0))
  end.
  split.
  - destruct ss; reflexivity.
  - transitivity (((cl ++ [CGetConnection])
                   ++ [CExecute "SELECT 1 FROM users WHERE email = ? LIMIT 1" [email]])
                  ++ [CRelease]).
    + destruct ss; reflexivity.
    + rewrite <- !app_assoc. reflexivity.
Qed.

(** X25. Logging in and coming back.  When the driver answers the lookup
    by email with the row of an active user, bcrypt accepts the password,
    and the token library verifies the token it signed for that row's
    payload with claims that carry the payload's [id], [email] and [role]:
    [login] returns the user without the password together with a token,
    and [authenticate], given that token as a bearer credential, passes
    the request on with the email and role of the row, and with its id
    whenever the row has one. *)
Theorem login_then_authenticate :
  forall (bcrypt_compare : JsVal -> JsVal -> Outcome bool)
         (jwt_sign : JsRecord -> string -> string -> string)
         (jwt_verify : string -> string -> Verified)
         (config : Config) (JWT_EXPIRES_IN : string)
         (loginData : JsRecord) (row : Row) (rows : list Row) (claims : JsRecord) (w : World),
    answers_with (RowArray (row :: rows)) w ->
    truthy (prop row "isActive") = true ->
    bcrypt_compare (prop loginData "password") (prop row "password") = Ok true ->
    jwt_verify (jwt_sign (token_payload row) (JWT_SECRET config) JWT_EXPIRES_IN)
               (JWT_SECRET config) = Decoded claims ->
    (forall key, In key ["id"; "email"; "role"] -> prop claims key = prop row key) ->
    exists r w',
      login bcrypt_compare jwt_sign config JWT_EXPIRES_IN loginData w = (Ok r, w')
      /\ l_user r = without_password row
      /\ exists identity,
           authenticate jwt_verify config (bearer_request (l_token r))
           = Next (set_user identity (bearer_request (l_token r)))
           /\ u_email identity = prop row "email"
           /\ u_role identity = prop row "role"
           /\ (truthy (prop row "id") = true -> u_id identity = prop row "id").
Proof.
  intros bcrypt_compare jwt_sign jwt_verify config EXP loginData row rows claims w
         Hw Hact Hcmp Hver Hagree.
  destruct (executeOne_answers UserQuery.findByEmail_query [prop loginData "email"] true
              (RowArray (row :: rows)) w Hw) as (w1 & Hfind & _).
  exists (mkLogin (without_password row)
                  (jwt_sign (token_payload row) (JWT_SECRET config) EXP)), w1.
  split; [ | split; [reflexivity | ] ].
  - unfold login. unfold bind at 1. unfold UserQuery.findByEmail. rewrite Hfind.
    rewrite Hact. cbn [negb]. unfold bind, comparePassword, lift. rewrite Hcmp.
    reflexivity.
  - cbn [l_token]. exists (identity_of claims). split; [ | split; [ | split ] ].
    + unfold authenticate, asyncHandler, authenticate_fn, bearer_request.
      cbn [authorization]. rewrite bearer_startsWith, bearer_substring. cbn [negb].
      rewrite Hver. reflexivity.
    + apply (Hagree "email"). simpl. tauto.
    + apply (Hagree "role"). simpl. tauto.
    + intro Hid. unfold identity_of, js_or. cbn [u_id].
      rewrite (Hagree "id") by (simpl; tauto). rewrite Hid. reflexivity.
Qed.

Lemma login_then_authenticate_witness :
  answers_with (RowArray [stored_user]) login_world
  /\ exists r w',
       login sample_compare sample_sign test_build "7d"
             [("email", JStr "a@x.com"); ("password", JStr "correct horse")] login_world
       = (Ok r, w')
       /\ l_user r = without_password stored_user
       /\ exists identity,
            authenticate sample_verify test_build (bearer_request (l_token r))
            = Next (set_user identity (bearer_request (l_token r)))
            /\ u_email identity = prop stored_user "email"
            /\ u_role identity = prop stored_user "role"
            /\ (truthy (prop stored_user "id") = true -> u_id identity = prop stored_user "id").
Proof.
  assert (Hw : answers_with (RowArray [stored_user]) login_world).
  { split; [discriminate | ]. do 4 eexists. reflexivity. }
  split; [exact Hw | ].
  apply (login_then_authenticate sample_compare sample_sign sample_verify test_build "7d"
           [("email", JStr "a@x.com"); ("password", JStr "correct horse")]
           stored_user [] admin_claims login_world Hw).
  - reflexivity.
  - reflexivity.
  - reflexivity.
  - intros key [<- | [<- | [<- | []]]]; reflexivity.
Defined.

(** X26. [createUser]: when the lookup finds the email, it throws the
    conflict error having sent nothing but that lookup (no password is
    hashed, no INSERT is sent); and when it returns, what it returns holds
    nothing of the user: it is what destructuring the insert id leaves,
    the empty object for a number. *)
Theorem createUser_conflict_and_result :
  forall (bcrypt_hash : JsVal -> nat -> Outcome string) (randomUUID : string)
         (userData : JsRecord) (w : World),
    (forall row rows,
        answers_with (RowArray (row :: rows)) w ->
        exists w',
          createUser bcrypt_hash randomUUID userData w
          = (Throw (App (AppError.conflict "User with this email already exists" None)), w')
          /\ calls w' = calls w ++ [CGetConnection;
                                    CExecute "SELECT 1 FROM users WHERE email = ? LIMIT 1"
                                             [prop userData "email"];
                                    CRelease])
    /\ match createUser bcrypt_hash randomUUID userData w with
       | (Ok u, _) => u = [] \/ exists s, u = indexed 0 s
       | (Throw _, _) => True
       end.
Proof.
  intros bcrypt_hash randomUUID userData w. split.
  - intros row rows Hw.
    destruct (exists_answers (prop userData "email") (RowArray (row :: rows)) w Hw)
      as (w1 & Hex & Hcalls).
    exists w1. split; [ | exact Hcalls ].
    unfold createUser. unfold bind at 1. rewrite Hex. reflexivity.
  - unfold createUser. unfold bind at 1.
    destruct (UserQuery.exists_ (prop userData "email") w) as [[[|] | e] w1]; simpl; auto.
    unfold bind at 1. unfold hashPassword, lift.
    destruct (bcrypt_hash (prop userData "password") 12) as [hashed | e]; simpl; auto.
    unfold bind.
    destruct (UserQuery.create _ w1) as [[user | e] w2]; simpl; auto.
    destruct user; simpl; auto. right. eexists. reflexivity.
Qed.

Lemma createUser_conflict_and_result_witness :
  answers_with (RowArray [stored_user]) login_world
  /\ exists w',
       createUser sample_hash "uuid" [("email", JStr "a@x.com")] login_world
       = (Throw (App (AppError.conflict "User with this email already exists" None)), w').
Proof.
  assert (Hw : answers_with (RowArray [stored_user]) login_world).
  { split; [discriminate | ]. do 4 eexists. reflexivity. }
  split; [exact Hw | ].
  destruct (proj1 (createUser_conflict_and_result sample_hash "uuid"
                     [("email", JStr "a@x.com")] login_world) stored_user [] Hw)
    as (w' & H & _).
  exists w'. exact H.
Defined.

(** X27. The health endpoint never forwards an error.  It answers 200
    when the probe of the storage layer goes through and 503 when it does
    not, and in both cases with a body whose [success] flag is true. *)
Theorem health_route_status :
  forall startTime endTime timestamp version environment uptime w,
    exists status body w',
      health_route startTime endTime timestamp version environment uptime w
      = (Ok (status, body), w')
      /\ success body = true
      /\ ((status = 200%Z /\ probe_ok w) \/ (status = 503%Z /\ ~ probe_ok w)).
Proof.
  intros startTime endTime timestamp version environment uptime w.
  destruct (healthCheck_runs startTime endTime timestamp w)
    as (h & w' & Hrun & _ & _ & Hst & _).
  unfold health_route, bind. rewrite Hrun.
  destruct (h_status h) eqn:Hs.
  - eexists; eexists; eexists. split; [reflexivity | ]. split; [reflexivity | ].
    left. split; [reflexivity | apply Hst; reflexivity].
  - eexists; eexists; eexists. split; [reflexivity | ]. split; [reflexivity | ].
    right. split; [reflexivity | ]. intro Hp. apply Hst in Hp. discriminate Hp.
Qed.

Lemma healthCheck_never_throws_witness :
  pool closed_world = None
  /\ exists h w',
       healthCheck 100 130 "2026-01-01T00:00:00.000Z" closed_world = (Ok h, w')
       /\ h_responseTime h = 30%Z
       /\ calls w' = calls closed_world.
Proof.
  split; [reflexivity | ].
  destruct (healthCheck_never_throws 100 130 "2026-01-01T00:00:00.000Z" closed_world)
    as (h & w' & Hrun & Hrt & _ & _ & Hcalls).
  exists h, w'. split; [exact Hrun | ]. split; [exact Hrt | exact (Hcalls eq_refl)].
Defined.

Lemma close_outcomes_witness :
  pool closed_world = None
  /\ DatabaseConnection.close closed_world = (Ok tt, closed_world)
  /\ match DatabaseConnection.close stuck_world with
     | (Ok _, w') => pool w' = None
     | (Throw e, w') =>
         e = App (AppError.database "Failed to close database connection" None)
         /\ pool w' = pool stuck_world /\ pool stuck_world <> None
     end.
Proof.
  split; [reflexivity | ]. split.
  - exact (proj2 (close_outcomes closed_world) eq_refl).
  - exact (proj1 (close_outcomes stuck_world)).
Defined.

(** X28. [checkConnection] never throws and answers [true] exactly when
    the probe goes through.  It hands its connection back when the ping
    succeeds; when the ping fails it answers [false] and leaves the
    connection checked out of the pool. *)
Theorem checkConnection_outcomes :
  forall w,
    exists b w',
      DatabaseConnection.checkConnection w = (Ok b, w')
      /\ (b = true <-> probe_ok w)
      /\ (pool w <> None /\ second_call_fails w ->
            b = false /\ pool w' = option_map take (pool w))
      /\ (~ (pool w <> None /\ second_call_fails w) -> settled w w').
Proof.
  intro w. destruct w as [p cm ss sc lgs cl].
  unfold probe_ok, second_call_fails. destruct p as [p |].
  - destruct sc as [| [e1 | rows1 fields1] [| [e2 | rows2 fields2] rest]];
      (eexists; eexists; split; [reflexivity | ]); cbn [pool script].
    + split; [ | split ].
      * split; [intros _; split; [discriminate | exact I] | reflexivity].
      * intros [_ (r & f & d & t & H)]. discriminate H.
      * intros _. apply settled_take_give. reflexivity.
    + split; [ | split ].
      * split; [discriminate | intros [_ []] ].
      * intros [_ (r & f & d & t & H)]. discriminate H.
      * intros _. apply settled_same. reflexivity.
    + split; [ | split ].
      * split; [discriminate | intros [_ []] ].
      * intros [_ (r & f & d & t & H)]. discriminate H.
      * intros _. apply settled_same. reflexivity.
    + split; [ | split ].
      * split; [discriminate | intros [_ []] ].
      * intros [_ (r & f & d & t & H)]. discriminate H.
      * intros _. apply settled_same. reflexivity.
    + split; [ | split ].
      * split; [intros _; split; [discriminate | exact I] | reflexivity].
      * intros [_ (r & f & d & t & H)]. discriminate H.
      * intros _. apply settled_take_give. reflexivity.
    + split; [ | split ].
      * split; [discriminate | intros [_ []] ].
      * intros _. split; reflexivity.
      * intro H. exfalso. apply H. split; [discriminate | ].
        do 4 eexists. reflexivity.
    + split; [ | split ].
      * split; [intros _; split; [discriminate | exact I] | reflexivity].
      * intros [_ (r & f & d & t & H)]. discriminate H.
      * intros _. apply settled_take_give. reflexivity.
  - eexists; eexists; split; [reflexivity | ]. cbn [pool script].
    split; [ | split ].
    + split; [discriminate | intros [H _]; congruence].
    + intros [H _]. congruence.
    + intros _. apply settled_same. reflexivity.
Qed.

Lemma checkConnection_outcomes_witness :
  pool stuck_world <> None /\ second_call_fails (set_script [Done (RowArray []) None; Fail lost] stuck_world)
  /\ exists w',
       DatabaseConnection.checkConnection
         (set_script [Done (RowArray []) None; Fail lost] stuck_world) = (Ok false, w')
       /\ pool w' = Some (mkPool 10 1 0).
Proof.
  assert (H1 : pool (set_script [Done (RowArray []) None; Fail lost] stuck_world) <> None)
    by discriminate.
  assert (H2 : second_call_fails (set_script [Done (RowArray []) None; Fail lost] stuck_world)).
  { do 4 eexists. reflexivity. }
  split; [discriminate | ]. split; [exact H2 | ].
  destruct (checkConnection_outcomes (set_script [Done (RowArray []) None; Fail lost] stuck_world))
    as (b & w' & Hrun & _ & Hleak & _).
  destruct (Hleak (conj H1 H2)) as [-> Hp].
  exists w'. split; [exact Hrun | exact Hp].
Defined.
